(** * xdChrome-tool: proxy pool, request filter and snapshot-based tools

    A shallow embedding of the session-resilience core of xdChrome-tool
    (xd-extended-proxy.js, xd-extended-adblock.js, xd-chrome-tools.js and
    the parts of xd-chrome-core.js they call), with the properties the
    specification states about them.

    Conventions.
    - A JavaScript string is a Rocq [string]; a character is one UTF-16
      code unit below 256, which covers every URL, host name and selector
      the code handles.
    - Plain objects and [Map]s used as dictionaries keyed by proxy address
      or host are [gmap string _]; keys that collide with the names
      inherited from [Object.prototype] are outside the model.
    - Time stamps ([Date.now()]) are integers in milliseconds; one
      operation reads the clock once.
    - A thrown [Error] is its message. *)

From Stdlib Require Import ZArith Ascii String.
From stdpp Require Import gmap strings list sorting pretty.

Local Open Scope string_scope.
Local Open Scope list_scope.

(** ** JavaScript string primitives *)

Module JS.

(** [WhiteSpace] and [LineTerminator] code units below 256, the ones
    [String.prototype.trim] strips. *)
Definition isWhiteSpace (c : ascii) : bool :=
  let n := nat_of_ascii c in
  bool_decide (n = 9 ∨ n = 10 ∨ n = 11 ∨ n = 12 ∨ n = 13 ∨ n = 32 ∨ n = 160)%nat.

Fixpoint trimStart (s : string) : string :=
  match s with
  | String c s' => if isWhiteSpace c then trimStart s' else s
  | EmptyString => EmptyString
  end.

Definition trimEnd (s : string) : string :=
  String.rev (trimStart (String.rev s)).

Definition trim (s : string) : string := trimEnd (trimStart s).

(** [toLowerCase] on one code unit: A-Z, and the Latin-1 capitals
    U+00C0..U+00DE except the multiplication sign U+00D7. *)
Definition lowerChar (c : ascii) : ascii :=
  let n := nat_of_ascii c in
  if bool_decide (65 ≤ n ≤ 90 ∨ (192 ≤ n ≤ 222 ∧ n ≠ 215))%nat
  then ascii_of_nat (n + 32) else c.

Fixpoint toLowerCase (s : string) : string :=
  match s with
  | String c s' => String (lowerChar c) (toLowerCase s')
  | EmptyString => EmptyString
  end.

(** [s.startsWith(p)] *)
Fixpoint startsWith (s p : string) : bool :=
  match p, s with
  | EmptyString, _ => true
  | String a p', String b s' => bool_decide (a = b) && startsWith s' p'
  | String _ _, EmptyString => false
  end.

(** [s.endsWith(p)]: [p] is [s] or ends what follows the first character
    of [s]. *)
Fixpoint endsWith (s p : string) : bool :=
  bool_decide (s = p) ||
  match s with
  | String _ s' => endsWith s' p
  | EmptyString => false
  end.

(** [s.includes(p)] *)
Fixpoint includes (s p : string) : bool :=
  startsWith s p ||
  match s with
  | String _ s' => includes s' p
  | EmptyString => false
  end.

(** Truthiness of a string: [Boolean(s)]. *)
Definition truthy (s : string) : bool := negb (bool_decide (s = "")).

(** Truthiness of a value that is a string or [null]. *)
Definition truthy_opt (o : option string) : bool :=
  match o with Some s => truthy s | None => false end.

(** [[...new Set(l)]]: the distinct elements in order of first occurrence.
    [acc] is the set built so far. *)
Fixpoint set_add_all (acc l : list string) : list string :=
  match l with
  | [] => acc
  | x :: l' => set_add_all (if bool_decide (x ∈ acc) then acc else acc ++ [x]) l'
  end.

Definition new_Set (l : list string) : list string := set_add_all [] l.

(** *** The URL parser

    [new URL(s)] belongs to the platform (the WHATWG URL standard). A
    parsed address is a record of the components the code reads. *)

Record URL := mkURL {
  protocol : string; host : string; hostname : string;
  username : string; password : string
}.

Definition isC0OrSpace (c : ascii) : bool := bool_decide (nat_of_ascii c ≤ 32)%nat.

Definition isTabOrNewline (c : ascii) : bool :=
  let n := nat_of_ascii c in bool_decide (n = 9 ∨ n = 10 ∨ n = 13)%nat.

Definition isAlpha (c : ascii) : bool :=
  let n := nat_of_ascii c in bool_decide (65 ≤ n ≤ 90 ∨ 97 ≤ n ≤ 122)%nat.

Definition isDigit (c : ascii) : bool :=
  let n := nat_of_ascii c in bool_decide (48 ≤ n ≤ 57)%nat.

(** ASCII alphanumeric, [+], [-] or [.] *)
Definition isSchemeChar (c : ascii) : bool :=
  let n := nat_of_ascii c in
  isAlpha c || isDigit c || bool_decide (n = 43 ∨ n = 45 ∨ n = 46)%nat.

Fixpoint dropWhile (f : ascii → bool) (s : string) : string :=
  match s with
  | String c s' => if f c then dropWhile f s' else s
  | EmptyString => EmptyString
  end.

Fixpoint removeAll (f : ascii → bool) (s : string) : string :=
  match s with
  | String c s' => if f c then removeAll f s' else String c (removeAll f s')
  | EmptyString => EmptyString
  end.

(** The part of [s] before the first character satisfying [f], and the
    rest from that character on. *)
Fixpoint breakAt (f : ascii → bool) (s : string) : string * string :=
  match s with
  | String c s' =>
      if f c then (EmptyString, s)
      else let '(a, b) := breakAt f s' in (String c a, b)
  | EmptyString => (EmptyString, EmptyString)
  end.

(** Scheme state: the characters of [s] up to the first [:], lower-cased,
    when all of them are scheme characters, and what follows the colon. *)
Fixpoint scheme_state (s : string) : option (string * string) :=
  match s with
  | String c s' =>
      if bool_decide (c = ":"%char) then Some (EmptyString, s')
      else if isSchemeChar c then
        match scheme_state s' with
        | Some (sch, rest) => Some (String (lowerChar c) sch, rest)
        | None => None
        end
      else None
  | EmptyString => None
  end.

(** Scheme start state, on the input with its leading and trailing C0
    controls and spaces stripped and tabs and newlines removed: the scheme
    starts with a letter. Without a scheme and without a base URL the
    parser reports failure. *)
Definition URL_scheme (s : string) : option (string * string) :=
  let s1 := String.rev (dropWhile isC0OrSpace (String.rev (dropWhile isC0OrSpace s))) in
  let s2 := removeAll isTabOrNewline s1 in
  match s2 with
  | String c _ => if isAlpha c then scheme_state s2 else None
  | EmptyString => None
  end.

Definition isSpecial (scheme : string) : bool :=
  bool_decide (scheme ∈ ["http"; "https"; "ftp"; "ws"; "wss"]).

Definition defaultPort (scheme : string) : string :=
  if bool_decide (scheme = "http" ∨ scheme = "ws") then "80"
  else if bool_decide (scheme = "https" ∨ scheme = "wss") then "443"
  else if bool_decide (scheme = "ftp") then "21" else "".

Definition isSlash (c : ascii) : bool := bool_decide (c = "/"%char ∨ c = "\"%char).

Definition isAuthorityEnd (c : ascii) : bool :=
  bool_decide (c = "/"%char ∨ c = "\"%char ∨ c = "?"%char ∨ c = "#"%char).

(** The authority [user:pass@host:port] split into its parts; the user
    information ends at the last [@], the port starts at the last [:]. *)
Definition splitAuthority (auth : string) : string * string * string * string :=
  let '(tsoh, resu) := breakAt (λ c, bool_decide (c = "@"%char)) (String.rev auth) in
  let hostport := String.rev tsoh in
  let userinfo := match resu with String _ r => String.rev r | EmptyString => "" end in
  let '(user, pass) := breakAt (λ c, bool_decide (c = ":"%char)) userinfo in
  let pass := match pass with String _ r => r | EmptyString => "" end in
  let '(trop, tsoh') := breakAt (λ c, bool_decide (c = ":"%char)) (String.rev hostport) in
  match tsoh' with
  | String _ h => (user, pass, String.rev h, String.rev trop)
  | EmptyString => (user, pass, hostport, "")
  end.

(** [new URL(s)], [None] when it throws. The scheme stage follows the
    standard, so an address rejected here is rejected by the platform.
    Past the scheme the address is only split at its delimiters: the
    standard's validation of host and port is not reproduced, and
    non-special schemes are given an authority only after [//]. *)
Definition URL_new (s : string) : option URL :=
  match URL_scheme s with
  | None => None
  | Some (scheme, rest) =>
      let special := isSpecial scheme in
      let after :=
        if special then Some (dropWhile isSlash rest)
        else if startsWith rest "//" then Some (dropWhile isSlash rest)
        else None in
      match after with
      | None => Some (mkURL (scheme +:+ ":") "" "" "" "")
      | Some a =>
          let '(auth, _) := breakAt isAuthorityEnd a in
          let '(user, pass, hn, port) := splitAuthority auth in
          if special && bool_decide (hn = "") then None else
          let hn := toLowerCase hn in
          let h := if bool_decide (port = "" ∨ port = defaultPort scheme)
                   then hn else hn +:+ ":" +:+ port in
          Some (mkURL (scheme +:+ ":") h hn user pass)
      end
  end.

End JS.

(** ** Proxy pool (xd-extended-proxy.js) *)

Module Proxy.

(** Failures within this window count toward ban *)
Definition FAIL_THRESHOLD : nat := 3.
(** 1 hour failure window *)
Definition FAIL_WINDOW_MS : Z := 60 * 60 * 1000.
(** 12 hour ban duration *)
Definition BAN_DURATION_MS : Z := 12 * 60 * 60 * 1000.

(** One entry of [_state.banned]. *)
Record Ban := mkBan { bannedAt : Z; expiresAt : Z; failures : nat }.

(** [this._state], the document persisted in proxies.json. *)
Record State := mkState { banned : gmap string Ban; lastRotation : Z }.

Record ProxyManager := mkPM {
  _allUrls : list string;
  _index : nat;
  _current : option string;
  _failures : gmap string (list Z);
  _state : State
}.

#[global] Instance Ban_eq_dec : EqDecision Ban.
Proof. solve_decision. Defined.

Definition set_banned (b : gmap string Ban) (p : ProxyManager) : ProxyManager :=
  mkPM (_allUrls p) (_index p) (_current p) (_failures p)
       (mkState b (lastRotation (_state p))).

Definition set_failures (f : gmap string (list Z)) (p : ProxyManager) : ProxyManager :=
  mkPM (_allUrls p) (_index p) (_current p) f (_state p).

(** [arr[i], arr[j]] = [arr[j], arr[i]] for indices inside the array. *)
Definition swap (arr : list string) (i j : nat) : list string :=
  match arr !! i, arr !! j with
  | Some x, Some y => <[j := x]> (<[i := y]> arr)
  | _, _ => arr
  end.

(** The loop of [_shuffle], entered with [i]; [rnd i] is the value of
    [Math.floor(Math.random() * (i + 1))] drawn in the iteration for [i]. *)
Fixpoint shuffle_loop (rnd : nat → nat) (i : nat) (arr : list string) : list string :=
  match i with
  | O => arr
  | S i' => shuffle_loop rnd i' (swap arr i (rnd i))
  end.

(** Fisher-Yates shuffle to randomize initial order *)
Definition _shuffle (rnd : nat → nat) (arr : list string) : list string :=
  shuffle_loop rnd (length arr - 1) arr.

(** The expiry test of [_load]: [ban.expiresAt && ban.expiresAt <= now]. *)
Definition expired_on_load (now : Z) (b : Ban) : bool :=
  negb (expiresAt b =? 0)%Z && (expiresAt b <=? now)%Z.

(** [_load]: [disk] is the parsed content of the ban file when it exists
    and parses, whose [banned] field may be missing; expired bans are
    dropped. *)
Definition _load (disk : option (option (gmap string Ban) * Z)) (now : Z) : State :=
  let st := match disk with
            | Some (Some b, r) => mkState b r
            | Some (None, r) => mkState ∅ r
            | None => mkState ∅ 0
            end in
  mkState (filter (λ kv, expired_on_load now kv.2 = false) (banned st))
          (lastRotation st).

(** [new ProxyManager(cfgUrls, dataDir)] *)
Definition constructor (cfgUrls : list string)
    (disk : option (option (gmap string Ban) * Z)) (now : Z)
    (rnd : nat → nat) : ProxyManager :=
  let urls := JS.new_Set (filter (λ v, JS.truthy v = true) (map JS.trim cfgUrls)) in
  mkPM (_shuffle rnd urls) 0 None ∅ (_load disk now).

(** [_isBanned(url)]: the answer and the ban table after the lazy purge. *)
Definition _isBanned (now : Z) (url : string) (b : gmap string Ban)
    : bool * gmap string Ban :=
  match b !! url with
  | None => (false, b)
  | Some ban => if (expiresAt ban <=? now)%Z then (false, delete url b) else (true, b)
  end.

(** [urls.filter(url => !this._isBanned(url))], threading the ban table
    through the calls. *)
Fixpoint filter_available (now : Z) (urls : list string) (b : gmap string Ban)
    : list string * gmap string Ban :=
  match urls with
  | [] => ([], b)
  | u :: rest =>
      let '(isb, b1) := _isBanned now u b in
      let '(av, b2) := filter_available now rest b1 in
      (if isb then av else u :: av, b2)
  end.

(** [reportFailure(proxyUrl)]: the returned flag and the manager afterwards. *)
Definition reportFailure (p : ProxyManager) (proxyUrl : string) (now : Z)
    : bool * ProxyManager :=
  if negb (JS.truthy proxyUrl) then (false, p) else
  let old := default [] (_failures p !! proxyUrl) in
  let pushed := old ++ [now] in
  let recent := filter (λ ts, (now - ts < FAIL_WINDOW_MS)%Z) pushed in
  if bool_decide (length recent < FAIL_THRESHOLD)%nat
  then (false, set_failures (<[proxyUrl := recent]> (_failures p)) p)
  else
    let ban := mkBan now (now + BAN_DURATION_MS) (length recent) in
    (true,
     set_failures (delete proxyUrl (_failures p))
       (set_banned (<[proxyUrl := ban]> (banned (_state p))) p)).

(** [reportSuccess(proxyUrl)] *)
Definition reportSuccess (p : ProxyManager) (proxyUrl : string) : ProxyManager :=
  if negb (JS.truthy proxyUrl) then p
  else set_failures (delete proxyUrl (_failures p)) p.

(** [getStats()] *)
Record Stats := mkStats { total : nat; available : Z; banned_count : nat }.

Definition getStats (p : ProxyManager) (now : Z) : Stats :=
  let nb := length (filter (λ kv, (now < expiresAt kv.2)%Z)
                           (map_to_list (banned (_state p)))) in
  mkStats (length (_allUrls p)) (Z.of_nat (length (_allUrls p)) - Z.of_nat nb) nb.

(** *** Parsing an address

    [new URL(raw)] and [decodeURIComponent] belong to the platform. The
    pool is stated over any such pair; [None] is a thrown exception. *)

Record Parsed := mkParsed {
  raw : string; server : string; p_username : string; p_password : string
}.

Section Parse.

Variable URL_new : string → option JS.URL.
Variable decodeURIComponent : string → option string.

(** [_parseProxy(raw)] *)
Definition _parseProxy (r : string) : option Parsed :=
  match URL_new r with
  | None => None
  | Some parsed =>
      match decodeURIComponent (JS.username parsed) with
      | None => None
      | Some u =>
          match decodeURIComponent (JS.password parsed) with
          | None => None
          | Some pw => Some (mkParsed r (JS.protocol parsed +:+ "//" +:+ JS.host parsed) u pw)
          end
      end
  end.

(** [getNextProxy()] *)
Definition getNextProxy (p : ProxyManager) (now : Z) : option Parsed * ProxyManager :=
  let '(av, b) := filter_available now (_allUrls p) (banned (_state p)) in
  match av with
  | [] => (None, set_banned b p)
  | _ :: _ =>
      let idx := ((_index p + 1) mod length av)%nat in
      let cur := av !! idx in
      (match cur with Some c => _parseProxy c | None => None end,
       mkPM (_allUrls p) idx cur (_failures p) (mkState b now))
  end.

(** [getCurrentProxy()] *)
Definition getCurrentProxy (p : ProxyManager) : option Parsed :=
  match _current p with
  | Some c => if JS.truthy c then _parseProxy c else None
  | None => None
  end.

End Parse.

(** *** Notions the properties are stated with *)

(** The draws a uniform source can make: the one for [i] is at most [i]. *)
Definition in_range (rnd : nat → nat) : Prop := ∀ i, (rnd i ≤ i)%nat.

(** The failure stamps [reportFailure] counts for [url] at time [now]: the
    stored ones plus the new one, pruned to the window. *)
Definition windowed (p : ProxyManager) (url : string) (now : Z) : list Z :=
  filter (λ ts, (now - ts < FAIL_WINDOW_MS)%Z)
         (default [] (_failures p !! url) ++ [now]).

(** Every stored failure history is shorter than the threshold. It holds
    of a fresh manager and every operation keeps it. *)
Definition failures_below_threshold (p : ProxyManager) : Prop :=
  ∀ u l, _failures p !! u = Some l → (length l < FAIL_THRESHOLD)%nat.

(** The ban table holds for [u] a record whose expiry is still ahead of
    [now]. *)
Definition currently_banned (now : Z) (b : gmap string Ban) (u : string) : bool :=
  match b !! u with
  | Some ban => bool_decide (now < expiresAt ban)%Z
  | None => false
  end.

(** The endpoint the cursor selects: [available[this._index]] after the
    cursor has advanced. *)
Definition selected (p : ProxyManager) (now : Z) : option string :=
  let av := filter (λ u, currently_banned now (banned (_state p)) u = false)
                   (_allUrls p) in
  av !! ((_index p + 1) mod length av)%nat.

(** The ban table [_load] reads from the ban file: empty when the file
    is missing or unreadable, or has no [banned] field. *)
Definition on_disk (disk : option (option (gmap string Ban) * Z)) : gmap string Ban :=
  match disk with
  | Some (Some b, _) => b
  | _ => ∅
  end.

Section Rounds.

Variable URL_new : string → option JS.URL.
Variable decodeURIComponent : string → option string.

(** Calls of [getNextProxy] in a row, one at each of [times]: the value
    of [_current] after each call, and the manager after the last. *)
Fixpoint rounds (times : list Z) (p : ProxyManager)
    : list (option string) * ProxyManager :=
  match times with
  | [] => ([], p)
  | now :: later =>
      let p1 := (getNextProxy URL_new decodeURIComponent p now).2 in
      let '(sel, p2) := rounds later p1 in
      (_current p1 :: sel, p2)
  end.

End Rounds.

End Proxy.

(** ** Request filter (xd-extended-adblock.js) *)

Module Adblock.

(** [(Array.isArray(value) ? value : []).map(v => String(v || '').trim().toLowerCase()).filter(Boolean)] *)
Definition normalizeArray (value : list string) : list string :=
  filter (λ v, JS.truthy v = true) (map (λ v, JS.toLowerCase (JS.trim v)) value).

(** [String(mode || 'balanced').toLowerCase() === 'aggressive' ? 'aggressive' : 'balanced'] *)
Definition normalizeMode (mode : string) : string :=
  if bool_decide (JS.toLowerCase (if JS.truthy mode then mode else "balanced") = "aggressive")
  then "aggressive" else "balanced".

(** [.replace(/^\*\./, '')] *)
Definition stripWildcard (s : string) : string :=
  match s with
  | String "*" (String "." s') => s'
  | _ => s
  end.

(** [.replace(/\.+$/, '')] *)
Definition stripTrailingDots (s : string) : string :=
  String.rev (JS.dropWhile (λ c, bool_decide (c = "."%char)) (String.rev s)).

Definition normalizeDomain (value : string) : string :=
  stripTrailingDots (stripWildcard (JS.toLowerCase (JS.trim value))).

Definition hostMatchesDomain (host domain : string) : bool :=
  let h := normalizeDomain host in
  let d := normalizeDomain domain in
  JS.truthy h && JS.truthy d && (bool_decide (h = d) || JS.endsWith h ("." +:+ d)).

(** *** The LRU map

    A [Map] is its entries in insertion order, one per key. *)

Abbreviation JSMap := (list (string * nat)).

Fixpoint map_get (key : string) (m : JSMap) : option nat :=
  match m with
  | [] => None
  | e :: m' => if bool_decide (e.1 = key) then Some e.2 else map_get key m'
  end.

Definition map_has (key : string) (m : JSMap) : bool :=
  bool_decide (key ∈ m.*1).

Definition map_delete (key : string) (m : JSMap) : JSMap :=
  filter (λ e, e.1 ≠ key) m.

(** [map.set(key, v)]: a present key keeps its place, a new one goes last. *)
Fixpoint map_set (key : string) (v : nat) (m : JSMap) : JSMap :=
  match m with
  | [] => [(key, v)]
  | e :: m' => if bool_decide (e.1 = key) then (key, v) :: m' else e :: map_set key v m'
  end.

(** [createLRUMap(maxSize)] returns closures over [map]; the state they
    share is the capacity and that map, [lmap]. *)
Record LRUMap := mkLRU { maxSize : nat; lmap : JSMap }.

Definition createLRUMap (maxSize : nat) : LRUMap := mkLRU maxSize [].

Definition get (key : string) (l : LRUMap) : option nat := map_get key (lmap l).

(** [inc(key)]: the new count and the map afterwards. *)
Definition inc (key : string) (l : LRUMap) : nat * LRUMap :=
  let next := (default 0 (map_get key (lmap l)) + 1)%nat in
  let m1 :=
    if map_has key (lmap l) then map_delete key (lmap l)
    else if bool_decide (maxSize l ≤ length (lmap l))%nat then
      match (lmap l).*1 with
      | k :: _ => map_delete k (lmap l)
      | [] => lmap l
      end
    else lmap l in
  (next, mkLRU (maxSize l) (map_set key next m1)).

Definition entries (l : LRUMap) : list (string * nat) := lmap l.

Definition clear (l : LRUMap) : LRUMap := mkLRU (maxSize l) [].

(** *** Configuration and the compiled cache *)

Record ResourceTypes := mkTypes { balanced : list string; aggressive : list string }.

Record Config := mkConfig {
  enabled : bool;
  mode : string;
  blockResourceTypes : ResourceTypes;
  blockUrlPatterns : list string;
  allowlistDomains : list string;
  logEveryBlocked : nat
}.

(** The defaults of [createAdblockManager]. *)
Definition defaultConfig : Config :=
  mkConfig true "balanced"
    (mkTypes ["media"] ["image"; "media"; "font"])
    ["doubleclick.net"; "googlesyndication.com"; "googleadservices.com";
     "taboola.com"; "outbrain.com"; "criteo.com"; "adnxs.com"]
    [] 25.

Record Cache := mkCache {
  c_enabled : bool;
  c_mode : string;
  blockedTypes : list string;
  domainPatterns : list string;
  urlPatterns : list string;
  c_allowlistDomains : list string
}.

Definition isUrlPattern (p : string) : bool := JS.includes p "/" || JS.includes p "?".

(** [config.blockResourceTypes?.[mode]] for a normalized mode. *)
Definition typesOf (t : ResourceTypes) (mode : string) : list string :=
  if bool_decide (mode = "aggressive") then aggressive t else balanced t.

(** Build optimized lookup cache from current config *)
Definition buildCache (config : Config) : Cache :=
  let mode := normalizeMode (mode config) in
  let allPatterns := normalizeArray (blockUrlPatterns config) in
  let domainPatterns := filter (λ p, isUrlPattern p = false) allPatterns in
  let urlPatterns := filter (λ p, isUrlPattern p = true) allPatterns in
  mkCache (enabled config) mode
    (JS.new_Set (normalizeArray (typesOf (blockResourceTypes config) mode)))
    (map normalizeDomain domainPatterns)
    urlPatterns
    (map normalizeDomain (normalizeArray (allowlistDomains config))).

(** *** The decision *)

Record Request := mkRequest { url : string; resourceType : string }.

Record Decision := mkDecision {
  block : bool;
  d_host : option string;
  d_resourceType : option string;
  blockRule : option string
}.

Definition allow : Decision := mkDecision false None None None.

Definition blocked (host resourceType rule : string) : Decision :=
  mkDecision true (Some host) (Some resourceType) (Some rule).

(** [const m = l.find(f); if (m) ...]: the first element satisfying [f],
    when it is truthy. *)
Definition found (f : string → bool) (l : list string) : option string :=
  match list_find (λ p, f p = true) l with
  | Some (_, m) => if JS.truthy m then Some m else None
  | None => None
  end.

Section Evaluate.

(** [new URL(url)] of the platform. *)
Variable URL_new : string → option JS.URL.

Definition evaluate (cache : Cache) (request : Request) : Decision :=
  let url := JS.toLowerCase (url request) in
  if negb (c_enabled cache) || negb (JS.truthy url) || JS.startsWith url "data:"
     || JS.startsWith url "blob:" || JS.startsWith url "about:"
  then allow else
  let host := match URL_new url with
              | Some u => normalizeDomain (JS.hostname u)
              | None => ""
              end in
  if JS.truthy host && existsb (λ d, hostMatchesDomain host d) (c_allowlistDomains cache)
  then allow else
  let resourceType := JS.toLowerCase (resourceType request) in
  if bool_decide (resourceType ∈ blockedTypes cache)
  then blocked host resourceType ("type:" +:+ resourceType) else
  if bool_decide (resourceType ≠ "document") then
    match found (λ p, hostMatchesDomain host p) (domainPatterns cache) with
    | Some matchDomain => blocked host resourceType ("domain:" +:+ matchDomain)
    | None =>
        match found (λ p, JS.includes url p) (urlPatterns cache) with
        | Some matchUrl => blocked host resourceType ("pattern:" +:+ matchUrl)
        | None => allow
        end
    end
  else allow.

(** The host [evaluate] derives from a request: the normalized host name of
    the lower-cased URL, empty when the URL does not parse. *)
Definition host_of (request : Request) : string :=
  match URL_new (JS.toLowerCase (url request)) with
  | Some u => normalizeDomain (JS.hostname u)
  | None => ""
  end.

End Evaluate.

(** *** Statistics kept by the interception handler *)

Record Stats := mkStats {
  s_blocked : nat;
  s_allowed : nat;
  blockedByType : gmap string nat;
  blockedByHost : LRUMap
}.

Definition initialStats : Stats := mkStats 0 0 ∅ (createLRUMap 500).

(** The bookkeeping of [handler] for one decision. *)
Definition handler_stats (decision : Decision) (stats : Stats) : Stats :=
  if negb (block decision)
  then mkStats (s_blocked stats) (s_allowed stats + 1) (blockedByType stats) (blockedByHost stats)
  else
    let hosts := match d_host decision with
                 | Some h => if JS.truthy h then (inc h (blockedByHost stats)).2
                             else blockedByHost stats
                 | None => blockedByHost stats
                 end in
    let types := match d_resourceType decision with
                 | Some t => if JS.truthy t
                             then <[t := (default 0 (blockedByType stats !! t) + 1)%nat]>
                                    (blockedByType stats)
                             else blockedByType stats
                 | None => blockedByType stats
                 end in
    mkStats (s_blocked stats + 1) (s_allowed stats) types hosts.

(** *** Notions the properties are stated with *)

Definition keys (l : LRUMap) : list string := (lmap l).*1.

(** The tracker after the hosts of [h] were counted, the latest first. *)
Fixpoint tracked (cap : nat) (h : list string) : LRUMap :=
  match h with
  | [] => createLRUMap cap
  | k :: earlier => (inc k (tracked cap earlier)).2
  end.

(** How many hosts were counted since [k] was last counted. *)
Fixpoint since (h : list string) (k : string) : nat :=
  match h with
  | [] => 0
  | x :: earlier => if bool_decide (x = k) then 0 else S (since earlier k)
  end.

(** [x] was counted longer ago than [y]. *)
Definition staler (h : list string) (x y : string) : Prop :=
  (since h y < since h x)%nat.

(** The tracker of the handler: the statistics after the decisions [ds],
    the latest first, and the hosts it counted for them. *)
Fixpoint after_decisions (ds : list Decision) : Stats :=
  match ds with
  | [] => initialStats
  | d :: earlier => handler_stats d (after_decisions earlier)
  end.

Definition counted_host (d : Decision) : option string :=
  if block d then
    match d_host d with
    | Some h => if JS.truthy h then Some h else None
    | None => None
    end
  else None.

(** *** The manager and its status *)

(** [a.sort((a, b) => b[1] - a[1])] places an entry before the entries
    with a count not above its own that follow it; the sort of the
    platform is stable, so entries with equal counts keep their order. *)
Fixpoint insert_by_count (e : string * nat) (l : list (string * nat))
    : list (string * nat) :=
  match l with
  | [] => [e]
  | y :: l' => if (y.2 <=? e.2)%nat then e :: l else y :: insert_by_count e l'
  end.

Definition sort_by_count (l : list (string * nat)) : list (string * nat) :=
  foldr insert_by_count [] l.

(** The manager: its configuration, the cache compiled from it and the
    statistics of its handler. *)
Record Manager := mkManager { m_config : Config; m_cache : Cache; m_stats : Stats }.

(** [createAdblockManager(initialConfig)], the configuration being the
    defaults overridden by [initialConfig]. *)
Definition createAdblockManager (config : Config) : Manager :=
  mkManager config (buildCache config) initialStats.

Record Status := mkStatus {
  st_enabled : bool;
  st_mode : string;
  st_blockResourceTypes : ResourceTypes;
  st_blockUrlPatterns : list string;
  st_allowlistDomains : list string;
  st_blocked : nat;
  st_allowed : nat;
  st_blockedByType : gmap string nat;
  topBlockedHosts : list (string * nat)
}.

(** Current adblock status with stats *)
Definition getStatus (m : Manager) : Status :=
  let topHosts := take 10 (sort_by_count (entries (blockedByHost (m_stats m)))) in
  mkStatus (c_enabled (m_cache m)) (c_mode (m_cache m))
    (blockResourceTypes (m_config m)) (blockUrlPatterns (m_config m))
    (allowlistDomains (m_config m))
    (s_blocked (m_stats m)) (s_allowed (m_stats m)) (blockedByType (m_stats m))
    topHosts.

Definition resetStats (m : Manager) : Status * Manager :=
  let m' := mkManager (m_config m) (m_cache m) initialStats in
  (getStatus m', m').

(** The order of [topBlockedHosts]: counts do not go up. *)
Definition by_count : relation (string * nat) := λ a b, (b.2 ≤ a.2)%nat.

End Adblock.

(** ** Session and tools (xd-chrome-core.js, xd-chrome-tools.js) *)

Module Tools.

(** A page of the browser, by identity. *)
Abbreviation Page := nat.

Record Element := mkElement {
  id : string; selector : string; role : string; name : string;
  href : option string
}.

Record Snapshot := mkSnapshot { elements : list Element; text : string }.

(** What the in-page query of [createSnapshot] captures of one visible
    node, before identifiers are assigned. *)
Record Node := mkNode {
  n_selector : string; n_role : string; n_name : string;
  n_href : option string
}.

(** The session facade of the stealth manager, as far as the tools probe
    it: whether it offers [emulateTyping] and [emulateScroll]. *)
Record StealthSession := mkSession { emulateTyping : bool; emulateScroll : bool }.

Record Config := mkConfig {
  timeout : Z;
  useCDP : bool;
  cdpEndpoint : string;
  proxy_enabled : bool;
  proxy_urls : list string;
  adblock_config : Adblock.Config;
  stealth_enabled : bool
}.

Inductive Ownership := standalone | pooled.

(** The agent context [ctx]. *)
Record Ctx := mkCtx {
  config : Config;
  browser : bool;
  page : option Page;
  pages : list Page;
  currentPageIndex : nat;
  currentUrl : string;
  lastSnapshot : option Snapshot;
  visitedUrls : list string;
  _proxyManager : option Proxy.ProxyManager;
  _proxyLaunchRaw : option string;
  _ownership : Ownership;
  adblock : option Adblock.Cache;
  stealthSession : option StealthSession
}.

Definition set_browser (v : bool) (c : Ctx) : Ctx :=
  mkCtx (config c) v (page c) (pages c) (currentPageIndex c) (currentUrl c) (lastSnapshot c) (visitedUrls c) (_proxyManager c) (_proxyLaunchRaw c) (_ownership c) (adblock c) (stealthSession c).

Definition set_page (v : option Page) (c : Ctx) : Ctx :=
  mkCtx (config c) (browser c) v (pages c) (currentPageIndex c) (currentUrl c) (lastSnapshot c) (visitedUrls c) (_proxyManager c) (_proxyLaunchRaw c) (_ownership c) (adblock c) (stealthSession c).

Definition set_pages (v : list Page) (c : Ctx) : Ctx :=
  mkCtx (config c) (browser c) (page c) v (currentPageIndex c) (currentUrl c) (lastSnapshot c) (visitedUrls c) (_proxyManager c) (_proxyLaunchRaw c) (_ownership c) (adblock c) (stealthSession c).

Definition set_currentPageIndex (v : nat) (c : Ctx) : Ctx :=
  mkCtx (config c) (browser c) (page c) (pages c) v (currentUrl c) (lastSnapshot c) (visitedUrls c) (_proxyManager c) (_proxyLaunchRaw c) (_ownership c) (adblock c) (stealthSession c).

Definition set_currentUrl (v : string) (c : Ctx) : Ctx :=
  mkCtx (config c) (browser c) (page c) (pages c) (currentPageIndex c) v (lastSnapshot c) (visitedUrls c) (_proxyManager c) (_proxyLaunchRaw c) (_ownership c) (adblock c) (stealthSession c).

Definition set_lastSnapshot (v : option Snapshot) (c : Ctx) : Ctx :=
  mkCtx (config c) (browser c) (page c) (pages c) (currentPageIndex c) (currentUrl c) v (visitedUrls c) (_proxyManager c) (_proxyLaunchRaw c) (_ownership c) (adblock c) (stealthSession c).

Definition set_visitedUrls (v : list string) (c : Ctx) : Ctx :=
  mkCtx (config c) (browser c) (page c) (pages c) (currentPageIndex c) (currentUrl c) (lastSnapshot c) v (_proxyManager c) (_proxyLaunchRaw c) (_ownership c) (adblock c) (stealthSession c).

Definition set_proxyManager (v : option Proxy.ProxyManager) (c : Ctx) : Ctx :=
  mkCtx (config c) (browser c) (page c) (pages c) (currentPageIndex c) (currentUrl c) (lastSnapshot c) (visitedUrls c) v (_proxyLaunchRaw c) (_ownership c) (adblock c) (stealthSession c).

Definition set_proxyLaunchRaw (v : option string) (c : Ctx) : Ctx :=
  mkCtx (config c) (browser c) (page c) (pages c) (currentPageIndex c) (currentUrl c) (lastSnapshot c) (visitedUrls c) (_proxyManager c) v (_ownership c) (adblock c) (stealthSession c).

Definition set_adblock (v : option Adblock.Cache) (c : Ctx) : Ctx :=
  mkCtx (config c) (browser c) (page c) (pages c) (currentPageIndex c) (currentUrl c) (lastSnapshot c) (visitedUrls c) (_proxyManager c) (_proxyLaunchRaw c) (_ownership c) v (stealthSession c).

Definition set_stealthSession (v : option StealthSession) (c : Ctx) : Ctx :=
  mkCtx (config c) (browser c) (page c) (pages c) (currentPageIndex c) (currentUrl c) (lastSnapshot c) (visitedUrls c) (_proxyManager c) (_proxyLaunchRaw c) (_ownership c) (adblock c) v.

(** [ctx.addVisitedUrl(url)] *)
Definition addVisitedUrl (url : string) (c : Ctx) : Ctx :=
  if JS.truthy url
  then set_visitedUrls (if bool_decide (url ∈ visitedUrls c) then visitedUrls c
                        else visitedUrls c ++ [url]) c
  else c.

(** The listener registered by [init] on the browser context: a page not
    yet in [ctx.pages] is pushed. *)
Definition on_page (newPage : Page) (c : Ctx) : Ctx :=
  if bool_decide (newPage ∈ pages c) then c else set_pages (pages c ++ [newPage]) c.

Definition on_pages (opened : list Page) (c : Ctx) : Ctx :=
  foldl (λ c p, on_page p c) c opened.

(** *** The environment

    Every operation of the browser engine, the stealth facade, the clock,
    the random source and the ban file is a call answered by the
    environment: it throws ([inl], with the message of the error) or
    returns, and it may report pages opened meanwhile. *)

Inductive call : Type → Type :=
| Goto (p : Page) (url : string) (timeout : Z) : call unit
| PageUrl (p : Page) : call string
| ScrollIntoViewIfNeeded (p : Page) (selector : string) : call unit
| LocatorClick (p : Page) (selector : string) : call unit
| RoleClick (p : Page) (role name : string) : call unit
| TextClick (p : Page) (name : string) : call unit
| LocatorEvaluateClick (p : Page) (selector : string) : call unit
| LocatorFill (p : Page) (selector text : string) : call unit
| RoleFill (p : Page) (name text : string) : call unit
| EvaluateSnapshot (p : Page) : call (list Node)
| EvaluateHref (p : Page) (selector : string) : call (option string)
| EvaluateScrollBottom (p : Page) : call unit
| MouseWheel (p : Page) (dy : Z) : call unit
| EmulateTyping (selector text : string) : call unit
| EmulateScroll (distance : Z) (direction : string) : call unit
| Sleep (ms : Z) : call unit
| ConnectOverCDP (endpoint : string) : call unit
| CDPPage : call Page
| Launch (proxy : option Proxy.Parsed) : call unit
| NewPage : call Page
| BrowserClose : call unit
| AdblockInstall (p : Page) : call unit
| CreateSession (p : Page) : call StealthSession
| ListenForPages (p : Page) : call unit
| DateNow : call Z
| ReadBans : call (option (option (gmap string Proxy.Ban) * Z))
| MathRandom : call (nat → nat)
| WriteBans (s : Proxy.State) : call unit.

(** A call with its outcome. *)
Inductive event : Type :=
| Ev : ∀ R : Type, call R → (string + R)%type → event.

Arguments Ev {R} c r.

(** What a tool returns. *)
Inductive ToolResult :=
| RNavigate (url snapshot : string) (elementCount : nat)
| RSnapshot (elementCount : nat) (snapshot : string)
| RClick (clicked : string) (newTabOpened : bool) (url : string)
| RFill (uid : string) (textLength : nat)
| ROpenLink (url : string)
| RScroll (direction : string).

Definition newline : string := String (ascii_of_nat 10) EmptyString.

Fixpoint join (sep : string) (l : list string) : string :=
  match l with
  | [] => ""
  | [x] => x
  | x :: rest => x +:+ sep +:+ join sep rest
  end.

(** The record built for the node at index [idx]. *)
Definition element_of (idx : nat) (n : Node) : Element :=
  mkElement ("el_" +:+ pretty idx) (n_selector n) (n_role n) (n_name n)
            (match n_href n with
             | Some h => if JS.truthy h then Some h else None
             | None => None
             end).

Definition snapshot_line (el : Element) : string :=
  JS.trim (id el +:+ " [" +:+ role el +:+ "] " +:+ name el).

Definition snapshot_of (verbose : bool) (nodes : list Node) : Snapshot :=
  let elements := imap element_of (take (if verbose then 300 else 120)%nat nodes) in
  mkSnapshot elements (join newline (snapshot_line <$> elements)).

(** [ctx.lastSnapshot?.elements?.find(el => el.id === uid)] *)
Fixpoint find_id (uid : string) (els : list Element) : option Element :=
  match els with
  | [] => None
  | el :: rest => if bool_decide (id el = uid) then Some el else find_id uid rest
  end.

Definition find_element (c : Ctx) (uid : string) : option Element :=
  match lastSnapshot c with
  | Some s => find_id uid (elements s)
  | None => None
  end.

(** [ctx.config.browser.timeout || 30000] *)
Definition timeout_of (c : Ctx) : Z :=
  if (timeout (config c) =? 0)%Z then 30000%Z else timeout (config c).

(** *** Running against an environment *)

Section Session.

Context {World : Type}.

(** The environment's answer to a call: the outcome, the pages opened
    meanwhile, and the environment afterwards. *)
Variable perform : ∀ R : Type, call R → World → (string + R) * list Page * World.

(** [new URL(s)], [decodeURIComponent(s)] and [new URL(href, base).toString()]
    of the platform; [None] when they throw. *)
Variable URL_new : string → option JS.URL.
Variable decodeURIComponent : string → option string.
Variable URL_resolve : string → string → option string.

(** A computation on the context: it throws or returns, changes the
    context and the environment, and leaves the calls it made. *)
Definition M (A : Type) : Type :=
  Ctx → World → (string + A) * Ctx * World * list event.

Definition ret {A : Type} (a : A) : M A := λ c w, (inr a, c, w, []).

Definition throw {A : Type} (msg : string) : M A := λ c w, (inl msg, c, w, []).

Definition bind {A B : Type} (m : M A) (f : A → M B) : M B := λ c w,
  let '(r, c1, w1, t1) := m c w in
  match r with
  | inl e => (inl e, c1, w1, t1)
  | inr a => let '(r2, c2, w2, t2) := f a c1 w1 in (r2, c2, w2, t1 ++ t2)
  end.

(** [try { m } catch (e) { h(e) }] *)
Definition try_catch {A : Type} (m : M A) (h : string → M A) : M A := λ c w,
  let '(r, c1, w1, t1) := m c w in
  match r with
  | inr a => (inr a, c1, w1, t1)
  | inl e => let '(r2, c2, w2, t2) := h e c1 w1 in (r2, c2, w2, t1 ++ t2)
  end.

Definition gets {A : Type} (f : Ctx → A) : M A := λ c w, (inr (f c), c, w, []).

Definition modify (f : Ctx → Ctx) : M unit := λ c w, (inr tt, f c, w, []).

(** One call: the listener for new pages runs while it is awaited. *)
Definition do_call {R : Type} (c : call R) : M R := λ ctx w,
  let '(r, opened, w') := perform R c w in
  (r, on_pages opened ctx, w', [Ev c r]).

Notation "x <- m ;; k" := (bind m (λ x, k))
  (at level 100, m at next level, right associativity).
Notation "m ;;; k" := (bind m (λ _, k))
  (at level 100, right associativity).

(** [try { m } catch {}] *)
Definition attempt (m : M unit) : M unit := try_catch m (λ _, ret tt).

(** [ctx.page], a [TypeError] when it is null and [prop] is read off it. *)
Definition the_page (prop : string) : M Page :=
  p <- gets page ;;
  match p with
  | Some p => ret p
  | None => throw ("Cannot read properties of null (reading '" +:+ prop +:+ "')")
  end.

(** [createSnapshot(page, verbose)] *)
Definition createSnapshot (p : Page) (verbose : bool) : M Snapshot :=
  nodes <- do_call (EvaluateSnapshot p) ;;
  ret (snapshot_of verbose nodes).

(** **** xd-chrome-core.js *)

(** The proxy branch of [init]: a new manager, its first endpoint. *)
Definition setup_proxy : M (option Proxy.Parsed) :=
  urls <- gets (λ c, proxy_urls (config c)) ;;
  disk <- try_catch (do_call ReadBans) (λ _, ret None) ;;
  now <- do_call DateNow ;;
  rnd <- do_call MathRandom ;;
  let pm := Proxy.constructor urls disk now rnd in
  now' <- do_call DateNow ;;
  let '(proxy, pm') := Proxy.getNextProxy URL_new decodeURIComponent pm now' in
  modify (set_proxyManager (Some pm')) ;;;
  match proxy with
  | Some pr => modify (set_proxyLaunchRaw (Some (Proxy.raw pr))) ;;; ret (Some pr)
  | None => ret None
  end.

(** [ctx.init()] *)
Definition init : M unit :=
  cfg <- gets config ;;
  p <- (if useCDP cfg then
          do_call (ConnectOverCDP (if JS.truthy (cdpEndpoint cfg)
                                   then cdpEndpoint cfg
                                   else "http://localhost:9222")) ;;;
          modify (set_browser true) ;;;
          do_call CDPPage
        else
          proxy <- (if proxy_enabled cfg then setup_proxy else ret None) ;;
          do_call (Launch proxy) ;;;
          modify (set_browser true) ;;;
          do_call NewPage) ;;
  modify (set_page (Some p)) ;;;
  modify (set_pages [p]) ;;;
  modify (set_currentPageIndex 0) ;;;
  u <- do_call (PageUrl p) ;;
  modify (set_currentUrl u) ;;;
  modify (set_adblock (Some (Adblock.buildCache (adblock_config cfg)))) ;;;
  do_call (AdblockInstall p) ;;;
  (if stealth_enabled cfg
   then s <- do_call (CreateSession p) ;; modify (set_stealthSession (Some s))
   else ret tt) ;;;
  do_call (ListenForPages p).

(** [ctx.close()] *)
Definition close : M unit :=
  own <- gets _ownership ;;
  match own with
  | pooled => modify (set_page None) ;;; modify (set_pages [])
  | standalone =>
      b <- gets browser ;;
      (if b then do_call BrowserClose else ret tt) ;;;
      modify (set_browser false) ;;;
      modify (set_page None) ;;;
      modify (set_pages [])
  end.

(** [ctx.rotateBrowser()] *)
Definition rotateBrowser : M bool :=
  pm <- gets _proxyManager ;;
  match pm with
  | None => ret false
  | Some pm =>
      launched <- gets _proxyLaunchRaw ;;
      (if JS.truthy_opt launched then
         now <- do_call DateNow ;;
         let '(was_banned, pm') := Proxy.reportFailure pm (default "" launched) now in
         modify (set_proxyManager (Some pm')) ;;;
         (if was_banned then attempt (do_call (WriteBans (Proxy._state pm'))) else ret tt)
       else ret tt) ;;;
      close ;;;
      init ;;;
      ret true
  end.

(** [ctx.switchToTab(index)] for a numeric index. *)
Definition switchToTab (index : nat) : M bool :=
  ps <- gets pages ;;
  match ps !! index with
  | None => ret false
  | Some p =>
      modify (set_page (Some p)) ;;;
      modify (set_currentPageIndex index) ;;;
      u <- do_call (PageUrl p) ;;
      modify (set_currentUrl u) ;;;
      ret true
  end.

(** **** xd-chrome-tools.js *)

Definition TUNNEL_FAILED : string := "ERR_TUNNEL_CONNECTION_FAILED".

(** [ctx.currentUrl = ctx.page.url(); ctx.addVisitedUrl(ctx.currentUrl)] *)
Definition record_url : M string :=
  p <- the_page "url" ;;
  u <- do_call (PageUrl p) ;;
  modify (set_currentUrl u) ;;;
  modify (addVisitedUrl u) ;;;
  ret u.

(** The guarded navigation of [navigate]: [attemptGoto], and on a tunnel
    failure one rotation and one more [attemptGoto]. Every context has the
    method [rotateBrowser], so the test [ctx.rotateBrowser] holds. *)
Definition goto_with_retry (targetUrl : string) (timeout : Z) : M unit :=
  let attemptGoto : M unit :=
    p <- the_page "goto" ;; do_call (Goto p targetUrl timeout) in
  try_catch attemptGoto (λ msg,
    if JS.includes msg TUNNEL_FAILED then
      rotated <- rotateBrowser ;;
      if rotated then attemptGoto else throw msg
    else throw msg).

(** What [navigate] does once the page is loaded. *)
Definition after_navigation : M ToolResult :=
  do_call (Sleep 500) ;;;
  url <- record_url ;;
  pm <- gets _proxyManager ;;
  launched <- gets _proxyLaunchRaw ;;
  match pm with
  | Some pm =>
      if JS.truthy_opt launched
      then modify (set_proxyManager (Some (Proxy.reportSuccess pm (default "" launched))))
      else ret tt
  | None => ret tt
  end ;;;
  (* Auto-snapshot after navigation *)
  p <- the_page "evaluate" ;;
  snap <- createSnapshot p false ;;
  modify (set_lastSnapshot (Some snap)) ;;;
  ret (RNavigate url (text snap) (length (elements snap))).

(** Navigate to URL with tunnel-fail retry and auto-snapshot. *)
Definition navigate (targetUrl : string) : M ToolResult :=
  p0 <- gets page ;;
  (if bool_decide (p0 = None) then init else ret tt) ;;;
  timeout <- gets timeout_of ;;
  goto_with_retry targetUrl timeout ;;;
  after_navigation.

(** Take DOM snapshot of interactive elements. *)
Definition snapshot (verbose : bool) : M ToolResult :=
  p <- the_page "evaluate" ;;
  snap <- createSnapshot p verbose ;;
  modify (set_lastSnapshot (Some snap)) ;;;
  ret (RSnapshot (length (elements snap)) (text snap)).

Definition not_found {A : Type} (uid : string) : M A :=
  throw ("Element not found in snapshot: " +:+ uid).

(** The strategies of [click], from the primary selector to the script
    click; [p] is the page [locator] was taken from. *)
Definition click_strategies (p : Page) (item : Element) (uid : string) : M unit :=
  try_catch
    (attempt (do_call (ScrollIntoViewIfNeeded p (selector item))) ;;;
     do_call (LocatorClick p (selector item)))
    (λ _,
      clicked <- (if JS.truthy (role item) && JS.truthy (name item)
                  then try_catch (do_call (RoleClick p (role item) (name item)) ;;; ret true)
                                 (λ _, ret false)
                  else ret false) ;;
      clicked <- (if negb clicked && JS.truthy (name item)
                  then try_catch (do_call (TextClick p (name item)) ;;; ret true)
                                 (λ _, ret false)
                  else ret clicked) ;;
      if negb clicked
      then try_catch (do_call (LocatorEvaluateClick p (selector item)))
             (λ err, throw ("All click strategies failed for " +:+ uid +:+ ": " +:+ err))
      else ret tt).

(** The fallback of [click] for a link whose click left the URL as it was. *)
Definition click_href_fallback (item : Element) : M unit :=
  attempt (
    p <- the_page "url" ;;
    base <- do_call (PageUrl p) ;;
    match URL_resolve (default "" (href item)) base with
    | None => throw "Invalid URL"
    | Some resolved =>
        timeout <- gets timeout_of ;;
        p <- the_page "goto" ;;
        do_call (Goto p resolved timeout) ;;;
        do_call (Sleep 400) ;;;
        record_url ;;;
        ret tt
    end).

(** What [click] does once the element is clicked. *)
Definition click_after (item : Element) (uid urlBefore : string) (tabsBefore : nat)
    : M ToolResult :=
  do_call (Sleep 500) ;;;
  (* Handle new tab auto-switch *)
  tabsAfter <- gets (λ c, length (pages c)) ;;
  let newTabOpened := bool_decide (tabsBefore < tabsAfter)%nat in
  (if newTabOpened then switchToTab (tabsAfter - 1) ;;; ret tt else ret tt) ;;;
  url <- record_url ;;
  (* If URL didn't change and element is a link, fallback to direct navigation *)
  (if bool_decide (url = urlBefore) && bool_decide (role item = "link")
      && JS.truthy_opt (href item)
   then click_href_fallback item else ret tt) ;;;
  modify (set_lastSnapshot None) ;;;
  url <- gets currentUrl ;;
  ret (RClick uid newTabOpened url).

(** Click element with multi-strategy fallback (selector, role, text, JS click). *)
Definition click (uid : string) : M ToolResult :=
  found <- gets (λ c, find_element c uid) ;;
  match found with
  | None => not_found uid
  | Some item =>
      p <- the_page "url" ;;
      urlBefore <- do_call (PageUrl p) ;;
      tabsBefore <- gets (λ c, length (pages c)) ;;
      click_strategies p item uid ;;;
      click_after item uid urlBefore tabsBefore
  end.

(** Fill input with optional stealth typing emulation. *)
Definition fill (uid text : string) : M ToolResult :=
  found <- gets (λ c, find_element c uid) ;;
  match found with
  | None => not_found uid
  | Some item =>
      session <- gets stealthSession ;;
      (if match session with Some s => emulateTyping s | None => false end
       then do_call (EmulateTyping (selector item) text)
       else
         p <- the_page (if JS.truthy (selector item) then "locator" else "getByRole") ;;
         if JS.truthy (selector item)
         then do_call (LocatorFill p (selector item) text)
         else do_call (RoleFill p (name item) text)) ;;;
      ret (RFill uid (String.length text))
  end.

(** The link target [openLink] works with: the captured one, else the one
    found in the DOM, [el?.href || el?.getAttribute('href') || null]. *)
Definition lookup_href (item : Element) : M (option string) :=
  if JS.truthy_opt (href item) then ret (href item)
  else p <- the_page "evaluate" ;;
       do_call (EvaluateHref p (selector item)).

(** Open link by resolving href and navigating directly. *)
Definition openLink (uid : string) : M ToolResult :=
  found <- gets (λ c, find_element c uid) ;;
  match found with
  | None => not_found uid
  | Some item =>
      href <- lookup_href item ;;
      if negb (JS.truthy_opt href)
      then throw ("Element has no href: " +:+ uid)
      else if JS.startsWith (default "" href) "javascript:"
      then throw "Cannot navigate to javascript: href"
      else
        p <- the_page "url" ;;
        base <- do_call (PageUrl p) ;;
        match URL_resolve (default "" href) base with
        | None => throw "Invalid URL"
        | Some resolved =>
            timeout <- gets timeout_of ;;
            p <- the_page "goto" ;;
            do_call (Goto p resolved timeout) ;;;
            do_call (Sleep 400) ;;;
            url <- record_url ;;
            ret (ROpenLink url)
        end
  end.

(** Scroll page with optional stealth emulation; [direction] and
    [distance] are the parameters after their defaults. *)
Definition scroll (direction : string) (distance : Z) : M ToolResult :=
  let direction := if JS.truthy direction then direction else "down" in
  let distance := if (distance =? 0)%Z then 500%Z else distance in
  session <- gets stealthSession ;;
  (if bool_decide (direction = "bottom")
   then p <- the_page "evaluate" ;; do_call (EvaluateScrollBottom p)
   else if match session with Some s => emulateScroll s | None => false end
   then do_call (EmulateScroll distance direction)
   else p <- the_page "mouse" ;;
        do_call (MouseWheel p (if bool_decide (direction = "up") then - distance else distance))) ;;;
  do_call (Sleep 300) ;;;
  modify (set_lastSnapshot None) ;;;
  ret (RScroll direction).

End Session.

(** *** Notions the properties are stated with *)

(** The calls that navigate a page. *)
Definition is_goto (e : event) : bool :=
  match e with
  | Ev c _ => match c with Goto _ _ _ => true | _ => false end
  end.

Definition no_goto (t : list event) : Prop := Forall (λ e, is_goto e = false) t.

(** The click attempts of [click]. *)
Definition is_click (e : event) : bool :=
  match e with
  | Ev c _ =>
      match c with
      | LocatorClick _ _ | RoleClick _ _ _ | TextClick _ _
      | LocatorEvaluateClick _ _ => true
      | _ => false
      end
  end.

(** The call threw. *)
Definition failed (e : event) : bool :=
  match e with
  | Ev _ (inl _) => true
  | Ev _ (inr _) => false
  end.

(** A call without its outcome. *)
Definition acall : Type := {R : Type & call R}.

Definition call_of (e : event) : acall :=
  match e with Ev c _ => existT _ c end.

(** The strategies [click] has for an element, in the declared order:
    the captured selector, role and label when both are present, the label
    as text when present, the script-level click. *)
Definition strategies (p : Page) (item : Element) : list acall :=
  [existT _ (LocatorClick p (selector item))] ++
  (if JS.truthy (role item) && JS.truthy (name item)
   then [existT _ (RoleClick p (role item) (name item))] else []) ++
  (if JS.truthy (name item) then [existT _ (TextClick p (name item))] else []) ++
  [existT _ (LocatorEvaluateClick p (selector item))].

(** No call of the computation satisfies [P]. *)
Definition silent {World A : Type} (P : event → bool) (m : @M World A) : Prop :=
  ∀ (c : Ctx) (w : World), Forall (λ e, P e = false) (m c w).2.

(** The computation leaves the field [f] of the context as it is. *)
Definition preserves {World A B : Type} (f : Ctx → B) (m : @M World A) : Prop :=
  ∀ (c : Ctx) (w : World), f (m c w).1.1.2 = f c.

(** From a context satisfying [P] the computation returns in a context
    satisfying [Q], or throws in one satisfying [E]. *)
Definition triple {World A : Type} (P : Ctx → Prop) (m : @M World A)
    (Q : A → Ctx → Prop) (E : Ctx → Prop) : Prop :=
  ∀ (c : Ctx) (w : World), P c →
    match (m c w).1.1.1 with
    | inr a => Q a (m c w).1.1.2
    | inl _ => E (m c w).1.1.2
    end.

(** The computation keeps [I], whether it returns or throws. *)
Definition keeps {World A : Type} (I : Ctx → Prop) (m : @M World A) : Prop :=
  triple I m (λ _, I) I.

(** Whenever the session has a current page, it is the tab at the
    current index. *)
Definition tab_pointer_valid (c : Ctx) : Prop :=
  ∀ p, page c = Some p → pages c !! currentPageIndex c = Some p.

(** The visited history of [c'] continues the one of [c]: nothing is
    removed or reordered, no duplicate and no empty URL comes in. *)
Definition history_grows (c c' : Ctx) : Prop :=
  visitedUrls c `prefix_of` visitedUrls c' ∧
  (NoDup (visitedUrls c) → NoDup (visitedUrls c')) ∧
  ("" ∉ visitedUrls c → "" ∉ visitedUrls c').

(** The calls that write the ban file. *)
Definition is_write_bans (e : event) : bool :=
  match e with
  | Ev c _ => match c with WriteBans _ => true | _ => false end
  end.

End Tools.

(** ** A scripted browser

    An environment for running the tools on concrete inputs: it shows one
    document, fails the navigations and clicks it is told to fail, and
    answers every other call without an error. *)

Module Script.
Import Tools.

Record Browser := mkBrowser {
  location : string;
  nodes : list Node;
  goto_errors : list string;
  failing_clicks : nat;
  live_href : option string;
  next_nodes : option (list Node)
}.

Definition ok {R : Type} (r : R) (b : Browser) : (string + R) * list Page * Browser :=
  (inr r, [], b).

(** A click fails while [failing_clicks] is not used up. *)
Definition one_click (b : Browser) : (string + unit) * list Page * Browser :=
  match failing_clicks b with
  | O => (inr tt, [], b)
  | S n => (inl "Timeout 5000ms exceeded", [],
            mkBrowser (location b) (nodes b) (goto_errors b) n (live_href b)
                      (next_nodes b))
  end.

(** A navigation fails with the next of [goto_errors], if any; else it
    shows the document of [next_nodes], if any. *)
Definition one_goto (url : string) (b : Browser) : (string + unit) * list Page * Browser :=
  match goto_errors b with
  | e :: rest =>
      (inl e, [], mkBrowser (location b) (nodes b) rest (failing_clicks b)
                            (live_href b) (next_nodes b))
  | [] =>
      (inr tt, [], mkBrowser url (default (nodes b) (next_nodes b)) []
                             (failing_clicks b) (live_href b) None)
  end.

(** Filling a field shows the document of [next_nodes], if any. *)
Definition one_fill (b : Browser) : (string + unit) * list Page * Browser :=
  match next_nodes b with
  | Some l =>
      (inr tt, [], mkBrowser (location b) l (goto_errors b) (failing_clicks b)
                             (live_href b) None)
  | None => (inr tt, [], b)
  end.

Definition answer (R : Type) (c : call R) : Browser → (string + R) * list Page * Browser :=
  match c in call R return Browser → (string + R) * list Page * Browser with
  | Goto _ url _ => one_goto url
  | PageUrl _ => λ b, ok (location b) b
  | ScrollIntoViewIfNeeded _ _ => ok tt
  | LocatorClick _ _ => one_click
  | RoleClick _ _ _ => one_click
  | TextClick _ _ => one_click
  | LocatorEvaluateClick _ _ => one_click
  | LocatorFill _ _ _ => one_fill
  | RoleFill _ _ _ => one_fill
  | EvaluateSnapshot _ => λ b, ok (nodes b) b
  | EvaluateHref _ _ => λ b, ok (live_href b) b
  | EvaluateScrollBottom _ => ok tt
  | MouseWheel _ _ => ok tt
  | EmulateTyping _ _ => one_fill
  | EmulateScroll _ _ => ok tt
  | Sleep _ => ok tt
  | ConnectOverCDP _ => ok tt
  | CDPPage => ok 0%nat
  | Launch _ => ok tt
  | NewPage => ok 0%nat
  | BrowserClose => ok tt
  | AdblockInstall _ => ok tt
  | CreateSession _ => ok (mkSession false false)
  | ListenForPages _ => ok tt
  | DateNow => ok 0%Z
  | ReadBans => ok None
  | MathRandom => ok (λ _, 0%nat)
  | WriteBans _ => ok tt
  end.

(** The scripted platform: a component without an escape decodes to
    itself, any other is refused; a link target resolves to itself. *)
Definition decode_plain (s : string) : option string :=
  if JS.includes s "%" then None else Some s.

Definition resolve_plain (href base : string) : option string := Some href.

(** A form: a text box, a button and a link. *)
Definition form : list Node :=
  [mkNode "#q" "textbox" "Search" None;
   mkNode "#go" "button" "Go" None;
   mkNode "a.more" "link" "More" (Some "javascript:void(0)")].

(** The form once typing has opened a list of suggestions above it. *)
Definition form_with_suggestions : list Node :=
  [mkNode "#s1" "link" "Suggestion" (Some "/s1");
   mkNode "#s2" "link" "Other" (Some "/s2");
   mkNode "#q" "textbox" "Search" None;
   mkNode "#go" "button" "Go" None].

Definition config : Config :=
  mkConfig 30000 false "" false [] Adblock.defaultConfig false.

(** A session on an open page showing the form, its snapshot taken. *)
Definition session : Ctx :=
  mkCtx config true (Some 0%nat) [0%nat] 0 "https://example.com/"
        (Some (snapshot_of false form)) ["about:blank"; "https://example.com/"]
        None None standalone None None.

Definition browser : Browser :=
  mkBrowser "https://example.com/" form [] 0 None None.

(** The same with a pool of two proxies, launched through the second. *)
Definition proxies : list string := ["http://h1:8080"; "http://h2:8080"].

Definition proxied_session : Ctx :=
  mkCtx (mkConfig 30000 false "" true proxies Adblock.defaultConfig false)
        true (Some 0%nat) [0%nat] 0 "https://example.com/"
        (Some (snapshot_of false form)) ["about:blank"; "https://example.com/"]
        (Some (Proxy.constructor proxies None 0 (λ _, 0%nat)))
        (Some "http://h2:8080") standalone None None.

Definition TUNNEL_ERROR : string :=
  "page.goto: net::ERR_TUNNEL_CONNECTION_FAILED at https://example.org/".

(** A browser whose next navigation fails in the proxy tunnel. *)
Definition tunnel_browser : Browser :=
  mkBrowser "https://example.com/" form [TUNNEL_ERROR] 0 None None.

(** A browser in which typing opens the suggestions. *)
Definition suggesting_browser : Browser :=
  mkBrowser "https://example.com/" form [] 0 None (Some form_with_suggestions).

(** Another page: a link and a button. *)
Definition shop : list Node :=
  [mkNode "#home" "link" "Home" (Some "/");
   mkNode "#buy" "button" "Buy" None].

(** A browser whose next navigation reaches the shop. *)
Definition shop_browser : Browser :=
  mkBrowser "https://example.com/" form [] 0 None (Some shop).

(** A browser in which only the script-level click gets through. *)
Definition stubborn_browser : Browser :=
  mkBrowser "https://example.com/" form [] 3 None None.

(** A pool with two failures on record for its first endpoint. *)
Definition flaky_pool : Proxy.ProxyManager :=
  Proxy.mkPM proxies 0 (Some "http://h1:8080")
             {["http://h1:8080" := [1000; 2000]%Z]} (Proxy.mkState ∅ 0).

(** An aggressive filter with one allowlisted domain. *)
Definition allowlisting : Adblock.Cache :=
  Adblock.buildCache
    (Adblock.mkConfig true "aggressive" (Adblock.mkTypes ["media"] ["image"; "media"; "font"])
       ["doubleclick.net"; "/ads/"] ["*.Example.com"] 25).

(** A configuration with two proxies, one of which is not a URL; the pool
    built from it with nothing on disk, the draw of the shuffle being 0;
    and a session created with it, not yet initialised. *)
Definition mixed_urls : list string := ["not a proxy"; "http://h1:8080"].

Definition mixed_pool : Proxy.ProxyManager :=
  Proxy.constructor mixed_urls None 0 (λ _, 0%nat).

Definition mixed_session : Ctx :=
  mkCtx (mkConfig 30000 false "" true mixed_urls Adblock.defaultConfig false)
        false None [] 0 "about:blank" None ["about:blank"]
        None None standalone None None.

End Script.

(** * Properties *)

(** ** Properties of the proxy pool *)

Module ProxyFacts.
Import Proxy.

Lemma truthy_nonempty (s : string) : s ≠ "" → JS.truthy s = true.
Proof.
  intros Hs. unfold JS.truthy. by rewrite bool_decide_eq_false_2.
Qed.

Lemma truthy_true_iff (s : string) : JS.truthy s = true ↔ s ≠ "".
Proof.
  unfold JS.truthy. rewrite negb_true_iff, bool_decide_eq_false. done.
Qed.

Lemma windowed_keeps_now p url now : now ∈ windowed p url now.
Proof.
  unfold windowed. apply list_elem_of_filter. split.
  - unfold FAIL_WINDOW_MS. lia.
  - apply elem_of_app. right. by apply list_elem_of_singleton.
Qed.

Lemma windowed_length_le p url now :
  failures_below_threshold p → (length (windowed p url now) ≤ FAIL_THRESHOLD)%nat.
Proof.
  intros Hinv. unfold windowed.
  etransitivity; [apply length_filter|].
  rewrite length_app. simpl.
  destruct (_failures p !! url) as [l|] eqn:E; simpl.
  - specialize (Hinv _ _ E). lia.
  - unfold FAIL_THRESHOLD. lia.
Qed.

Lemma constructor_failures_below cfg disk now rnd :
  failures_below_threshold (constructor cfg disk now rnd).
Proof. intros u l. simpl. by rewrite lookup_empty. Qed.

Lemma reportFailure_keeps_below p url now :
  failures_below_threshold p →
  failures_below_threshold (reportFailure p url now).2.
Proof.
  intros Hinv u l. unfold reportFailure.
  destruct (JS.truthy url); simpl; [|apply Hinv].
  case_bool_decide as Hlen; simpl.
  - rewrite lookup_insert. case_decide; [|apply Hinv].
    intros [= <-]. exact Hlen.
  - rewrite lookup_delete. case_decide; [done|apply Hinv].
Qed.

Lemma reportSuccess_keeps_below p url :
  failures_below_threshold p →
  failures_below_threshold (reportSuccess p url).
Proof.
  intros Hinv u l. unfold reportSuccess.
  destruct (JS.truthy url); simpl; [|apply Hinv].
  rewrite lookup_delete. case_decide; [done|apply Hinv].
Qed.

Lemma isBanned_fresh_ban (t now : Z) (url : string) (b : gmap string Ban) (n : nat) :
  (_isBanned t url (<[url := mkBan now (now + BAN_DURATION_MS) n]> b)).1
  = bool_decide (t < now + BAN_DURATION_MS)%Z.
Proof.
  unfold _isBanned. rewrite lookup_insert_eq. simpl.
  destruct (Z.leb_spec (now + BAN_DURATION_MS) t); simpl; symmetry.
  - apply bool_decide_eq_false. lia.
  - apply bool_decide_eq_true. lia.
Qed.

(** C1. For a proxy endpoint (a non-empty address) [reportFailure] creates a
    ban exactly when the failure stamps inside the one-hour window, the new
    one included, reach the threshold 3; no stored history reaches it, so
    they are then exactly 3. The ban runs from [now] to [now] + 12 hours,
    [_isBanned] answers true for exactly that long, and the failure history
    of the endpoint is removed. Below the threshold no ban is created and
    the pruned history is stored. [reportSuccess] removes the history, so
    the next failure counts as the first. *)
Theorem reportFailure_bans_at_threshold
    (p : ProxyManager) (url : string) (now : Z) :
  url ≠ "" →
  let recent := windowed p url now in
  let res := (reportFailure p url now).1 in
  let p' := (reportFailure p url now).2 in
  (res = true ↔ (3 ≤ length recent)%nat) ∧
  (res = false ↔ (length recent < 3)%nat) ∧
  (failures_below_threshold p →
     (length recent ≤ 3)%nat ∧ failures_below_threshold p') ∧
  (res = true →
     banned (_state p') !! url
       = Some (mkBan now (now + 12 * 60 * 60 * 1000) (length recent)) ∧
     (∀ t, (_isBanned t url (banned (_state p'))).1
           = bool_decide (t < now + 12 * 60 * 60 * 1000)%Z) ∧
     (∀ u, u ≠ url → banned (_state p') !! u = banned (_state p) !! u) ∧
     _failures p' !! url = None) ∧
  (res = false →
     banned (_state p') = banned (_state p) ∧
     _failures p' !! url = Some recent) ∧
  _failures (reportSuccess p url) !! url = None ∧
  (∀ t, windowed (reportSuccess p url) url t = [t]).
Proof.
  intros Hne recent res p'.
  assert (Hres : res = negb (bool_decide (length recent < 3)%nat)).
  { subst res. unfold reportFailure. rewrite (truthy_nonempty _ Hne). simpl.
    fold (windowed p url now). fold recent. unfold FAIL_THRESHOLD.
    by case_bool_decide. }
  split; [|split; [|split; [|split; [|split; [|split]]]]].
  - rewrite Hres. case_bool_decide; simpl; split; (done || lia).
  - rewrite Hres. case_bool_decide; simpl; split; (done || lia).
  - intros Hinv. split; [by apply windowed_length_le|].
    by apply reportFailure_keeps_below.
  - intros Ht. rewrite Hres in Ht. apply negb_true_iff in Ht.
    apply bool_decide_eq_false in Ht.
    subst p'. unfold reportFailure. rewrite (truthy_nonempty _ Hne). simpl.
    fold (windowed p url now). fold recent. unfold FAIL_THRESHOLD.
    rewrite bool_decide_eq_false_2 by lia. simpl.
    split; [by rewrite lookup_insert_eq|].
    split; [intros t; apply isBanned_fresh_ban|].
    split; [intros u Hu; by rewrite lookup_insert_ne|].
    by rewrite lookup_delete_eq.
  - intros Hf. rewrite Hres in Hf. apply negb_false_iff in Hf.
    apply bool_decide_eq_true in Hf.
    subst p'. unfold reportFailure. rewrite (truthy_nonempty _ Hne). simpl.
    fold (windowed p url now). fold recent. unfold FAIL_THRESHOLD.
    rewrite bool_decide_eq_true_2 by lia. simpl.
    split; [done|]. by rewrite lookup_insert_eq.
  - unfold reportSuccess. rewrite (truthy_nonempty _ Hne). simpl.
    by rewrite lookup_delete_eq.
  - intros t. unfold windowed, reportSuccess.
    rewrite (truthy_nonempty _ Hne). simpl. rewrite lookup_delete_eq. simpl.
    rewrite filter_cons_True; [done|]. unfold FAIL_WINDOW_MS. lia.
Qed.

(** *** Selection *)

Lemma isBanned_answer now u b : (_isBanned now u b).1 = currently_banned now b u.
Proof.
  unfold _isBanned, currently_banned. destruct (b !! u) as [ban|]; [|done].
  destruct (Z.leb_spec (expiresAt ban) now); simpl; symmetry.
  - apply bool_decide_eq_false. lia.
  - apply bool_decide_eq_true. lia.
Qed.

Lemma isBanned_purge now u b v :
  currently_banned now (_isBanned now u b).2 v = currently_banned now b v.
Proof.
  unfold _isBanned. destruct (b !! u) as [ban|] eqn:E; [|done].
  destruct (Z.leb_spec (expiresAt ban) now); [|done]. simpl.
  unfold currently_banned. rewrite lookup_delete. case_decide; [|done].
  subst v. rewrite E. symmetry. apply bool_decide_eq_false. lia.
Qed.

Lemma filter_available_purge now urls b v :
  currently_banned now (filter_available now urls b).2 v = currently_banned now b v.
Proof.
  revert b. induction urls as [|u rest IH]; intros b; [done|]. simpl.
  destruct (_isBanned now u b) as [isb b1] eqn:E1.
  destruct (filter_available now rest b1) as [av b2] eqn:E2. simpl.
  replace b2 with (filter_available now rest b1).2 by (by rewrite E2).
  rewrite IH. replace b1 with (_isBanned now u b).2 by (by rewrite E1).
  apply isBanned_purge.
Qed.

Lemma filter_available_list now urls b :
  (filter_available now urls b).1
  = filter (λ u, currently_banned now b u = false) urls.
Proof.
  revert b. induction urls as [|u rest IH]; intros b; [done|]. simpl.
  pose proof (isBanned_answer now u b) as Ha.
  destruct (_isBanned now u b) as [isb b1] eqn:E1. simpl in Ha.
  specialize (IH b1).
  destruct (filter_available now rest b1) as [av b2] eqn:E2. simpl in *.
  assert (Hsame : filter (λ u0, currently_banned now b1 u0 = false) rest
                  = filter (λ u0, currently_banned now b u0 = false) rest).
  { apply list_filter_iff. intros v.
    replace b1 with (_isBanned now u b).2 by (by rewrite E1).
    by rewrite isBanned_purge. }
  rewrite Hsame in IH. subst av.
  destruct isb.
  - rewrite filter_cons_False; [done|]. rewrite <- Ha. done.
  - rewrite filter_cons_True; [done|]. by rewrite <- Ha.
Qed.

Section Selection.

Variable URL_new : string → option JS.URL.
Variable decodeURIComponent : string → option string.

Abbreviation getNextProxy := (Proxy.getNextProxy URL_new decodeURIComponent).
Abbreviation _parseProxy := (Proxy._parseProxy URL_new decodeURIComponent).

Lemma parseProxy_raw r pr : _parseProxy r = Some pr → raw pr = r.
Proof.
  unfold Proxy._parseProxy. destruct (URL_new r); [|done].
  destruct (decodeURIComponent _); [|done].
  destruct (decodeURIComponent _); [|done]. by intros [= <-].
Qed.

Lemma getNextProxy_unfold p now :
  let av := filter (λ u, currently_banned now (banned (_state p)) u = false)
                   (_allUrls p) in
  (av = [] → (getNextProxy p now).1 = None) ∧
  (av ≠ [] → ∃ c, selected p now = Some c ∧ c ∈ av ∧
              (getNextProxy p now).1 = _parseProxy c ∧
              _current (getNextProxy p now).2 = Some c ∧
              _index (getNextProxy p now).2 = ((_index p + 1) mod length av)%nat) ∧
  (∀ v, currently_banned now (banned (_state (getNextProxy p now).2)) v
        = currently_banned now (banned (_state p)) v).
Proof.
  intros av. unfold Proxy.getNextProxy.
  pose proof (filter_available_list now (_allUrls p) (banned (_state p))) as Hl.
  pose proof (filter_available_purge now (_allUrls p) (banned (_state p))) as Hp.
  destruct (filter_available now (_allUrls p) (banned (_state p))) as [av' b] eqn:E.
  simpl in Hl, Hp. fold av in Hl. subst av'.
  destruct av as [|a av0] eqn:Eav.
  - split; [done|]. split; [done|]. intros v. simpl. apply Hp.
  - split; [done|]. split; [|intros v; simpl; apply Hp].
    intros _.
    assert (Hlt : ((_index p + 1) mod length (a :: av0) < length (a :: av0))%nat).
    { apply Nat.mod_upper_bound. simpl. lia. }
    destruct (lookup_lt_is_Some_2 _ _ Hlt) as [c Hc].
    exists c. unfold selected. fold av. rewrite Eav.
    split; [done|]. split; [by eapply list_elem_of_lookup_2|].
    simpl in *. rewrite Hc. done.
Qed.

(** [getNextProxy] never returns an endpoint whose ban record has an
    expiry still in the future: what it returns is an endpoint of the pool,
    unbanned before and after the call, and it is the one the cursor
    selects. It returns null when no unbanned endpoint exists, and
    otherwise only when [_parseProxy] answers null for the selected
    entry. *)
Theorem getNextProxy_skips_banned (p : ProxyManager) (now : Z) :
  let bans := banned (_state p) in
  let r := (getNextProxy p now).1 in
  let p' := (getNextProxy p now).2 in
  (∀ pr, r = Some pr →
     raw pr ∈ _allUrls p ∧
     currently_banned now bans (raw pr) = false ∧
     currently_banned now (banned (_state p')) (raw pr) = false ∧
     _current p' = Some (raw pr)) ∧
  ((∀ u, u ∈ _allUrls p → currently_banned now bans u = true) → r = None) ∧
  (r = None →
     (∀ u, u ∈ _allUrls p → currently_banned now bans u = true) ∨
     (∃ c, selected p now = Some c ∧ c ∈ _allUrls p ∧
           currently_banned now bans c = false ∧ _parseProxy c = None)).
Proof.
  intros bans r p'.
  destruct (getNextProxy_unfold p now) as (Hnil & Hcons & Hpurge).
  set (av := filter (λ u, currently_banned now (banned (_state p)) u = false)
                    (_allUrls p)) in *.
  split; [|split].
  - intros pr Hr. destruct (decide (av = [])) as [E|E].
    + subst r. rewrite (Hnil E) in Hr. done.
    + destruct (Hcons E) as (c & _ & Hin & Hret & Hcur & _).
      subst r. rewrite Hret in Hr. apply parseProxy_raw in Hr as Hraw.
      rewrite Hraw. apply list_elem_of_filter in Hin as [Hnb Hin].
      split; [done|]. split; [done|]. split; [|done].
      subst p'. by rewrite Hpurge.
  - intros Hall. apply Hnil. destruct av as [|a av0] eqn:E; [done|].
    assert (a ∈ av) as Hin by (rewrite E; apply list_elem_of_here).
    apply list_elem_of_filter in Hin as [Hnb Hin].
    specialize (Hall a Hin). unfold bans in Hall. congruence.
  - intros Hr. destruct (decide (av = [])) as [E|E].
    + left. intros u Hu. destruct (currently_banned now bans u) eqn:Eb; [done|].
      assert (u ∈ av) as Hin by (apply list_elem_of_filter; done).
      rewrite E in Hin. by apply not_elem_of_nil in Hin.
    + right. destruct (Hcons E) as (c & Hsel & Hin & Hret & _).
      exists c. apply list_elem_of_filter in Hin as [Hnb Hin].
      split; [done|]. split; [done|]. split; [done|].
      subst r. by rewrite <- Hret.
Qed.

End Selection.

(** *** Construction *)

Lemma set_add_all_elem (acc l : list string) (x : string) :
  x ∈ JS.set_add_all acc l ↔ x ∈ acc ∨ x ∈ l.
Proof.
  revert acc. induction l as [|y l IH]; intros acc; simpl.
  - split; [by left|]. intros [H|H]; [done|]. by apply not_elem_of_nil in H.
  - rewrite IH. case_bool_decide as Hy.
    + rewrite elem_of_cons. split; [intros [H|H]; auto|].
      intros [H|[->|H]]; auto.
    + rewrite elem_of_app, list_elem_of_singleton, elem_of_cons. tauto.
Qed.

Lemma set_add_all_NoDup (acc l : list string) :
  NoDup acc → NoDup (JS.set_add_all acc l).
Proof.
  revert acc. induction l as [|y l IH]; intros acc Hacc; simpl; [done|].
  apply IH. case_bool_decide as Hy; [done|].
  apply NoDup_app. split; [done|]. split.
  - intros x Hx Hx'. apply list_elem_of_singleton in Hx'. by subst.
  - apply NoDup_singleton.
Qed.

Lemma swap_Permutation (arr : list string) (i j : nat) : swap arr i j ≡ₚ arr.
Proof.
  unfold swap. destruct (arr !! i) as [x|] eqn:Ei; [|done].
  destruct (arr !! j) as [y|] eqn:Ej; [|done].
  by apply Permutation_insert_swap.
Qed.

Lemma shuffle_loop_Permutation rnd (i : nat) (arr : list string) :
  shuffle_loop rnd i arr ≡ₚ arr.
Proof.
  revert arr. induction i as [|i IH]; intros arr; simpl; [done|].
  rewrite IH. apply swap_Permutation.
Qed.

Lemma shuffle_Permutation rnd (arr : list string) : _shuffle rnd arr ≡ₚ arr.
Proof. apply shuffle_loop_Permutation. Qed.

Lemma swap_length (arr : list string) (i j : nat) :
  length (swap arr i j) = length arr.
Proof.
  unfold swap. destruct (arr !! i); [|done]. destruct (arr !! j); [|done].
  by rewrite !length_insert.
Qed.

Lemma swap_lookup_other (arr : list string) (i j k : nat) :
  k ≠ i → k ≠ j → swap arr i j !! k = arr !! k.
Proof.
  intros Hi Hj. unfold swap. destruct (arr !! i); [|done].
  destruct (arr !! j); [|done].
  by rewrite !list_lookup_insert_ne.
Qed.

Lemma swap_lookup_upper (arr : list string) (i j : nat) :
  (i < length arr)%nat → (j < length arr)%nat → swap arr i j !! i = arr !! j.
Proof.
  intros Hi Hj. unfold swap.
  destruct (lookup_lt_is_Some_2 _ _ Hi) as [x Hx].
  destruct (lookup_lt_is_Some_2 _ _ Hj) as [y Hy]. rewrite Hx, Hy.
  destruct (decide (i = j)) as [->|Hne].
  - rewrite list_lookup_insert_eq by (by rewrite length_insert). congruence.
  - rewrite list_lookup_insert_ne by done. by rewrite list_lookup_insert_eq.
Qed.

Lemma swap_take (arr : list string) (n i j : nat) :
  (i < n)%nat → (j < n)%nat → take n (swap arr i j) = swap (take n arr) i j.
Proof.
  intros Hi Hj. unfold swap. rewrite !lookup_take_lt by done.
  destruct (arr !! i); [|done]. destruct (arr !! j); [|done].
  by rewrite !take_insert_lt.
Qed.

Lemma shuffle_loop_length rnd (i : nat) (arr : list string) :
  length (shuffle_loop rnd i arr) = length arr.
Proof.
  revert arr. induction i as [|i IH]; intros arr; simpl; [done|].
  by rewrite IH, swap_length.
Qed.

(** The loop entered with [i] leaves the places above [i] alone. *)
Lemma shuffle_loop_above rnd (i k : nat) (arr : list string) :
  in_range rnd → (i < k)%nat → shuffle_loop rnd i arr !! k = arr !! k.
Proof.
  intros Hr. revert arr. induction i as [|i IH]; intros arr Hk; simpl; [done|].
  rewrite IH by lia. specialize (Hr (S i)).
  apply swap_lookup_other; lia.
Qed.

(** The place [i] receives the element drawn for it. *)
Lemma shuffle_loop_top rnd (i : nat) (arr : list string) :
  in_range rnd → (S i < length arr)%nat →
  shuffle_loop rnd (S i) arr !! S i = arr !! rnd (S i).
Proof.
  intros Hr Hi. simpl. rewrite shuffle_loop_above by (done || lia).
  specialize (Hr (S i)). apply swap_lookup_upper; lia.
Qed.

Lemma shuffle_loop_ext rnd rnd' (i : nat) (arr : list string) :
  (∀ j, (1 ≤ j ≤ i)%nat → rnd j = rnd' j) →
  shuffle_loop rnd i arr = shuffle_loop rnd' i arr.
Proof.
  revert arr. induction i as [|i IH]; intros arr Heq; simpl; [done|].
  rewrite (Heq (S i)) by lia. apply IH. intros j Hj. apply Heq. lia.
Qed.

(** Different draws give different orders of distinct elements. *)
Lemma shuffle_loop_inj rnd rnd' (i : nat) (arr : list string) :
  in_range rnd → in_range rnd' → NoDup arr → (i < length arr)%nat →
  shuffle_loop rnd i arr = shuffle_loop rnd' i arr →
  ∀ j, (1 ≤ j ≤ i)%nat → rnd j = rnd' j.
Proof.
  intros Hr Hr'. revert arr. induction i as [|i IH]; intros arr Hnd Hi Heq j Hj;
    [lia|].
  assert (Htop : rnd (S i) = rnd' (S i)).
  { pose proof (shuffle_loop_top rnd i arr Hr Hi) as H1.
    pose proof (shuffle_loop_top rnd' i arr Hr' Hi) as H2.
    rewrite Heq, H2 in H1.
    pose proof (Hr (S i)). pose proof (Hr' (S i)).
    destruct (lookup_lt_is_Some_2 arr (rnd (S i))) as [x Hx]; [lia|].
    rewrite Hx in H1. symmetry. by eapply NoDup_lookup. }
  destruct (decide (j = S i)) as [->|Hne]; [done|].
  simpl in Heq. rewrite <- Htop in Heq.
  apply (IH (swap arr (S i) (rnd (S i)))); [| |done|lia].
  - by rewrite swap_Permutation.
  - rewrite swap_length. lia.
Qed.

(** Every order is reached by some draws. *)
Lemma shuffle_loop_surj (i : nat) (arr l' : list string) :
  (i < length arr)%nat → length l' = length arr →
  (∀ k, (i < k)%nat → l' !! k = arr !! k) →
  take (S i) l' ≡ₚ take (S i) arr →
  ∃ rnd, in_range rnd ∧ shuffle_loop rnd i arr = l'.
Proof.
  revert arr. induction i as [|i IH]; intros arr Hi Hlen Habove Hperm.
  - exists (λ _, 0%nat). split; [intros k; lia|]. simpl. symmetry.
    apply list_eq. intros [|k]; [|apply Habove; lia].
    destruct arr as [|a arr]; [simpl in Hi; lia|].
    destruct l' as [|b l']; [done|]. simpl in *.
    apply Permutation_singleton_r in Hperm. by injection Hperm as ->.
  - destruct (lookup_lt_is_Some_2 l' (S i)) as [x Hx]; [lia|].
    assert (Hin : x ∈ take (S (S i)) arr).
    { rewrite <- Hperm. apply elem_of_take. exists (S i). split; [done|lia]. }
    apply elem_of_take in Hin as (j & Hj & Hjlt).
    set (arr' := swap arr (S i) j).
    assert (Htop : arr' !! S i = Some x).
    { unfold arr'. rewrite swap_lookup_upper; [done|lia|].
      by apply lookup_lt_is_Some_1. }
    destruct (IH arr') as (rnd & Hr & Hrun).
    + unfold arr'. rewrite swap_length. lia.
    + unfold arr'. by rewrite swap_length.
    + intros k Hk. destruct (decide (k = S i)) as [->|Hne]; [congruence|].
      unfold arr'. rewrite swap_lookup_other by lia. apply Habove. lia.
    + apply (Permutation_app_inv_r [x]).
      rewrite <- (take_S_r l' (S i) x Hx), <- (take_S_r arr' (S i) x Htop).
      rewrite Hperm. unfold arr'. rewrite swap_take by lia.
      by rewrite swap_Permutation.
    + exists (λ k, if bool_decide (k = S i) then j else rnd k). split.
      * intros k. case_bool_decide; [lia|apply Hr].
      * simpl. rewrite bool_decide_eq_true_2 by done. fold arr'.
        rewrite <- Hrun. apply shuffle_loop_ext. intros k Hk.
        rewrite bool_decide_eq_false_2; [done|lia].
Qed.

Lemma shuffle_surj (arr l' : list string) :
  l' ≡ₚ arr → ∃ rnd, in_range rnd ∧ _shuffle rnd arr = l'.
Proof.
  intros Hperm. unfold _shuffle.
  destruct (decide (arr = [])) as [->|Hne].
  - apply Permutation_nil_r in Hperm as ->. exists (λ _, 0%nat).
    split; [intros k; lia|done].
  - assert (0 < length arr)%nat by (destruct arr; [done|simpl; lia]).
    apply shuffle_loop_surj.
    + lia.
    + by apply Permutation_length.
    + intros k Hk. rewrite !(proj2 (lookup_ge_None _ _)); [done|lia|].
      rewrite (Permutation_length Hperm). lia.
    + replace (S (length arr - 1)) with (length arr) by lia.
      rewrite !take_ge; [done|lia|]. rewrite (Permutation_length Hperm). lia.
Qed.

Lemma shuffle_inj rnd rnd' (arr : list string) :
  in_range rnd → in_range rnd' → NoDup arr →
  _shuffle rnd arr = _shuffle rnd' arr →
  ∀ j, (1 ≤ j < length arr)%nat → rnd j = rnd' j.
Proof.
  intros Hr Hr' Hnd Heq j Hj. unfold _shuffle in Heq.
  eapply (shuffle_loop_inj rnd rnd' (length arr - 1) arr); try done; lia.
Qed.

(** C9 (as the code has it). For every configured list the pool holds the
    trimmed, non-empty input addresses, each once: it has no duplicate and
    no empty string, and an address is in it whether or not it parses as a
    URL. Its order is a Fisher-Yates shuffle of the distinct addresses in
    their order of first occurrence: always a reordering of them, every
    reordering is reached, and by one sequence of draws only, so that
    uniform draws give a uniform order. *)
Theorem constructor_pool_distinct_nonempty
    (cfgUrls : list string) (disk : option (option (gmap string Ban) * Z))
    (now : Z) (rnd : nat → nat) :
  let distinct := JS.new_Set (filter (λ v, JS.truthy v = true) (map JS.trim cfgUrls)) in
  let pool := _allUrls (constructor cfgUrls disk now rnd) in
  NoDup pool ∧
  ("" ∉ pool) ∧
  (∀ u, u ∈ pool ↔ u ≠ "" ∧ ∃ v, v ∈ cfgUrls ∧ u = JS.trim v) ∧
  pool ≡ₚ distinct ∧
  (∀ order, order ≡ₚ distinct →
     ∃ rnd', in_range rnd' ∧ _allUrls (constructor cfgUrls disk now rnd') = order) ∧
  (∀ rnd', in_range rnd → in_range rnd' →
     _allUrls (constructor cfgUrls disk now rnd') = pool →
     ∀ j, (1 ≤ j < length distinct)%nat → rnd' j = rnd j).
Proof.
  intros distinct pool.
  assert (Hnd : NoDup distinct) by (apply set_add_all_NoDup, NoDup_nil_2).
  assert (Hperm : pool ≡ₚ distinct) by apply shuffle_Permutation.
  assert (Hmem : ∀ u, u ∈ pool ↔ u ≠ "" ∧ ∃ v, v ∈ cfgUrls ∧ u = JS.trim v).
  { intros u. rewrite Hperm. unfold distinct, JS.new_Set. rewrite set_add_all_elem.
    rewrite list_elem_of_filter, list_elem_of_fmap, truthy_true_iff.
    split.
    - intros [H|[Hu (v & -> & Hv)]]; [by apply not_elem_of_nil in H|]. eauto.
    - intros [Hu (v & Hv & ->)]. right. eauto. }
  split; [by rewrite Hperm|]. split; [|split; [done|split; [done|split]]].
  - intros H. apply Hmem in H as [H _]. done.
  - intros order Ho. by apply shuffle_surj.
  - intros rnd' Hr Hr' Heq j Hj. by eapply shuffle_inj.
Qed.

(** C9 (as the specification has it) fails: an entry that does not parse as
    a proxy address stays in the pool. *)
Lemma constructor_keeps_unparsable :
  "not a proxy" ∈ _allUrls (constructor ["http://a:1"; " not a proxy "] None 0 (λ _, 0%nat)) ∧
  ∀ dec, _parseProxy JS.URL_new dec "not a proxy" = None.
Proof.
  split; [|done]. vm_compute. apply list_elem_of_here.
Qed.

(** *** Loading, purging, rotation and statistics *)

Lemma load_lookup disk now u ban :
  banned (_load disk now) !! u = Some ban ↔
  on_disk disk !! u = Some ban ∧ (expiresAt ban = 0 ∨ now < expiresAt ban)%Z.
Proof.
  unfold _load, on_disk.
  assert (H : ∀ b : gmap string Ban,
    filter (λ kv : string * Ban, expired_on_load now kv.2 = false) b !! u = Some ban ↔
    b !! u = Some ban ∧ (expiresAt ban = 0 ∨ now < expiresAt ban)%Z).
  { intros b. rewrite map_lookup_filter_Some. simpl. unfold expired_on_load.
    split; intros [H1 H2]; (split; [done|]).
    - destruct (Z.eqb_spec (expiresAt ban) 0); [by left|]. simpl in H2.
      right. apply Z.leb_gt in H2. lia.
    - destruct (Z.eqb_spec (expiresAt ban) 0); [done|]. simpl.
      apply Z.leb_gt. lia. }
  destruct disk as [[[b|] r]|]; simpl; rewrite H; [done| |];
    rewrite lookup_empty; split; intros [? _]; done.
Qed.

(** X1. Loading the ban file keeps every ban that can still apply: a
    record of the file is kept unless its expiry is set and not after the
    time of loading, so whether an address is banned, now or at any later
    time, is the same for the loaded table and for the file. Without a
    ban file the table is empty. A new manager has no failure history and
    no current endpoint, and its cursor is at 0. *)
Theorem constructor_keeps_live_bans
    (cfgUrls : list string) (disk : option (option (gmap string Ban) * Z))
    (now : Z) (rnd : nat → nat) :
  let p := constructor cfgUrls disk now rnd in
  (∀ u ban, banned (_state p) !! u = Some ban ↔
     on_disk disk !! u = Some ban ∧ (expiresAt ban = 0 ∨ now < expiresAt ban)%Z) ∧
  (∀ t u, (now ≤ t)%Z →
     currently_banned t (banned (_state p)) u = currently_banned t (on_disk disk) u) ∧
  (disk = None → banned (_state p) = ∅) ∧
  _failures p = ∅ ∧ _current p = None ∧ _index p = 0%nat.
Proof.
  intros p. split; [|split; [|split]].
  - intros u ban. apply load_lookup.
  - intros t u Ht. unfold currently_banned.
    change (banned (_state p)) with (banned (_load disk now)).
    destruct (on_disk disk !! u) as [ban|] eqn:Ed.
    + destruct (decide (expiresAt ban = 0 ∨ now < expiresAt ban)%Z) as [Hk|Hk].
      * by rewrite (proj2 (load_lookup disk now u ban) (conj Ed Hk)).
      * destruct (banned (_load disk now) !! u) as [ban'|] eqn:El.
        -- apply load_lookup in El as [El Hk']. rewrite Ed in El.
           injection El as <-. done.
        -- symmetry. apply bool_decide_eq_false. lia.
    + destruct (banned (_load disk now) !! u) as [ban'|] eqn:El; [|done].
      apply load_lookup in El as [El _]. by rewrite Ed in El.
  - intros ->. apply map_filter_empty.
  - done.
Qed.

Lemma isBanned_table now x b u :
  (_isBanned now x b).2 !! u
  = match b !! u with
    | Some ban => if bool_decide (u = x ∧ (expiresAt ban ≤ now)%Z) then None else Some ban
    | None => None
    end.
Proof.
  unfold _isBanned. destruct (b !! x) as [banx|] eqn:Ex.
  - destruct (Z.leb_spec (expiresAt banx) now) as [Hle|Hgt]; simpl.
    + destruct (decide (u = x)) as [->|Hne].
      * rewrite lookup_delete_eq, Ex. by rewrite bool_decide_eq_true_2.
      * rewrite lookup_delete_ne by done. destruct (b !! u); [|done].
        rewrite bool_decide_eq_false_2; [done|]. by intros [? _].
    + destruct (b !! u) as [ban|] eqn:Eu; [|done].
      rewrite bool_decide_eq_false_2; [done|]. intros [-> Hle].
      rewrite Ex in Eu. injection Eu as ->. lia.
  - simpl. destruct (b !! u) as [ban|] eqn:Eu; [|done].
    rewrite bool_decide_eq_false_2; [done|]. intros [-> _]. by rewrite Ex in Eu.
Qed.

Lemma filter_available_table now urls b u :
  (filter_available now urls b).2 !! u
  = match b !! u with
    | Some ban => if bool_decide (u ∈ urls ∧ (expiresAt ban ≤ now)%Z) then None else Some ban
    | None => None
    end.
Proof.
  revert b. induction urls as [|x rest IH]; intros b; cbn [filter_available snd].
  - destruct (b !! u); [|done]. rewrite bool_decide_eq_false_2; [done|].
    intros [H _]. by apply not_elem_of_nil in H.
  - pose proof (isBanned_table now x b u) as Hx.
    destruct (_isBanned now x b) as [isb b1]. cbn [snd] in Hx.
    specialize (IH b1). destruct (filter_available now rest b1) as [av b2].
    cbn [snd] in *. rewrite IH, Hx. destruct (b !! u) as [ban|]; [|done].
    case_bool_decide as H1.
    + rewrite bool_decide_eq_true_2; [done|]. destruct H1 as [-> ?].
      split; [apply list_elem_of_here|done].
    + case_bool_decide as H2.
      * rewrite bool_decide_eq_true_2; [done|]. destruct H2 as [? ?].
        split; [by apply list_elem_of_further|done].
      * rewrite bool_decide_eq_false_2; [done|]. intros [Hin Hle].
        apply elem_of_cons in Hin as [->|Hin]; [apply H1|apply H2]; done.
Qed.

Lemma filter_all {A} (P : A → Prop) `{∀ x, Decision (P x)} (l : list A) :
  (∀ x, x ∈ l → P x) → filter P l = l.
Proof.
  induction l as [|x l IH]; intros Hall; [done|].
  rewrite filter_cons_True by (apply Hall, list_elem_of_here).
  f_equal. apply IH. intros y Hy. by apply Hall, list_elem_of_further.
Qed.

Section Rotation.

Variable URL_new : string → option JS.URL.
Variable decodeURIComponent : string → option string.

Abbreviation getNextProxy := (Proxy.getNextProxy URL_new decodeURIComponent).
Abbreviation rounds := (Proxy.rounds URL_new decodeURIComponent).

Lemma getNextProxy_table p now u :
  banned (_state (getNextProxy p now).2) !! u
  = (filter_available now (_allUrls p) (banned (_state p))).2 !! u.
Proof.
  unfold Proxy.getNextProxy.
  destruct (filter_available now (_allUrls p) (banned (_state p))) as [av b].
  by destruct av.
Qed.

Lemma getNextProxy_frame p now :
  _allUrls (getNextProxy p now).2 = _allUrls p ∧
  _failures (getNextProxy p now).2 = _failures p.
Proof.
  unfold Proxy.getNextProxy.
  destruct (filter_available now (_allUrls p) (banned (_state p))) as [av b].
  by destruct av.
Qed.

(** X2. [getNextProxy] removes from the ban table exactly the records
    of pool endpoints whose expiry has passed; records of other
    addresses, the pool and the failure histories are left as they
    were. *)
Theorem getNextProxy_purges_expired (p : ProxyManager) (now : Z) :
  let p' := (getNextProxy p now).2 in
  (∀ u ban, banned (_state p') !! u = Some ban ↔
     banned (_state p) !! u = Some ban ∧
     (u ∈ _allUrls p → now < expiresAt ban)%Z) ∧
  _allUrls p' = _allUrls p ∧
  _failures p' = _failures p.
Proof.
  intros p'. split; [|apply getNextProxy_frame].
  intros u ban. subst p'. rewrite getNextProxy_table, filter_available_table.
  destruct (banned (_state p) !! u) as [ban0|]; [|split; [done|by intros [? _]]].
  case_bool_decide as H.
  - split; [done|]. intros [[= ->] Hk]. destruct H as [Hin Hle].
    specialize (Hk Hin). lia.
  - split.
    + intros [= ->]. split; [done|]. intros Hin.
      destruct (Z.lt_ge_cases now (expiresAt ban)); [done|]. destruct H. split; [done|lia].
    + by intros [[= ->] _].
Qed.

Lemma getNextProxy_step p now :
  let pool := _allUrls p in
  (0 < length pool)%nat →
  (∀ u, u ∈ pool → currently_banned now (banned (_state p)) u = false) →
  _current (getNextProxy p now).2 = pool !! ((_index p + 1) mod length pool)%nat ∧
  _index (getNextProxy p now).2 = ((_index p + 1) mod length pool)%nat.
Proof.
  intros pool Hn Hfree.
  destruct (getNextProxy_unfold URL_new decodeURIComponent p now) as (_ & Hcons & _).
  assert (Hav : filter (λ u, currently_banned now (banned (_state p)) u = false)
                       (_allUrls p) = pool).
  { by apply filter_all. }
  rewrite Hav in Hcons.
  assert (Hne : pool ≠ []) by (intros E; rewrite E in Hn; simpl in Hn; lia).
  destruct (Hcons Hne) as (c & Hsel & _ & _ & Hcur & Hidx).
  split; [|done]. rewrite Hcur. unfold selected in Hsel. rewrite Hav in Hsel.
  by rewrite Hsel.
Qed.

Lemma getNextProxy_bans_shrink p now t u :
  currently_banned t (banned (_state p)) u = false →
  currently_banned t (banned (_state (getNextProxy p now).2)) u = false.
Proof.
  unfold currently_banned. rewrite getNextProxy_table, filter_available_table.
  destruct (banned (_state p) !! u) as [ban|]; [|done].
  intros Hb. by destruct (bool_decide (u ∈ _allUrls p ∧ _)).
Qed.

Lemma rounds_lookup (times : list Z) (p : ProxyManager) :
  let pool := _allUrls p in
  (0 < length pool)%nat →
  (∀ t u, t ∈ times → u ∈ pool → currently_banned t (banned (_state p)) u = false) →
  (rounds times p).1
  = (λ k, pool !! ((_index p + k) mod length pool)%nat) <$> seq 1 (length times).
Proof.
  revert p. induction times as [|now later IH]; intros p pool Hn Hfree; [done|].
  simpl.
  destruct (getNextProxy_step p now Hn) as [Hcur Hidx].
  { intros u Hu. apply Hfree; [apply list_elem_of_here|done]. }
  destruct (getNextProxy_frame p now) as [Hurls _].
  specialize (IH (getNextProxy p now).2).
  destruct (Proxy.rounds URL_new decodeURIComponent later (getNextProxy p now).2)
    as [sel p2] eqn:Er.
  simpl in *. rewrite Hcur. f_equal.
  rewrite IH.
  - rewrite Hurls, Hidx. fold pool.
    rewrite <- (fmap_S_seq 1), <- list_fmap_compose.
    apply list_fmap_ext. intros _ k _. simpl.
    rewrite Nat.Div0.add_mod_idemp_l. f_equal. f_equal. lia.
  - by rewrite Hurls.
  - intros t u Ht Hu. apply getNextProxy_bans_shrink. apply Hfree.
    + by apply list_elem_of_further.
    + by rewrite Hurls in Hu.
Qed.

Lemma rotate_Permutation {A} (k : nat) (l : list A) : rotate k l ≡ₚ l.
Proof.
  unfold rotate. rewrite Permutation_app_comm. by rewrite take_drop.
Qed.

(** X3. Round robin. While no endpoint of a non-empty pool is banned,
    the [k]-th call in a row selects the endpoint [k] places after the
    cursor, wrapping around; as many calls as the pool has endpoints
    select the pool rotated by one place past the cursor, each endpoint
    once. *)
Theorem getNextProxy_round_robin (p : ProxyManager) (times : list Z) :
  let pool := _allUrls p in
  (0 < length pool)%nat →
  (∀ t u, t ∈ times → u ∈ pool → currently_banned t (banned (_state p)) u = false) →
  (rounds times p).1
  = (λ k, pool !! ((_index p + k) mod length pool)%nat) <$> seq 1 (length times) ∧
  (length times = length pool →
     (rounds times p).1 = Some <$> rotate (_index p + 1) pool ∧
     (rounds times p).1 ≡ₚ Some <$> pool).
Proof.
  intros pool Hn Hfree.
  pose proof (rounds_lookup times p Hn Hfree) as Hl. fold pool in Hl.
  split; [done|]. intros Hlen.
  assert (Hrot : (rounds times p).1 = Some <$> rotate (_index p + 1) pool).
  { rewrite Hl, Hlen. apply list_eq. intros j.
    rewrite !list_lookup_fmap.
    destruct (decide (j < length pool)%nat) as [Hj|Hj].
    - rewrite lookup_seq_lt by done. simpl.
      rewrite lookup_rotate_r by done.
      assert (rotate_nat_add (_index p + 1) j (length pool)
              = ((_index p + S j) mod length pool)%nat) as ->.
      { unfold rotate_nat_add. rewrite <- Nat2Z.inj_add, <- Nat2Z.inj_mod.
        rewrite Nat2Z.id. f_equal. lia. }
      destruct (lookup_lt_is_Some_2 pool ((_index p + S j) mod length pool)%nat)
        as [x Hx]; [apply Nat.mod_upper_bound; lia|].
      by rewrite Hx.
    - rewrite lookup_seq_ge by lia. simpl.
      rewrite (lookup_ge_None_2 (rotate _ _)); [done|]. rewrite length_rotate. lia. }
  split; [done|]. rewrite Hrot. by rewrite rotate_Permutation.
Qed.

End Rotation.

(** X4. When the pool has no duplicate and every address with an
    unexpired ban is a pool endpoint, [getStats] reports as banned the
    number of pool endpoints with an unexpired ban, and as available the
    number of pool endpoints [getNextProxy] chooses from. *)
Theorem getStats_counts_pool (p : ProxyManager) (now : Z) :
  let bans := banned (_state p) in
  NoDup (_allUrls p) →
  (∀ u, currently_banned now bans u = true → u ∈ _allUrls p) →
  total (getStats p now) = length (_allUrls p) ∧
  banned_count (getStats p now)
  = length (filter (λ u, currently_banned now bans u = true) (_allUrls p)) ∧
  available (getStats p now)
  = Z.of_nat (length (filter (λ u, currently_banned now bans u = false) (_allUrls p))).
Proof.
  intros bans Hnd Hin. split; [done|].
  assert (Hcount : banned_count (getStats p now)
    = length (filter (λ u, currently_banned now bans u = true) (_allUrls p))).
  { unfold getStats. simpl. fold bans.
    rewrite <- (length_fmap fst). apply Permutation_length.
    apply NoDup_Permutation.
    - apply NoDup_fmap_fst.
      + intros u b1 b2 H1 H2.
        apply list_elem_of_filter in H1 as [_ H1], H2 as [_ H2].
        apply elem_of_map_to_list in H1, H2. congruence.
      + apply NoDup_filter, NoDup_map_to_list.
    - by apply NoDup_filter.
    - intros u. rewrite list_elem_of_fmap, list_elem_of_filter. split.
      + intros ([u' ban] & -> & H). apply list_elem_of_filter in H as [Hlt H].
        apply elem_of_map_to_list in H. simpl in *.
        assert (Hb : currently_banned now bans u' = true).
        { unfold currently_banned. rewrite H. by apply bool_decide_eq_true. }
        split; [done|]. by apply Hin.
      + intros [Hb _]. unfold currently_banned in Hb.
        destruct (bans !! u) as [ban|] eqn:E; [|done].
        apply bool_decide_eq_true in Hb.
        exists (u, ban). split; [done|]. apply list_elem_of_filter.
        split; [done|]. by apply elem_of_map_to_list. }
  split; [done|].
  unfold getStats in *. simpl in *. fold bans in Hcount |- *. rewrite Hcount.
  pose proof (filter_app_complement
                (λ u, currently_banned now bans u = true) (_allUrls p)) as Hc.
  apply Permutation_length in Hc. rewrite length_app in Hc.
  assert (Heq : filter (λ u, currently_banned now bans u = false) (_allUrls p)
              = filter (λ u, ¬ currently_banned now bans u = true) (_allUrls p)).
  { apply list_filter_iff. intros u. by destruct (currently_banned now bans u). }
  rewrite Heq. lia.
Qed.

Lemma reportFailure_eq (p : ProxyManager) (url : string) (now : Z) :
  url ≠ "" →
  reportFailure p url now
  = if bool_decide (length (windowed p url now) < FAIL_THRESHOLD)%nat
    then (false, set_failures (<[url := windowed p url now]> (_failures p)) p)
    else (true,
          set_failures (delete url (_failures p))
            (set_banned (<[url := mkBan now (now + BAN_DURATION_MS)
                                        (length (windowed p url now))]>
                           (banned (_state p))) p)).
Proof.
  intros Hne. unfold reportFailure, windowed.
  by rewrite (truthy_nonempty url Hne).
Qed.

(** X5. For an endpoint without failure history, of three failures
    reported at times in order the first two never ban, and the third
    bans exactly when it comes less than an hour after the first; a
    success reported before the third failure prevents the ban. *)
Theorem three_failures_within_window (p : ProxyManager) (url : string) (t1 t2 t3 : Z) :
  url ≠ "" → _failures p !! url = None → (t1 ≤ t2 ≤ t3)%Z →
  let p1 := (reportFailure p url t1).2 in
  let p2 := (reportFailure p1 url t2).2 in
  (reportFailure p url t1).1 = false ∧
  (reportFailure p1 url t2).1 = false ∧
  ((reportFailure p2 url t3).1 = true ↔ (t3 - t1 < 60 * 60 * 1000)%Z) ∧
  (reportFailure (reportSuccess p2 url) url t3).1 = false.
Proof.
  intros Hne Hfresh Ht p1 p2. subst p1 p2.
  assert (Hw1 : windowed p url t1 = [t1]).
  { unfold windowed. rewrite Hfresh. cbn [default app].
    rewrite filter_cons_True by (unfold FAIL_WINDOW_MS; lia). done. }
  assert (H1 : reportFailure p url t1
               = (false, set_failures (<[url := [t1]]> (_failures p)) p)).
  { rewrite reportFailure_eq by done. rewrite Hw1. done. }
  rewrite H1. cbn [fst snd].
  set (q1 := set_failures (<[url := [t1]]> (_failures p)) p) in *.
  set (h2 := filter (λ ts, (t2 - ts < FAIL_WINDOW_MS)%Z) [t1; t2]).
  assert (Hw2 : windowed q1 url t2 = h2).
  { unfold windowed, q1. cbn [_failures set_failures]. by rewrite lookup_insert_eq. }
  assert (Hh2 : h2 = [t1; t2] ∧ (t2 - t1 < FAIL_WINDOW_MS)%Z
              ∨ h2 = [t2] ∧ ¬ (t2 - t1 < FAIL_WINDOW_MS)%Z).
  { unfold h2. destruct (decide (t2 - t1 < FAIL_WINDOW_MS)%Z) as [H21|H21].
    - left. rewrite filter_cons_True by done.
      rewrite filter_cons_True by (unfold FAIL_WINDOW_MS; lia). done.
    - right. rewrite filter_cons_False by done.
      rewrite filter_cons_True by (unfold FAIL_WINDOW_MS; lia). done. }
  assert (H2 : reportFailure q1 url t2
               = (false, set_failures (<[url := h2]> (_failures q1)) q1)).
  { rewrite reportFailure_eq by done. rewrite Hw2.
    rewrite bool_decide_eq_true_2; [done|].
    destruct Hh2 as [[-> _]|[-> _]]; unfold FAIL_THRESHOLD; cbn [length]; lia. }
  rewrite H2. cbn [fst snd].
  set (q2 := set_failures (<[url := h2]> (_failures q1)) q1) in *.
  assert (Hw3 : windowed q2 url t3 = filter (λ ts, (t3 - ts < FAIL_WINDOW_MS)%Z) (h2 ++ [t3])).
  { unfold windowed, q2. cbn [_failures set_failures]. by rewrite lookup_insert_eq. }
  split; [done|]. split; [done|]. split.
  - rewrite reportFailure_eq by done. rewrite Hw3.
    change (60 * 60 * 1000)%Z with FAIL_WINDOW_MS.
    destruct Hh2 as [[-> H21]|[-> H21]]; cbn [app].
    + destruct (decide (t3 - t1 < FAIL_WINDOW_MS)%Z) as [H31|H31].
      * rewrite filter_cons_True by done.
        rewrite filter_cons_True by (unfold FAIL_WINDOW_MS in *; lia).
        rewrite filter_cons_True by (unfold FAIL_WINDOW_MS; lia).
        rewrite bool_decide_eq_false_2 by (unfold FAIL_THRESHOLD; cbn [length filter]; lia).
        done.
      * rewrite filter_cons_False by done.
        rewrite bool_decide_eq_true_2; [done|].
        pose proof (length_filter (λ ts, (t3 - ts < FAIL_WINDOW_MS)%Z) [t2; t3]) as Hl.
        cbn [length] in Hl. unfold FAIL_THRESHOLD. lia.
    + rewrite bool_decide_eq_true_2.
      * cbn [fst]. split; [done|]. unfold FAIL_WINDOW_MS in *. lia.
      * pose proof (length_filter (λ ts, (t3 - ts < FAIL_WINDOW_MS)%Z) [t2; t3]) as Hl.
        cbn [length] in Hl. unfold FAIL_THRESHOLD. lia.
  - rewrite reportFailure_eq by done.
    assert (Hw : windowed (reportSuccess q2 url) url t3 = [t3]).
    { unfold windowed, reportSuccess. rewrite (truthy_nonempty url Hne).
      cbn [negb _failures set_failures]. rewrite lookup_delete_eq. cbn [default app].
      rewrite filter_cons_True by (unfold FAIL_WINDOW_MS; lia). done. }
    rewrite Hw. done.
Qed.

End ProxyFacts.

(** ** Properties of the request filter *)

Module AdblockFacts.
Import Adblock.

Section Decision.

Variable URL_new : string → option JS.URL.

Abbreviation evaluate := (Adblock.evaluate URL_new).

Lemma endsWith_suffix (s p : string) :
  JS.endsWith s p = true ↔ ∃ pre, s = pre +:+ p.
Proof.
  induction s as [|c s IH]; simpl.
  - rewrite orb_false_r, bool_decide_eq_true. split.
    + intros <-. by exists "".
    + intros [pre H]. destruct pre; simpl in H; [done|discriminate].
  - rewrite orb_true_iff, bool_decide_eq_true, IH. split.
    + intros [<-|[pre ->]]; [by exists ""|]. by exists (String c pre).
    + intros [pre H]. destruct pre as [|c' pre]; simpl in H; [by left|].
      injection H as -> ->. right. by exists pre.
Qed.

(** [hostMatchesDomain]: after normalization both are non-empty, and the
    host is the domain or ends with a dot and the domain. *)
Lemma hostMatchesDomain_exact_or_subdomain (h d : string) :
  hostMatchesDomain h d = true ↔
  normalizeDomain h ≠ "" ∧ normalizeDomain d ≠ "" ∧
  (normalizeDomain h = normalizeDomain d ∨
   ∃ sub, normalizeDomain h = sub +:+ "." +:+ normalizeDomain d).
Proof.
  unfold hostMatchesDomain.
  rewrite !andb_true_iff, orb_true_iff, !ProxyFacts.truthy_true_iff.
  rewrite bool_decide_eq_true, endsWith_suffix. tauto.
Qed.

Lemma hostMatchesDomain_truthy (h d : string) :
  hostMatchesDomain h d = true → JS.truthy h = true.
Proof.
  unfold hostMatchesDomain. intros H.
  apply andb_true_iff in H as [H _]. apply andb_true_iff in H as [H _].
  destruct h as [|c h]; [|done].
  by vm_compute in H.
Qed.

(** C5. A request whose URL parses to a host that matches, exactly or as a
    subdomain, some allowlisted domain is allowed, whatever the blocked
    resource types, the domain patterns and the URL patterns of the cache
    are. *)
Theorem allowlist_overrides_block_rules
    (cache : Cache) (request : Request) (u : JS.URL) (d : string) :
  URL_new (JS.toLowerCase (url request)) = Some u →
  d ∈ c_allowlistDomains cache →
  hostMatchesDomain (normalizeDomain (JS.hostname u)) d = true →
  block (evaluate cache request) = false ∧
  ∀ types domains patterns,
    evaluate (mkCache (c_enabled cache) (c_mode cache) types domains patterns
                      (c_allowlistDomains cache)) request = allow.
Proof.
  intros Hu Hd Hm.
  assert (Hall : ∀ c, c_allowlistDomains c = c_allowlistDomains cache →
                      evaluate c request = allow).
  { intros c Hc. unfold Adblock.evaluate.
    destruct (_ || _ || _ || _ || _); [done|].
    rewrite Hu, Hc.
    rewrite (hostMatchesDomain_truthy _ _ Hm). simpl.
    assert (existsb (λ d0, hostMatchesDomain (normalizeDomain (JS.hostname u)) d0)
                    (c_allowlistDomains cache) = true) as ->; [|done].
    apply existsb_exists. exists d. split; [|done]. by apply list_elem_of_In. }
  split.
  - by rewrite Hall.
  - intros types domains patterns. by apply Hall.
Qed.

Lemma default_types_exclude_document (config : Config) :
  blockResourceTypes config = blockResourceTypes defaultConfig →
  "document" ∉ blockedTypes (buildCache config).
Proof.
  intros Ht. unfold buildCache. simpl. rewrite Ht.
  unfold normalizeMode. case_bool_decide as Hmode; vm_compute; intros Hd.
  - repeat (apply elem_of_cons in Hd as [Hd|Hd]; [discriminate|]).
    by apply not_elem_of_nil in Hd.
  - repeat (apply elem_of_cons in Hd as [Hd|Hd]; [discriminate|]).
    by apply not_elem_of_nil in Hd.
Qed.

(** C6. A request of resource type [document] is never blocked by a domain
    pattern or a URL pattern: when it is blocked, [document] is in the
    blocked resource types of the active mode and that rule is the one
    reported. The default resource types of either mode do not contain
    [document], so with them a document request is always allowed. *)
Theorem document_blocked_only_by_type (cache : Cache) (request : Request) :
  JS.toLowerCase (resourceType request) = "document" →
  (block (evaluate cache request) = true →
     ("document" ∈ blockedTypes cache) ∧
     blockRule (evaluate cache request) = Some "type:document") ∧
  ("document" ∉ blockedTypes cache → evaluate cache request = allow) ∧
  (∀ config, blockResourceTypes config = blockResourceTypes defaultConfig →
     ("document" ∉ blockedTypes (buildCache config)) ∧
     evaluate (buildCache config) request = allow).
Proof.
  intros Hdoc.
  assert (Hcases : ∀ c,
    (("document" ∈ blockedTypes c) ∧
       (evaluate c request = allow ∨
        evaluate c request = blocked (host_of URL_new request) "document" "type:document")) ∨
    (("document" ∉ blockedTypes c) ∧ evaluate c request = allow)).
  { intros c. unfold Adblock.evaluate. fold (host_of URL_new request). rewrite Hdoc.
    destruct (decide ("document" ∈ blockedTypes c)) as [Hin|Hin].
    - left. split; [done|].
      destruct (_ || _ || _ || _ || _); [by left|].
      destruct (_ && _); [by left|].
      rewrite bool_decide_eq_true_2 by done. by right.
    - right. split; [done|].
      destruct (_ || _ || _ || _ || _); [done|].
      destruct (_ && _); [done|].
      rewrite bool_decide_eq_false_2 by done.
      rewrite bool_decide_eq_false_2; [done|]. by intros H. }
  split; [|split].
  - intros Hb. destruct (Hcases cache) as [[Hin [E|E]]|[Hin E]];
      rewrite E in Hb |- *; try discriminate. done.
  - intros Hnot. destruct (Hcases cache) as [[Hin _]|[_ E]]; done.
  - intros config Ht. pose proof (default_types_exclude_document config Ht) as Hn.
    split; [done|]. destruct (Hcases (buildCache config)) as [[Hin _]|[_ E]]; done.
Qed.

End Decision.

(** *** The blocked-host tracker *)

Lemma map_set_fresh (key : string) (v : nat) (m : JSMap) :
  key ∉ m.*1 → map_set key v m = m ++ [(key, v)].
Proof.
  induction m as [|e m IH]; simpl; [done|]. intros Hk.
  apply not_elem_of_cons in Hk as [Hne Hk].
  rewrite bool_decide_eq_false_2 by done. by rewrite IH.
Qed.

Lemma map_delete_fst (k : string) (m : JSMap) :
  (map_delete k m).*1 = filter (λ x, x ≠ k) m.*1.
Proof.
  unfold map_delete. induction m as [|e m IH]; [done|]. rewrite fmap_cons.
  destruct (decide (e.1 ≠ k)).
  - rewrite !filter_cons_True by done. rewrite fmap_cons. f_equal. exact IH.
  - rewrite !filter_cons_False by done. done.
Qed.

Lemma map_delete_absent (k : string) (m : JSMap) :
  k ∉ m.*1 → map_delete k m = m.
Proof.
  unfold map_delete. induction m as [|e m IH]; [done|]. rewrite fmap_cons.
  intros Hk. apply not_elem_of_cons in Hk as [Hne Hk].
  rewrite filter_cons_True by done. by rewrite IH.
Qed.

Lemma map_get_delete_ne (x k : string) (m : JSMap) :
  x ≠ k → map_get x (map_delete k m) = map_get x m.
Proof.
  intros Hne. unfold map_delete. induction m as [|e m IH]; [done|].
  destruct (decide (e.1 ≠ k)) as [He|He].
  - rewrite filter_cons_True by done. simpl. by rewrite IH.
  - rewrite filter_cons_False by done. rewrite IH. simpl.
    rewrite bool_decide_eq_false_2; [done|]. intros Hx. apply He. by rewrite Hx.
Qed.

Lemma map_get_snoc_ne (x k : string) (v : nat) (m : JSMap) :
  x ≠ k → map_get x (m ++ [(k, v)]) = map_get x m.
Proof.
  intros Hne. induction m as [|e m IH]; simpl.
  - by rewrite bool_decide_eq_false_2.
  - by rewrite IH.
Qed.

Lemma map_get_snoc_eq (k : string) (v : nat) (m : JSMap) :
  k ∉ m.*1 → map_get k (m ++ [(k, v)]) = Some v.
Proof.
  induction m as [|e m IH]; simpl; intros Hk.
  - by rewrite bool_decide_eq_true_2.
  - apply not_elem_of_cons in Hk as [Hne Hk].
    rewrite bool_decide_eq_false_2 by done. by apply IH.
Qed.

Lemma map_get_present (k : string) (m : JSMap) :
  k ∈ m.*1 → is_Some (map_get k m).
Proof.
  induction m as [|e m IH]; simpl; intros Hk; [by apply not_elem_of_nil in Hk|].
  case_bool_decide as He; [done|].
  apply elem_of_cons in Hk as [->|Hk]; [done|]. by apply IH.
Qed.

Lemma filter_ne_absent (k : string) (l : list string) :
  k ∉ l → filter (λ x, x ≠ k) l = l.
Proof.
  induction l as [|y l IH]; [done|]. intros Hk.
  apply not_elem_of_cons in Hk as [Hne Hk].
  rewrite filter_cons_True by done. by rewrite IH.
Qed.

Lemma not_elem_of_filter_ne (k : string) (l : list string) :
  k ∉ filter (λ x, x ≠ k) l.
Proof. intros H. apply list_elem_of_filter in H as [H _]. done. Qed.

(** The three cases of [inc] on a map with one entry per key. *)
Lemma inc_present (k : string) (l : LRUMap) :
  k ∈ keys l →
  lmap (inc k l).2
  = map_delete k (lmap l) ++ [(k, (default 0 (get k l) + 1)%nat)].
Proof.
  intros Hk. unfold inc, map_has. simpl. fold (keys l).
  rewrite bool_decide_eq_true_2 by done.
  apply map_set_fresh. rewrite map_delete_fst. apply not_elem_of_filter_ne.
Qed.

Lemma map_get_absent (k : string) (m : JSMap) : k ∉ m.*1 → map_get k m = None.
Proof.
  induction m as [|e m IH]; simpl; [done|].
  intros Hk. apply not_elem_of_cons in Hk as [Hne Hk].
  rewrite bool_decide_eq_false_2 by done. by apply IH.
Qed.

Lemma inc_absent_room (k : string) (l : LRUMap) :
  k ∉ keys l → (length (lmap l) < maxSize l)%nat →
  lmap (inc k l).2 = lmap l ++ [(k, 1%nat)].
Proof.
  intros Hk Hlen. unfold inc, map_has. simpl. fold (keys l).
  rewrite (map_get_absent k (lmap l) Hk). simpl.
  rewrite bool_decide_eq_false_2 by done.
  rewrite bool_decide_eq_false_2 by lia.
  by apply map_set_fresh.
Qed.

Lemma inc_absent_full (k e : string) (c : nat) (rest : JSMap) (l : LRUMap) :
  k ∉ keys l → (maxSize l ≤ length (lmap l))%nat → NoDup (keys l) →
  lmap l = (e, c) :: rest →
  lmap (inc k l).2 = rest ++ [(k, 1%nat)].
Proof.
  intros Hk Hlen Hnd El. unfold keys in Hk, Hnd. unfold inc, map_has. simpl.
  rewrite (map_get_absent k (lmap l) Hk). simpl.
  rewrite bool_decide_eq_false_2 by done.
  rewrite bool_decide_eq_true_2 by lia.
  rewrite El in Hk, Hnd |- *.
  rewrite fmap_cons in Hk, Hnd |- *. simpl in Hk, Hnd.
  apply NoDup_cons in Hnd as [He Hnd].
  apply not_elem_of_cons in Hk as [Hne Hk].
  pose proof (map_delete_absent e rest He) as Hd.
  unfold map_delete in Hd |- *. rewrite filter_cons_False by (simpl; auto).
  simpl. rewrite Hd. by apply map_set_fresh.
Qed.

Lemma since_cons_ne (h : list string) (k x : string) :
  x ≠ k → since (k :: h) x = S (since h x).
Proof. intros Hne. simpl. rewrite bool_decide_eq_false_2; [done|]. by intros ->. Qed.

Lemma since_cons_eq (h : list string) (k : string) : since (k :: h) k = 0%nat.
Proof. simpl. by rewrite bool_decide_eq_true_2. Qed.

Lemma staler_filter_cons (h : list string) (k : string) (ks : list string) :
  StronglySorted (staler h) ks →
  StronglySorted (staler (k :: h)) (filter (λ x, x ≠ k) ks ++ [k]).
Proof.
  intros Hs.
  assert (Hkept : StronglySorted (staler (k :: h)) (filter (λ x, x ≠ k) ks)).
  { induction Hs as [|x ks Hs IH Hall]; [constructor|].
    destruct (decide (x ≠ k)) as [Hx|Hx].
    - rewrite filter_cons_True by done. constructor; [done|].
      apply Forall_forall. intros y Hy.
      apply list_elem_of_filter in Hy as [Hyk Hy].
      rewrite Forall_forall in Hall. specialize (Hall y Hy).
      unfold staler in *. rewrite !since_cons_ne by done. lia.
    - by rewrite filter_cons_False. }
  assert (Hlast : StronglySorted (staler (k :: h)) [k]) by repeat constructor.
  assert (Hrel : ∀ x y, x ∈ filter (λ x, x ≠ k) ks → y ∈ [k] → staler (k :: h) x y).
  { intros x y Hx Hy. apply list_elem_of_singleton in Hy as ->.
    apply list_elem_of_filter in Hx as [Hxk _].
    unfold staler. rewrite since_cons_eq, since_cons_ne by done. lia. }
  by apply StronglySorted_app_2.
Qed.

Lemma staler_tail_cons (h : list string) (k e : string) (ks : list string) :
  k ∉ e :: ks → NoDup (e :: ks) →
  StronglySorted (staler h) (e :: ks) →
  StronglySorted (staler (k :: h)) (ks ++ [k]).
Proof.
  intros Hk Hnd Hs. apply not_elem_of_cons in Hk as [Hke Hk].
  apply StronglySorted_inv in Hs as [Hs _].
  apply (staler_filter_cons h k) in Hs.
  by rewrite filter_ne_absent in Hs.
Qed.

(** What holds of the tracker after any sequence of counts. *)
Lemma tracked_invariant (cap : nat) (h : list string) :
  (1 ≤ cap)%nat →
  maxSize (tracked cap h) = cap ∧
  NoDup (keys (tracked cap h)) ∧
  (length (lmap (tracked cap h)) ≤ cap)%nat ∧
  StronglySorted (staler h) (keys (tracked cap h)).
Proof.
  intros Hcap. induction h as [|k h (Hmax & Hnd & Hlen & Hs)].
  - simpl. split; [done|]. split; [apply NoDup_nil_2|]. split; [lia|constructor].
  - change (tracked cap (k :: h)) with (inc k (tracked cap h)).2.
    set (l := tracked cap h) in *.
    split; [done|].
    destruct (decide (k ∈ keys l)) as [Hk|Hk].
    + unfold keys at 1 2. rewrite (inc_present k l Hk).
      rewrite fmap_app, map_delete_fst. simpl. fold (keys l).
      split; [|split].
      * apply NoDup_app. split; [by apply NoDup_filter|].
        split; [|apply NoDup_singleton].
        intros x Hx Hx'. apply list_elem_of_singleton in Hx' as ->.
        by apply not_elem_of_filter_ne in Hx.
      * rewrite length_app. simpl.
        assert (length (map_delete k (lmap l)) < length (lmap l))%nat; [|lia].
        rewrite <- (length_fmap fst (map_delete k (lmap l))).
        rewrite <- (length_fmap fst (lmap l)). rewrite map_delete_fst.
        apply (length_filter_lt _ _ k); [done|]. by intros H.
      * by apply staler_filter_cons.
    + destruct (decide (cap ≤ length (lmap l))%nat) as [Hfull|Hroom].
      * destruct (lmap l) as [|[e c] rest] eqn:El; [simpl in Hfull; lia|].
        unfold keys at 1 2.
        rewrite (inc_absent_full k e c rest l Hk);
          [|rewrite Hmax, El; exact Hfull|exact Hnd|exact El].
        rewrite fmap_app. simpl.
        unfold keys in Hnd, Hs, Hk. rewrite El in Hnd, Hs, Hk. simpl in *.
        split; [|split].
        -- apply not_elem_of_cons in Hk as [Hke Hk].
           apply NoDup_cons in Hnd as [He Hnd].
           apply NoDup_app. split; [done|]. split; [|apply NoDup_singleton].
           intros x Hx Hx'. apply list_elem_of_singleton in Hx' as ->. done.
        -- rewrite length_app. simpl. lia.
        -- by eapply staler_tail_cons.
      * unfold keys at 1 2.
        rewrite (inc_absent_room k l Hk) by (rewrite Hmax; lia).
        rewrite fmap_app. simpl. fold (keys l).
        split; [|split].
        -- apply NoDup_app. split; [done|]. split; [|apply NoDup_singleton].
           intros x Hx Hx'. apply list_elem_of_singleton in Hx' as ->. done.
        -- rewrite length_app. simpl. lia.
        -- pose proof (staler_filter_cons h k _ Hs) as Hs'.
           by rewrite filter_ne_absent in Hs'.
Qed.

Lemma handler_tracks_hosts (ds : list Decision) :
  blockedByHost (after_decisions ds) = tracked 500 (omap counted_host ds).
Proof.
  induction ds as [|d ds IH]; [done|]. simpl.
  unfold handler_stats, counted_host.
  destruct (block d); simpl; [|done].
  destruct (d_host d) as [h|]; [|done].
  destruct (JS.truthy h); simpl; [|done]. by rewrite IH.
Qed.

(** C8. The blocked-host tracker, after any sequence of counts [h], holds
    at most 500 hosts, each once. Counting a host it holds moves that host
    to the most recent place, keeps every host, adds one to its count and
    leaves the other counts alone. Counting a new host when 500 are held
    removes the first host of the map, which every other host held was
    counted after, whatever the counts are; the remaining counts are
    unchanged and the new host enters with count 1. Below capacity a new
    host is appended. *)
Theorem blockedByHost_lru_eviction (h : list string) (k : string) :
  let m := tracked 500 h in
  let m' := (inc k m).2 in
  (length (lmap m) ≤ 500)%nat ∧
  NoDup (keys m) ∧
  (k ∈ keys m →
     keys m' = filter (λ x, x ≠ k) (keys m) ++ [k] ∧
     (∀ x, x ∈ keys m → x ∈ keys m') ∧
     get k m' = S <$> get k m ∧
     (∀ x, x ≠ k → get x m' = get x m)) ∧
  (k ∉ keys m → length (lmap m) = 500%nat →
     ∃ e c rest, lmap m = (e, c) :: rest ∧
       lmap m' = rest ++ [(k, 1%nat)] ∧
       (∀ x, x ∈ keys m → x ≠ e → staler h e x) ∧
       (∀ x, x ≠ e → x ≠ k → get x m' = get x m)) ∧
  (k ∉ keys m → (length (lmap m) < 500)%nat →
     lmap m' = lmap m ++ [(k, 1%nat)]).
Proof.
  intros m m'.
  assert (Hcap : (1 ≤ 500)%nat) by lia.
  destruct (tracked_invariant 500 h Hcap) as (Hmax & Hnd & Hlen & Hs).
  fold m in Hmax, Hnd, Hlen, Hs.
  split; [done|]. split; [done|]. split; [|split].
  - intros Hk.
    pose proof (inc_present k m Hk) as Hm'. fold m' in Hm'.
    assert (Hkeys : keys m' = filter (λ x, x ≠ k) (keys m) ++ [k]).
    { unfold keys. by rewrite Hm', fmap_app, map_delete_fst. }
    split; [done|]. split; [|split].
    + intros x Hx. rewrite Hkeys. apply elem_of_app.
      destruct (decide (x = k)) as [->|Hne].
      * right. by apply list_elem_of_singleton.
      * left. by apply list_elem_of_filter.
    + unfold get at 1. rewrite Hm'.
      rewrite map_get_snoc_eq
        by (rewrite map_delete_fst; apply not_elem_of_filter_ne).
      destruct (map_get_present k (lmap m) Hk) as [c Hc].
      unfold get. rewrite Hc. simpl. f_equal. lia.
    + intros x Hx. unfold get at 1. rewrite Hm'.
      rewrite map_get_snoc_ne by done.
      unfold get. by apply map_get_delete_ne.
  - intros Hk Hfull.
    destruct (lmap m) as [|[e c] rest] eqn:El; [simpl in Hfull; lia|].
    exists e, c, rest. split; [done|].
    assert (Hm' : lmap m' = rest ++ [(k, 1%nat)]).
    { subst m'. apply (inc_absent_full k e c rest m Hk); [|done|done].
      rewrite Hmax, El. lia. }
    split; [done|]. split.
    + intros x Hx Hxe. unfold keys in Hx, Hs. rewrite El in Hx, Hs.
      rewrite fmap_cons in Hx, Hs. simpl in Hx, Hs.
      apply elem_of_cons in Hx as [Hx|Hx]; [done|].
      apply StronglySorted_inv in Hs as [_ Hall].
      rewrite Forall_forall in Hall. by apply Hall.
    + intros x Hxe Hxk. unfold get. rewrite Hm', El.
      rewrite map_get_snoc_ne by done. simpl.
      rewrite bool_decide_eq_false_2; [done|]. by intros <-.
  - intros Hk Hroom. subst m'. apply inc_absent_room; [done|]. by rewrite Hmax.
Qed.

(** Recency, not frequency: with room for two hosts, [a] counted three
    times and then [b] once, a new host [c] evicts [a]. *)
Example eviction_ignores_counts :
  lmap (tracked 2 ["b"; "a"; "a"; "a"]) = [("a", 3%nat); ("b", 1%nat)] ∧
  lmap (inc "c" (tracked 2 ["b"; "a"; "a"; "a"])).2 = [("b", 1%nat); ("c", 1%nat)].
Proof. split; reflexivity. Qed.

(** *** The verdict and the statistics *)

Lemma found_Some (f : string → bool) (l : list string) (m : string) :
  found f l = Some m → m ∈ l ∧ f m = true ∧ m ≠ "" ∧
  ∃ i, l !! i = Some m ∧ ∀ j y, l !! j = Some y → (j < i)%nat → f y = false.
Proof.
  unfold found. destruct (list_find _ l) as [[i x]|] eqn:E; [|done].
  apply list_find_Some in E as (Hi & Hf & Hbefore).
  unfold JS.truthy. case_bool_decide as Hx; [done|]. intros [= <-].
  split; [by eapply list_elem_of_lookup_2|]. split; [done|]. split; [done|].
  exists i. split; [done|]. intros j y Hj Hlt.
  specialize (Hbefore j y Hj Hlt). by destruct (f y).
Qed.

Lemma found_None (f : string → bool) (l : list string) :
  (∀ p, p ∈ l → f p = true → p ≠ "") →
  found f l = None → ∀ p, p ∈ l → f p = false.
Proof.
  intros Hne. unfold found. destruct (list_find _ l) as [[i x]|] eqn:E.
  - apply list_find_Some in E as (Hi & Hf & _).
    rewrite (ProxyFacts.truthy_nonempty x); [done|].
    apply Hne; [by eapply list_elem_of_lookup_2|done].
  - intros _ p Hp. apply list_find_None in E. rewrite Forall_forall in E.
    specialize (E p Hp). by destruct (f p).
Qed.

Lemma hostMatchesDomain_domain_nonempty (h d : string) :
  hostMatchesDomain h d = true → d ≠ "".
Proof.
  intros H ->. unfold hostMatchesDomain in H.
  apply andb_true_iff in H as [H _]. apply andb_true_iff in H as [_ H].
  discriminate H.
Qed.

Lemma normalizeArray_nonempty (l : list string) (p : string) :
  p ∈ normalizeArray l → p ≠ "".
Proof.
  unfold normalizeArray. intros H. apply list_elem_of_filter in H as [H _].
  by apply ProxyFacts.truthy_true_iff.
Qed.

Lemma urlPatterns_nonempty (config : Config) (p : string) :
  p ∈ urlPatterns (buildCache config) → p ≠ "".
Proof.
  unfold buildCache. cbn [urlPatterns]. intros H.
  apply list_elem_of_filter in H as [_ H]. by eapply normalizeArray_nonempty.
Qed.

Section Verdict.

Variable URL_new : string → option JS.URL.

Abbreviation evaluate := (Adblock.evaluate URL_new).

(** X6. The verdict on a request, for the cache compiled from any
    configuration. A request is blocked exactly when the filter is
    enabled, the lower-cased URL is not empty and not a [data:], [blob:]
    or [about:] URL, its host matches no allowlisted domain, and either
    its resource type is a blocked type or it is not a document and its
    host matches a domain pattern or its URL contains a URL pattern. A
    blocking decision carries the host and the type, and names the rule
    by that priority: the type, else a matching domain pattern, else a
    contained URL pattern. *)
Theorem evaluate_blocks_iff (config : Config) (request : Request) :
  let cache := buildCache config in
  let u := JS.toLowerCase (url request) in
  let host := host_of URL_new request in
  let type := JS.toLowerCase (resourceType request) in
  let exempt := bool_decide (u = "") || JS.startsWith u "data:"
                || JS.startsWith u "blob:" || JS.startsWith u "about:" in
  let allowlisted := ∃ d, host ≠ "" ∧ d ∈ c_allowlistDomains cache ∧
                          hostMatchesDomain host d = true in
  let by_domain := ∃ p, p ∈ domainPatterns cache ∧ hostMatchesDomain host p = true in
  let by_pattern := ∃ p, p ∈ urlPatterns cache ∧ JS.includes u p = true in
  (block (evaluate cache request) = true ↔
     enabled config = true ∧ exempt = false ∧ ¬ allowlisted ∧
     (type ∈ blockedTypes cache ∨ (type ≠ "document" ∧ (by_domain ∨ by_pattern)))) ∧
  (block (evaluate cache request) = true →
     d_host (evaluate cache request) = Some host ∧
     d_resourceType (evaluate cache request) = Some type ∧
     (type ∈ blockedTypes cache →
        blockRule (evaluate cache request) = Some ("type:" +:+ type)) ∧
     (type ∉ blockedTypes cache → by_domain →
        ∃ p, p ∈ domainPatterns cache ∧ hostMatchesDomain host p = true ∧
             blockRule (evaluate cache request) = Some ("domain:" +:+ p)) ∧
     (type ∉ blockedTypes cache → ¬ by_domain →
        ∃ p, p ∈ urlPatterns cache ∧ JS.includes u p = true ∧
             blockRule (evaluate cache request) = Some ("pattern:" +:+ p))).
Proof.
  intros cache u host type exempt allowlisted by_domain by_pattern.
  assert (Hal : (JS.truthy host && existsb (λ d, hostMatchesDomain host d)
                                          (c_allowlistDomains cache)) = true ↔ allowlisted).
  { rewrite andb_true_iff, ProxyFacts.truthy_true_iff, existsb_exists. split.
    - intros [Hh (d & Hd & Hm)]. exists d. by rewrite list_elem_of_In.
    - intros (d & Hh & Hd & Hm). split; [done|]. exists d. by rewrite <- list_elem_of_In. }
  assert (Hdom : ∀ m, found (λ p, hostMatchesDomain host p) (domainPatterns cache) = Some m →
                 m ∈ domainPatterns cache ∧ hostMatchesDomain host m = true).
  { intros m H. apply found_Some in H as (? & ? & _). done. }
  assert (Hnodom : found (λ p, hostMatchesDomain host p) (domainPatterns cache) = None →
                   ¬ by_domain).
  { intros H (p & Hp & Hm).
    eapply found_None in H; [|intros q _ Hq; by eapply hostMatchesDomain_domain_nonempty|exact Hp].
    simpl in H. congruence. }
  assert (Hpat : ∀ m, found (λ p, JS.includes u p) (urlPatterns cache) = Some m →
                 m ∈ urlPatterns cache ∧ JS.includes u m = true).
  { intros m H. apply found_Some in H as (? & ? & _). done. }
  assert (Hnopat : found (λ p, JS.includes u p) (urlPatterns cache) = None →
                   ¬ by_pattern).
  { intros H (p & Hp & Hm).
    eapply found_None in H; [|intros q Hq _; by eapply urlPatterns_nonempty|exact Hp].
    simpl in H. congruence. }
  unfold Adblock.evaluate. fold (host_of URL_new request). fold u host type.
  change (c_enabled cache) with (enabled config).
  assert (Hex : (negb (enabled config) || negb (JS.truthy u) || JS.startsWith u "data:"
                 || JS.startsWith u "blob:" || JS.startsWith u "about:")
                = negb (enabled config) || exempt).
  { unfold exempt, JS.truthy. rewrite negb_involutive.
    by destruct (enabled config), (bool_decide (u = "")), (JS.startsWith u "data:"),
       (JS.startsWith u "blob:"). }
  rewrite Hex. clear Hex.
  destruct (enabled config); cbn [negb orb].
  2: { split; [|done]. split; [done|]. by intros [? _]. }
  destruct exempt.
  { split; [|done]. split; [done|]. by intros (_ & ? & _). }
  destruct (JS.truthy host && existsb _ _) eqn:Eal.
  { pose proof (proj1 Hal eq_refl) as Hall.
    split; [|done]. split; [done|]. by intros (_ & _ & ? & _). }
  assert (Hnal : ¬ allowlisted) by (intros H; apply Hal in H; discriminate).
  case_bool_decide as Htype.
  { split.
    - split; [|done]. intros _. split; [done|]. split; [done|]. split; [done|].
      by left.
    - intros _. split; [done|]. split; [done|]. split; [done|].
      split; by intros Hn. }
  case_bool_decide as Hdoc.
  2: { split; [|done]. split; [done|]. intros (_ & _ & _ & [?|[? _]]); done. }
  destruct (found (λ p, hostMatchesDomain host p) (domainPatterns cache)) as [md|] eqn:Ed.
  { destruct (Hdom md eq_refl) as [Hin Hm]. split.
    - split; [|done]. intros _. split; [done|]. split; [done|]. split; [done|].
      right. split; [done|]. left. by exists md.
    - intros _. split; [done|]. split; [done|]. split; [done|]. split.
      + intros _ _. by exists md.
      + intros _ Hno. destruct Hno. by exists md. }
  specialize (Hnodom eq_refl).
  destruct (found (λ p, JS.includes u p) (urlPatterns cache)) as [mu|] eqn:Eu.
  { destruct (Hpat mu eq_refl) as [Hin Hm]. split.
    - split; [|done]. intros _. split; [done|]. split; [done|]. split; [done|].
      right. split; [done|]. right. by exists mu.
    - intros _. split; [done|]. split; [done|]. split; [done|]. split; [done|].
      intros _ _. by exists mu. }
  specialize (Hnopat eq_refl).
  split; [|done]. split; [done|]. intros (_ & _ & _ & [?|[_ [?|?]]]); done.
Qed.

End Verdict.

Lemma handler_counts_types (ds : list Decision) :
  let st := after_decisions ds in
  s_blocked st = length (filter (λ d, block d = true) ds) ∧
  s_allowed st = length (filter (λ d, block d = false) ds) ∧
  (s_blocked st + s_allowed st = length ds)%nat ∧
  (∀ t, t ≠ "" →
     default 0%nat (blockedByType st !! t)
     = length (filter (λ d, block d = true ∧ d_resourceType d = Some t) ds)) ∧
  (∀ t, blockedByType st !! t ≠ Some 0%nat ∧ blockedByType st !! "" = None).
Proof.
  induction ds as [|d ds (Hb & Ha & Hsum & Ht & Hpos)]; cbn zeta in *.
  - split; [done|]. split; [done|]. split; [done|]. split; [done|].
    intros t. change (blockedByType (after_decisions [])) with (∅ : gmap string nat).
    by rewrite !lookup_empty.
  - cbn [after_decisions]. unfold handler_stats.
    destruct (block d) eqn:Eb; cbn [negb s_blocked s_allowed blockedByType].
    + rewrite filter_cons_True by done. rewrite filter_cons_False by (by rewrite Eb).
      cbn [length]. split; [lia|]. split; [lia|]. split; [lia|].
      assert (Hcases : (∃ ty, d_resourceType d = Some ty ∧ ty ≠ "" ∧
                         (match d_resourceType d with
                          | Some t => if JS.truthy t
                             then <[t := (default 0 (blockedByType (after_decisions ds) !! t) + 1)%nat]>
                                    (blockedByType (after_decisions ds))
                             else blockedByType (after_decisions ds)
                          | None => blockedByType (after_decisions ds)
                          end) = <[ty := (default 0 (blockedByType (after_decisions ds) !! ty) + 1)%nat]>
                                    (blockedByType (after_decisions ds)))
                       ∨ ((d_resourceType d = None ∨ d_resourceType d = Some "") ∧
                          (match d_resourceType d with
                           | Some t => if JS.truthy t
                             then <[t := (default 0 (blockedByType (after_decisions ds) !! t) + 1)%nat]>
                                    (blockedByType (after_decisions ds))
                             else blockedByType (after_decisions ds)
                           | None => blockedByType (after_decisions ds)
                           end) = blockedByType (after_decisions ds))).
      { destruct (d_resourceType d) as [ty|]; [|right; auto].
        destruct (decide (ty = "")) as [->|Hne]; [right; auto|].
        left. exists ty. by rewrite (ProxyFacts.truthy_nonempty ty Hne). }
      destruct Hcases as [(ty & Ety & Hne & ->)|[Hno ->]].
      * split.
        -- intros t Htne. destruct (decide (t = ty)) as [->|Hd].
           ++ rewrite lookup_insert_eq.
              change (default 0%nat (Some ?x)) with x.
              rewrite filter_cons_True by done. cbn [length]. rewrite Ht by done. lia.
           ++ rewrite lookup_insert_ne by done.
              rewrite filter_cons_False by (intros [_ H]; congruence). by apply Ht.
        -- intros t. split; [|rewrite lookup_insert_ne by done; apply (Hpos t)].
           destruct (decide (t = ty)) as [->|Hd].
           ++ rewrite lookup_insert_eq. intros [= H]. lia.
           ++ rewrite lookup_insert_ne by done. apply (Hpos t).
      * split; [|done]. intros t Htne.
        rewrite filter_cons_False; [by apply Ht|].
        intros [_ H]. destruct Hno as [Hn|Hn]; rewrite Hn in H; [done|]. congruence.
    + rewrite filter_cons_False by (by rewrite Eb). rewrite filter_cons_True by done.
      cbn [length]. split; [lia|]. split; [lia|]. split; [lia|]. split; [|done].
      intros t Htne. rewrite filter_cons_False by (intros [H _]; congruence). by apply Ht.
Qed.

(** X7. After any sequence of decisions the handler has counted every
    request once, as blocked or as allowed, and for every resource type
    the number of blocked requests of that type; a type it holds is not
    empty and its count is not zero. *)
Theorem handler_counts (ds : list Decision) :
  let st := after_decisions ds in
  s_blocked st = length (filter (λ d, block d = true) ds) ∧
  s_allowed st = length (filter (λ d, block d = false) ds) ∧
  (s_blocked st + s_allowed st = length ds)%nat ∧
  (∀ t, t ≠ "" →
     default 0%nat (blockedByType st !! t)
     = length (filter (λ d, block d = true ∧ d_resourceType d = Some t) ds)) ∧
  (∀ t n, blockedByType st !! t = Some n → t ≠ "" ∧ (0 < n)%nat).
Proof.
  intros st. destruct (handler_counts_types ds) as (Hb & Ha & Hsum & Ht & Hpos).
  fold st in Hb, Ha, Hsum, Ht, Hpos.
  split; [done|]. split; [done|]. split; [done|]. split; [done|].
  intros t n Hn. destruct (Hpos t) as [Hz He]. split.
  - intros ->. by rewrite He in Hn.
  - destruct n; [done|lia].
Qed.

(** *** The status *)

Lemma insert_by_count_Permutation e l : insert_by_count e l ≡ₚ e :: l.
Proof.
  induction l as [|y l IH]; [done|]. simpl. destruct (y.2 <=? e.2)%nat; [done|].
  rewrite IH. apply Permutation_swap.
Qed.

Lemma sort_by_count_Permutation l : sort_by_count l ≡ₚ l.
Proof.
  induction l as [|e l IH]; [done|]. simpl.
  by rewrite insert_by_count_Permutation, IH.
Qed.

Lemma insert_by_count_sorted e l :
  StronglySorted by_count l → StronglySorted by_count (insert_by_count e l).
Proof.
  induction 1 as [|y l Hs IH Hall]; simpl; [repeat constructor|].
  destruct (Nat.leb_spec y.2 e.2) as [Hle|Hgt].
  - constructor; [by constructor|]. constructor; [done|].
    eapply Forall_impl; [exact Hall|]. intros z Hz. unfold by_count in *. lia.
  - constructor; [done|]. rewrite insert_by_count_Permutation.
    constructor; [unfold by_count; lia|done].
Qed.

Lemma sort_by_count_sorted l : StronglySorted by_count (sort_by_count l).
Proof.
  induction l as [|e l IH]; simpl; [constructor|]. by apply insert_by_count_sorted.
Qed.

(** Entries with equal counts keep their order. *)
Lemma insert_by_count_stable e l n :
  filter (λ x, x.2 = n) (insert_by_count e l) = filter (λ x, x.2 = n) (e :: l).
Proof.
  induction l as [|y l IH]; [done|]. simpl.
  destruct (Nat.leb_spec y.2 e.2) as [Hle|Hgt]; [done|].
  rewrite (filter_cons _ y), IH, !(filter_cons _ e), (filter_cons _ y).
  destruct (decide (y.2 = n)), (decide (e.2 = n)); try done. lia.
Qed.

Lemma sort_by_count_stable l n :
  filter (λ x, x.2 = n) (sort_by_count l) = filter (λ x, x.2 = n) l.
Proof.
  induction l as [|e l IH]; [done|]. simpl.
  rewrite insert_by_count_stable, !filter_cons, IH. done.
Qed.

(** X8. The status lists as top blocked hosts the ten hosts of the
    tracker with the highest counts, or all of them when there are
    fewer: the counts do not go up along the list, no host left out has
    a higher count than a listed one, and hosts with equal counts are
    listed in the order the tracker holds them. *)
Theorem topBlockedHosts_ranked (m : Manager) :
  let all := entries (blockedByHost (m_stats m)) in
  let top := topBlockedHosts (getStatus m) in
  length top = (10 `min` length all)%nat ∧
  StronglySorted by_count top ∧
  (∃ rest, top ++ rest ≡ₚ all ∧
           ∀ a b, a ∈ top → b ∈ rest → (b.2 ≤ a.2)%nat) ∧
  (∀ n, filter (λ x, x.2 = n) top `prefix_of` filter (λ x, x.2 = n) all).
Proof.
  intros all top. subst top. cbn [getStatus topBlockedHosts]. fold all.
  pose proof (sort_by_count_sorted all) as Hs.
  pose proof (sort_by_count_Permutation all) as Hp.
  split; [|split; [|split]].
  - rewrite length_take. by rewrite Hp.
  - rewrite <- (take_drop 10 (sort_by_count all)) in Hs.
    by apply StronglySorted_app_1_l in Hs.
  - exists (drop 10 (sort_by_count all)). split; [by rewrite take_drop|].
    intros a b Ha Hb. rewrite <- (take_drop 10 (sort_by_count all)) in Hs.
    apply (StronglySorted_app_1_elem_of _ _ _ a b Hs Ha Hb).
  - intros n. rewrite <- (sort_by_count_stable all n).
    rewrite <- (take_drop 10 (sort_by_count all)) at 2.
    rewrite filter_app. by apply prefix_app_r.
Qed.

End AdblockFacts.

(** ** Properties of the tools *)

Module ToolsFacts.
Import Tools.

Lemma on_pages_keeps {A : Type} (f : Ctx → A) :
  (∀ p c, f (on_page p c) = f c) →
  ∀ opened c, f (on_pages opened c) = f c.
Proof.
  intros Hf opened. unfold on_pages.
  induction opened as [|p l IH]; intros c; simpl; [done|]. by rewrite IH, Hf.
Qed.

Ltac on_pages_field :=
  intros; apply on_pages_keeps; intros; unfold on_page; by case_bool_decide.

Lemma on_pages_lastSnapshot (opened : list Page) (c : Ctx) :
  lastSnapshot (on_pages opened c) = lastSnapshot c.
Proof. revert opened c. on_pages_field. Qed.

Lemma on_pages_currentUrl (opened : list Page) (c : Ctx) :
  currentUrl (on_pages opened c) = currentUrl c.
Proof. revert opened c. on_pages_field. Qed.

Lemma on_pages_page (opened : list Page) (c : Ctx) :
  page (on_pages opened c) = page c.
Proof. revert opened c. on_pages_field. Qed.

Lemma on_pages_proxyManager (opened : list Page) (c : Ctx) :
  _proxyManager (on_pages opened c) = _proxyManager c.
Proof. revert opened c. on_pages_field. Qed.

Lemma on_pages_proxyLaunchRaw (opened : list Page) (c : Ctx) :
  _proxyLaunchRaw (on_pages opened c) = _proxyLaunchRaw c.
Proof. revert opened c. on_pages_field. Qed.

Lemma on_pages_visitedUrls (opened : list Page) (c : Ctx) :
  visitedUrls (on_pages opened c) = visitedUrls c.
Proof. revert opened c. on_pages_field. Qed.

Lemma on_pages_ownership (opened : list Page) (c : Ctx) :
  _ownership (on_pages opened c) = _ownership c.
Proof. revert opened c. on_pages_field. Qed.

Lemma on_pages_browser (opened : list Page) (c : Ctx) :
  browser (on_pages opened c) = browser c.
Proof. revert opened c. on_pages_field. Qed.

Lemma on_pages_config (opened : list Page) (c : Ctx) :
  config (on_pages opened c) = config c.
Proof. revert opened c. on_pages_field. Qed.

Lemma on_pages_stealthSession (opened : list Page) (c : Ctx) :
  stealthSession (on_pages opened c) = stealthSession c.
Proof. revert opened c. on_pages_field. Qed.

(** *** Identifiers of a snapshot *)

Lemma element_of_id (i : nat) (n : Node) : id (element_of i n) = "el_" +:+ pretty i.
Proof. done. Qed.

Lemma el_id_inj (i j : nat) : "el_" +:+ pretty i = "el_" +:+ pretty j → i = j.
Proof. intros H. injection H as H. by apply (inj pretty). Qed.

Lemma find_id_index (k i : nat) (nodes : list Node) :
  find_id ("el_" +:+ pretty (k + i)) (imap (λ j, element_of (k + j)) nodes)
  = element_of (k + i) <$> nodes !! i.
Proof.
  revert k i. induction nodes as [|n nodes IH]; intros k i; [done|].
  cbn [imap find_id]. rewrite element_of_id.
  destruct i as [|i].
  - rewrite Nat.add_0_r. by rewrite bool_decide_eq_true_2.
  - rewrite bool_decide_eq_false_2 by (intros H; apply el_id_inj in H; lia).
    change ((n :: nodes) !! S i) with (nodes !! i).
    replace (k + S i)%nat with (S k + i)%nat by lia.
    rewrite <- (IH (S k) i). f_equal. apply imap_ext. intros j x _. simpl.
    f_equal. lia.
Qed.

Lemma find_id_Some (k : nat) (nodes : list Node) (uid : string) (el : Element) :
  find_id uid (imap (λ j, element_of (k + j)) nodes) = Some el →
  ∃ i n, nodes !! i = Some n ∧ uid = "el_" +:+ pretty (k + i) ∧
         el = element_of (k + i) n.
Proof.
  revert k. induction nodes as [|n nodes IH]; intros k; [done|].
  cbn [imap find_id]. rewrite element_of_id. case_bool_decide as Hid.
  - intros [= <-]. exists 0%nat, n. by rewrite Hid.
  - intros H.
    assert (Hext : imap ((λ j, element_of (k + j)) ∘ S) nodes
                   = imap (λ j, element_of (S k + j)) nodes).
    { apply imap_ext. intros j x _. simpl. f_equal. lia. }
    rewrite Hext in H. apply IH in H as (i & m & Hm & -> & ->).
    exists (S i), m. split; [done|].
    replace (k + S i)%nat with (S k + i)%nat by lia. done.
Qed.

(** The identifiers of a snapshot are distinct: [el_i] resolves to the
    node captured at index [i], and an identifier resolves to nothing
    else. *)
Lemma snapshot_resolves (verbose : bool) (nodes : list Node) :
  let limit := (if verbose then 300 else 120)%nat in
  let els := elements (snapshot_of verbose nodes) in
  (∀ i n, (i < limit)%nat → nodes !! i = Some n →
     find_id ("el_" +:+ pretty i) els = Some (element_of i n)) ∧
  (∀ uid el, find_id uid els = Some el →
     ∃ i n, (i < limit)%nat ∧ nodes !! i = Some n ∧
            uid = "el_" +:+ pretty i ∧ el = element_of i n).
Proof.
  intros limit els. subst els. unfold snapshot_of. cbn [elements]. fold limit.
  split.
  - intros i n Hi Hn.
    pose proof (find_id_index 0 i (take limit nodes)) as H. simpl in H.
    rewrite lookup_take_lt, Hn in H by done. exact H.
  - intros uid el H.
    apply (find_id_Some 0 (take limit nodes)) in H as (i & n & Hn & -> & ->).
    apply lookup_take_Some in Hn as [Hn Hi]. by exists i, n.
Qed.

Lemma imap_element_of_ids (k : nat) (nodes : list Node) :
  id <$> imap (λ j, element_of (k + j)) nodes
  = (λ i, "el_" +:+ pretty i) <$> seq k (length nodes).
Proof.
  revert k. induction nodes as [|n nodes IH]; intros k; [done|].
  cbn [imap fmap list_fmap length seq]. rewrite Nat.add_0_r. f_equal.
  rewrite <- (IH (S k)). f_equal. apply imap_ext. intros j x _. simpl. f_equal. lia.
Qed.

Lemma snapshot_ids_NoDup (verbose : bool) (nodes : list Node) :
  NoDup (id <$> elements (snapshot_of verbose nodes)).
Proof.
  unfold snapshot_of. cbn [elements].
  pose proof (imap_element_of_ids 0 (take (if verbose then 300 else 120)%nat nodes)) as H.
  simpl in H.
  change (NoDup (id <$> imap (λ j, element_of j)
                          (take (if verbose then 300 else 120)%nat nodes))).
  rewrite H. apply NoDup_fmap_2; [|apply NoDup_seq].
  intros i j Hij. by apply el_id_inj.
Qed.

Section Facts.

Context {World : Type}.
Variable perform : ∀ R : Type, call R → World → (string + R) * list Page * World.
Variable URL_new : string → option JS.URL.
Variable decodeURIComponent : string → option string.
Variable URL_resolve : string → string → option string.

Abbreviation openLink := (Tools.openLink perform URL_resolve).
Abbreviation lookup_href := (Tools.lookup_href perform).

(** Unfolds the plumbing of [M]. *)
Ltac run :=
  lazy beta iota zeta delta
    [Tools.bind Tools.ret Tools.throw Tools.gets Tools.modify Tools.try_catch
     Tools.attempt Tools.the_page Tools.do_call Tools.not_found andb negb
     Tools.emulateTyping Tools.emulateScroll];
  cbn [app].

(** Destructs the next call the goal is waiting for. *)
Ltac next_call :=
  match goal with
  | |- context [perform ?R ?c ?w] =>
      let r := fresh "r" in let opened := fresh "opened" in
      let w' := fresh "w" in let E := fresh "E" in
      destruct (perform R c w) as [[r opened] w'] eqn:E; run
  end.

Lemma lookup_href_quiet (item : Element) (c c1 : Ctx) (w w1 : World)
    (r : string + option string) (t : list event) :
  lookup_href item c w = (r, c1, w1, t) →
  no_goto t ∧ currentUrl c1 = currentUrl c ∧ lastSnapshot c1 = lastSnapshot c.
Proof.
  unfold Tools.lookup_href. destruct (JS.truthy_opt (href item)).
  - intros [= <- <- <- <-]. repeat split. constructor.
  - run. destruct (page c) as [p|]; run.
    + next_call. destruct r0; intros [= <- <- <- <-];
        rewrite on_pages_currentUrl, on_pages_lastSnapshot;
        repeat split; by repeat constructor.
    + intros [= <- <- <- <-]. repeat split. constructor.
Qed.

(** C10. For an element of the snapshot whose link target, captured or
    looked up in the live document, begins with [javascript:], [openLink]
    throws and navigates nowhere; when the element has no link target at
    all it throws the no-href error for the identifier. Either way no
    call but the look-up reaches the browser, and the current URL and the
    snapshot stay as they were. *)
Theorem openLink_rejects_javascript_href
    (c c1 : Ctx) (w w1 : World) (uid : string) (item : Element)
    (target : option string) (t : list event) :
  find_element c uid = Some item →
  lookup_href item c w = (inr target, c1, w1, t) →
  (JS.truthy_opt (href item) = true → target = href item ∧ t = []) ∧
  (JS.startsWith (default "" target) "javascript:" = true →
     openLink uid c w = (inl "Cannot navigate to javascript: href", c1, w1, t)) ∧
  (JS.truthy_opt target = false →
     openLink uid c w = (inl ("Element has no href: " +:+ uid), c1, w1, t)) ∧
  no_goto t ∧ currentUrl c1 = currentUrl c ∧ lastSnapshot c1 = lastSnapshot c.
Proof.
  intros Hfind Hlook.
  assert (Hrun : ∀ k : option string → M ToolResult,
            bind (lookup_href item) k c w
            = let '(r2, c2, w2, t2) := k target c1 w1 in (r2, c2, w2, t ++ t2)).
  { intros k. unfold bind. by rewrite Hlook. }
  split; [|split; [|split]].
  - intros Hcap. unfold Tools.lookup_href in Hlook. rewrite Hcap in Hlook.
    by injection Hlook as <- <- <- <-.
  - intros Hjs. unfold Tools.openLink, bind at 1, gets. simpl. rewrite Hfind.
    rewrite Hrun.
    assert (JS.truthy_opt target = true) as ->.
    { destruct target as [[|a s]|]; done. }
    simpl. rewrite Hjs. unfold throw. by rewrite app_nil_r.
  - intros Hno. unfold Tools.openLink, bind at 1, gets. simpl. rewrite Hfind.
    rewrite Hrun, Hno. simpl. unfold throw. by rewrite app_nil_r.
  - by eapply lookup_href_quiet.
Qed.

(** *** Calls a computation never makes *)

Section Silent.

Variable P : event → bool.

Lemma silent_ret {A : Type} (a : A) : silent P (@ret World A a).
Proof. intros c w. constructor. Qed.

Lemma silent_throw {A : Type} (msg : string) : silent P (@throw World A msg).
Proof. intros c w. constructor. Qed.

Lemma silent_gets {A : Type} (f : Ctx → A) : silent P (@gets World A f).
Proof. intros c w. constructor. Qed.

Lemma silent_modify (f : Ctx → Ctx) : silent P (@modify World f).
Proof. intros c w. constructor. Qed.

Lemma silent_call {R : Type} (k : call R) :
  (∀ r, P (Ev k r) = false) → silent P (do_call perform k).
Proof.
  intros Hk c w. unfold do_call. destruct (perform R k w) as [[r opened] w'].
  simpl. by repeat constructor.
Qed.

Lemma silent_bind {A B : Type} (m : @Tools.M World A) (f : A → @Tools.M World B) :
  silent P m → (∀ a, silent P (f a)) → silent P (bind m f).
Proof.
  intros Hm Hf c w. unfold bind. specialize (Hm c w).
  destruct (m c w) as [[[r c1] w1] t1]. destruct r as [e|a]; [done|].
  specialize (Hf a c1 w1). destruct (f a c1 w1) as [[[r2 c2] w2] t2].
  simpl in *. by apply Forall_app.
Qed.

Lemma silent_try_catch {A : Type} (m : @Tools.M World A) (h : string → @Tools.M World A) :
  silent P m → (∀ e, silent P (h e)) → silent P (try_catch m h).
Proof.
  intros Hm Hh c w. unfold try_catch. specialize (Hm c w).
  destruct (m c w) as [[[r c1] w1] t1]. destruct r as [e|a]; [|done].
  specialize (Hh e c1 w1). destruct (h e c1 w1) as [[[r2 c2] w2] t2].
  simpl in *. by apply Forall_app.
Qed.

Lemma silent_attempt (m : @Tools.M World unit) : silent P m → silent P (attempt m).
Proof. intros Hm. apply silent_try_catch; [done|]. intros e. apply silent_ret. Qed.

End Silent.

(** Proves [silent P m] for a computation built from calls that [P]
    excludes. *)
Ltac silence :=
  repeat first
    [ apply silent_ret | apply silent_throw | apply silent_gets
    | apply silent_modify | apply silent_attempt
    | apply silent_call; intros; reflexivity
    | apply silent_bind; [|intros]
    | apply silent_try_catch; [|intros]
    | match goal with
      | |- silent _ (if ?b then _ else _) => destruct b
      | |- silent _ (match ?x with _ => _ end) => destruct x
      | |- silent _ (let '(_, _) := ?x in _) => destruct x
      end ].

Lemma silent_goto_close : silent is_goto (close perform).
Proof. unfold close. silence. Qed.

Lemma silent_goto_init :
  silent is_goto (init perform URL_new decodeURIComponent).
Proof. unfold init, setup_proxy. silence. Qed.

Lemma silent_goto_rotateBrowser :
  silent is_goto (rotateBrowser perform URL_new decodeURIComponent).
Proof.
  unfold rotateBrowser. silence;
    first [apply silent_goto_close | apply silent_goto_init].
Qed.

Lemma silent_goto_after_navigation : silent is_goto (after_navigation perform).
Proof. unfold after_navigation, record_url, createSnapshot. silence. Qed.

Lemma silent_click_click_after item uid urlBefore tabsBefore :
  silent is_click (click_after perform URL_resolve item uid urlBefore tabsBefore).
Proof.
  unfold click_after, click_href_fallback, switchToTab, record_url. silence.
Qed.

(** *** Fields a computation leaves alone *)

Section Preserves.

Context {B : Type}.
Variable f : Ctx → B.
Hypothesis f_pages : ∀ opened c, f (on_pages opened c) = f c.

Lemma preserves_ret {A : Type} (a : A) : preserves f (@ret World A a).
Proof. by intros c w. Qed.

Lemma preserves_throw {A : Type} (msg : string) : preserves f (@throw World A msg).
Proof. by intros c w. Qed.

Lemma preserves_gets {A : Type} (g : Ctx → A) : preserves f (@gets World A g).
Proof. by intros c w. Qed.

Lemma preserves_modify (g : Ctx → Ctx) :
  (∀ c, f (g c) = f c) → preserves f (@modify World g).
Proof. intros Hg c w. apply Hg. Qed.

Lemma preserves_call {R : Type} (k : call R) : preserves f (do_call perform k).
Proof.
  intros c w. unfold do_call. destruct (perform R k w) as [[r opened] w'].
  apply f_pages.
Qed.

Lemma preserves_bind {A A' : Type} (m : @Tools.M World A) (k : A → @Tools.M World A') :
  preserves f m → (∀ a, preserves f (k a)) → preserves f (bind m k).
Proof.
  intros Hm Hk c w. unfold bind. specialize (Hm c w).
  destruct (m c w) as [[[r c1] w1] t1]. destruct r as [e|a]; [done|].
  specialize (Hk a c1 w1). destruct (k a c1 w1) as [[[r2 c2] w2] t2].
  simpl in *. congruence.
Qed.

Lemma preserves_try_catch {A : Type} (m : @Tools.M World A) (h : string → @Tools.M World A) :
  preserves f m → (∀ e, preserves f (h e)) → preserves f (try_catch m h).
Proof.
  intros Hm Hh c w. unfold try_catch. specialize (Hm c w).
  destruct (m c w) as [[[r c1] w1] t1]. destruct r as [e|a]; [|done].
  specialize (Hh e c1 w1). destruct (h e c1 w1) as [[[r2 c2] w2] t2].
  simpl in *. congruence.
Qed.

End Preserves.

Ltac frame :=
  repeat first
    [ apply preserves_ret | apply preserves_throw | apply preserves_gets
    | apply preserves_modify; intros; reflexivity
    | apply preserves_call; assumption
    | apply preserves_bind; [|intros]
    | apply preserves_try_catch; [|intros]
    | match goal with
      | |- preserves _ (if ?b then _ else _) => destruct b
      | |- preserves _ (match ?x with _ => _ end) => destruct x
      end ].

Lemma preserves_visitedUrls_close : preserves visitedUrls (close perform).
Proof. pose proof on_pages_visitedUrls. unfold close. frame. Qed.

Lemma preserves_visitedUrls_init :
  preserves visitedUrls (init perform URL_new decodeURIComponent).
Proof. pose proof on_pages_visitedUrls. unfold init, setup_proxy. frame. Qed.

Lemma preserves_visitedUrls_rotateBrowser :
  preserves visitedUrls (rotateBrowser perform URL_new decodeURIComponent).
Proof.
  pose proof on_pages_visitedUrls. unfold rotateBrowser, attempt. frame;
    first [apply preserves_visitedUrls_close | apply preserves_visitedUrls_init].
Qed.

Lemma preserves_visitedUrls_goto (url : string) (timeout : Z) :
  preserves visitedUrls
    (goto_with_retry perform URL_new decodeURIComponent url timeout).
Proof.
  pose proof on_pages_visitedUrls. unfold goto_with_retry. frame.
  all: try apply preserves_visitedUrls_rotateBrowser.
Qed.

(** *** Successful runs, read backwards *)

Lemma bind_inr {A B : Type} (m : @Tools.M World A) (f : A → @Tools.M World B)
    (c c' : Ctx) (w w' : World) (b : B) (t : list event) :
  bind m f c w = (inr b, c', w', t) →
  ∃ a c1 w1 t1 t2,
    m c w = (inr a, c1, w1, t1) ∧ f a c1 w1 = (inr b, c', w', t2) ∧ t = t1 ++ t2.
Proof.
  unfold bind. destruct (m c w) as [[[r c1] w1] t1]. destruct r as [e|a]; [done|].
  destruct (f a c1 w1) as [[[r2 c2] w2] t2] eqn:Ef. intros [= -> -> -> <-].
  by exists a, c1, w1, t1, t2.
Qed.

Lemma do_call_inr {R : Type} (k : call R) (c c' : Ctx) (w w' : World)
    (a : R) (t : list event) :
  do_call perform k c w = (inr a, c', w', t) →
  ∃ opened, perform R k w = (inr a, opened, w') ∧
            c' = on_pages opened c ∧ t = [Ev k (inr a)].
Proof.
  unfold do_call. destruct (perform R k w) as [[r opened] w1].
  intros [= -> <- -> <-]. by exists opened.
Qed.

Lemma the_page_inr (prop : string) (c c' : Ctx) (w w' : World) (p : Page)
    (t : list event) :
  the_page prop c w = (inr p, c', w', t) →
  page c = Some p ∧ c' = c ∧ w' = w ∧ t = [].
Proof.
  unfold the_page. run. destruct (page c) as [q|]; [|done].
  by intros [= -> <- <- <-].
Qed.

(** Splits a successful [bind] in hypothesis [H] into its first step [H1]
    and the rest, and simplifies the first step when it is plain. *)
Tactic Notation "split_bind" hyp(H) "as" ident(a) ident(H1) :=
  let c1 := fresh "c" in let w1 := fresh "w" in
  let t1 := fresh "t" in let t2 := fresh "t" in
  apply bind_inr in H as (a & c1 & w1 & t1 & t2 & H1 & H & ->);
  first
    [ apply the_page_inr in H1 as (H1 & -> & -> & ->)
    | unfold Tools.gets, Tools.modify, Tools.ret in H1;
      injection H1 as <- <- <- <-
    | idtac ].

Lemma record_url_inr (c c' : Ctx) (w w' : World) (u : string) (t : list event) :
  record_url perform c w = (inr u, c', w', t) →
  ∃ p opened, page c = Some p ∧ perform _ (PageUrl p) w = (inr u, opened, w') ∧
    c' = addVisitedUrl u (set_currentUrl u (on_pages opened c)) ∧
    t = [Ev (PageUrl p) (inr u)].
Proof.
  unfold record_url. intros H.
  split_bind H as p Hp. split_bind H as u' Hu.
  apply do_call_inr in Hu as (opened & Hu & -> & ->).
  split_bind H as x1 H1. split_bind H as x2 H2.
  unfold ret in H. injection H as <- <- <- <-.
  exists p, opened. by rewrite !app_nil_r.
Qed.

Lemma addVisitedUrl_elem (u : string) (c : Ctx) :
  u ≠ "" → u ∈ visitedUrls (addVisitedUrl u c).
Proof.
  intros Hu. unfold addVisitedUrl. rewrite (ProxyFacts.truthy_nonempty u Hu).
  simpl. case_bool_decide; [done|]. apply elem_of_app. right.
  by apply list_elem_of_singleton.
Qed.

Lemma addVisitedUrl_fields (u : string) (c : Ctx) :
  currentUrl (addVisitedUrl u c) = currentUrl c ∧
  lastSnapshot (addVisitedUrl u c) = lastSnapshot c ∧
  page (addVisitedUrl u c) = page c ∧
  _proxyManager (addVisitedUrl u c) = _proxyManager c ∧
  _proxyLaunchRaw (addVisitedUrl u c) = _proxyLaunchRaw c.
Proof. unfold addVisitedUrl. by destruct (JS.truthy u). Qed.

Lemma addVisitedUrl_same (u : string) (c c0 : Ctx) :
  visitedUrls c = visitedUrls c0 →
  visitedUrls (addVisitedUrl u c) = visitedUrls (addVisitedUrl u c0).
Proof.
  intros H. unfold addVisitedUrl. destruct (JS.truthy u); [|done].
  simpl. by rewrite H.
Qed.

(** What a successful [after_navigation] did: the three calls it made,
    with the answers of the environment, and what it left of them in the
    context. *)
Lemma after_navigation_inr (c c' : Ctx) (w w' : World) (res : ToolResult)
    (t : list event) :
  after_navigation perform c w = (inr res, c', w', t) →
  ∃ p u nodes o1 w1 o2 w2 o3,
    page c = Some p ∧
    perform _ (Sleep 500) w = (inr tt, o1, w1) ∧
    perform _ (PageUrl p) w1 = (inr u, o2, w2) ∧
    perform _ (EvaluateSnapshot p) w2 = (inr nodes, o3, w') ∧
    t = [Ev (Sleep 500) (inr tt); Ev (PageUrl p) (inr u);
         Ev (EvaluateSnapshot p) (inr nodes)] ∧
    res = RNavigate u (text (snapshot_of false nodes))
                    (length (elements (snapshot_of false nodes))) ∧
    page c' = Some p ∧
    currentUrl c' = u ∧
    visitedUrls c' = visitedUrls (addVisitedUrl u c) ∧
    lastSnapshot c' = Some (snapshot_of false nodes) ∧
    _proxyLaunchRaw c' = _proxyLaunchRaw c ∧
    (∀ pm raw, _proxyManager c' = Some pm → _proxyLaunchRaw c = Some raw →
       raw ≠ "" → Proxy._failures pm !! raw = None).
Proof.
  unfold after_navigation. intros H.
  split_bind H as x0 Hsleep.
  apply do_call_inr in Hsleep as (o1 & Hsleep & -> & ->). destruct x0.
  split_bind H as u Hu.
  apply record_url_inr in Hu as (p & o2 & Hp & Hu & -> & ->).
  rewrite on_pages_page in Hp.
  split_bind H as pm Hpm. split_bind H as launched Hl.
  split_bind H as x1 Hsucc. split_bind H as p' Hp'.
  unfold createSnapshot in H. split_bind H as snap Hsnap.
  apply bind_inr in Hsnap as (nodes & c5 & w5 & t5 & t6 & Hn & Hr & ->).
  apply do_call_inr in Hn as (o3 & Hn & -> & ->).
  unfold ret in Hr. injection Hr as <- <- <- <-.
  split_bind H as x2 Hset. unfold ret in H. injection H as <- <- <- <-.
  set (cu := addVisitedUrl u (set_currentUrl u (on_pages o2 (on_pages o1 c)))) in *.
  destruct (addVisitedUrl_fields u (set_currentUrl u (on_pages o2 (on_pages o1 c))))
    as (Hcu & _ & Hpg & _ & Hraw).
  fold cu in Hcu, Hpg, Hraw. cbn [currentUrl page _proxyLaunchRaw set_currentUrl] in Hcu, Hpg, Hraw.
  rewrite !on_pages_page, Hp in Hpg. rewrite !on_pages_proxyLaunchRaw in Hraw.
  assert (Hc0 : t = [] ∧ w2 = w1 ∧ page c0 = page cu ∧ currentUrl c0 = currentUrl cu ∧
            visitedUrls c0 = visitedUrls cu ∧ _proxyLaunchRaw c0 = _proxyLaunchRaw cu ∧
            (∀ pm raw, _proxyManager c0 = Some pm → _proxyLaunchRaw cu = Some raw →
               raw ≠ "" → Proxy._failures pm !! raw = None)).
  { destruct (_proxyManager cu) as [pm0|] eqn:Epm.
    - destruct (_proxyLaunchRaw cu) as [raw0|] eqn:Eraw; simpl in Hsucc.
      + destruct (JS.truthy raw0) eqn:Etr;
          unfold modify, ret in Hsucc; injection Hsucc as <- <- <- <-.
        * repeat split; try done. intros pm raw [= <-] [= <-] Hne.
          unfold Proxy.reportSuccess. rewrite Etr. simpl. apply lookup_delete_eq.
        * repeat split; try done. intros pm raw _ [= <-] Hne.
          by rewrite (ProxyFacts.truthy_nonempty _ Hne) in Etr.
      + unfold ret in Hsucc. injection Hsucc as <- <- <- <-.
        repeat split; try done.
    - unfold ret in Hsucc. injection Hsucc as <- <- <- <-.
      repeat split; try done. intros pm raw H. by rewrite Epm in H. }
  destruct Hc0 as (-> & -> & Hpage0 & Hcur0 & Hvis0 & Hraw0 & Hfail0).
  rewrite Hpage0, Hpg in Hp'. injection Hp' as <-.
  exists p, u, nodes, o1, w0, o2, w1, o3.
  split; [done|]. split; [done|]. split; [done|]. split; [done|].
  split; [done|]. split; [done|].
  cbn [page currentUrl visitedUrls lastSnapshot _proxyLaunchRaw _proxyManager
       set_lastSnapshot].
  rewrite on_pages_page, on_pages_currentUrl, on_pages_visitedUrls,
    on_pages_proxyLaunchRaw, on_pages_proxyManager.
  rewrite Hpage0, Hcur0, Hvis0, Hraw0, Hpg, Hcu, Hraw.
  split; [done|]. split; [done|]. split.
  { subst cu. apply addVisitedUrl_same. cbn [visitedUrls set_currentUrl].
    by rewrite !on_pages_visitedUrls. }
  split; [done|]. split; [done|].
  intros pm raw Hpm0 Hr. apply Hfail0; [done|]. by rewrite Hraw.
Qed.

Abbreviation click := (Tools.click perform URL_resolve).
Abbreviation click_strategies := (Tools.click_strategies perform).

Ltac outcome :=
  match goal with
  | r : (string + unit)%type |- _ => destruct r as [?|[]]
  end.

(** C4. The strategies of [click] are attempted in the declared order,
    each after the failure of the one before: the attempts made are an
    initial part of the strategy list, all but the last of them failed,
    and the run succeeds when the last one succeeded. An error is raised
    only when the whole list was attempted and failed, and it names the
    element identifier and the cause of the last failure. Inside [click]
    these are all the click attempts, and their error is the error of
    [click]. *)
Theorem click_falls_through_in_order
    (c : Ctx) (w : World) (uid : string) (item : Element) (p : Page) :
  let rs := (click_strategies p item uid c w).1.1.1 in
  let attempts :=
    filter (λ e, is_click e = true) (click_strategies p item uid c w).2 in
  (∃ n, (1 ≤ n ≤ length (strategies p item))%nat ∧
        call_of <$> attempts = take n (strategies p item) ∧
        Forall (λ e, failed e = true) (take (n - 1) attempts) ∧
        match rs with
        | inr _ => ∃ e, last attempts = Some e ∧ failed e = false
        | inl msg =>
            n = length (strategies p item) ∧
            Forall (λ e, failed e = true) attempts ∧
            ∃ err,
              last attempts
              = Some (Ev (LocatorEvaluateClick p (selector item)) (inl err)) ∧
              msg = "All click strategies failed for " +:+ uid +:+ ": " +:+ err
        end) ∧
  (∀ c0 w0 u opened,
     find_element c0 uid = Some item → page c0 = Some p →
     perform _ (PageUrl p) w0 = (inr u, opened, w) → c = on_pages opened c0 →
     filter (λ e, is_click e = true) (click uid c0 w0).2 = attempts ∧
     (∀ msg, rs = inl msg → (click uid c0 w0).1.1.1 = inl msg) ∧
     (∀ res, (click uid c0 w0).1.1.1 = inr res → rs = inr tt)).
Proof.
  split.
  - unfold Tools.click_strategies, strategies.
    destruct (JS.truthy (role item)), (JS.truthy (name item)); run;
      repeat (next_call; try outcome; run); cbn;
      first [ exists 1%nat; repeat split; eauto; cbn; solve [repeat constructor; eauto | lia | eauto]
            | exists 2%nat; repeat split; eauto; cbn; solve [repeat constructor; eauto | lia | eauto]
            | exists 3%nat; repeat split; eauto; cbn; solve [repeat constructor; eauto | lia | eauto]
            | exists 4%nat; repeat split; eauto; cbn; solve [repeat constructor; eauto | lia | eauto] ].
  - intros c0 w0 u opened Hfind Hpage Hurl ->.
    unfold Tools.click. run. rewrite Hfind, Hpage. run. rewrite Hurl. run.
    destruct (click_strategies p item uid (on_pages opened c0) w)
      as [[[rs cs] ws] ts] eqn:Es. cbn [fst snd].
    destruct rs as [msg|[]]; cbn [fst snd].
    + rewrite filter_cons_False by (cbn; done).
      split; [done|]. split; [by intros ? [= ->]|]. by intros.
    + pose proof (silent_click_click_after item uid u
                    (length (pages (on_pages opened c0))) cs ws) as Hs.
      destruct (click_after perform URL_resolve item uid u _ cs ws)
        as [[[ra ca] wa] ta]. cbn [fst snd] in *.
      rewrite filter_cons_False by (cbn; done).
      rewrite filter_app.
      assert (filter (λ e, is_click e = true) ta = []) as ->.
      { clear -Hs. induction Hs as [|e l He _ IH]; [done|].
        rewrite filter_cons_False; [done|]. by rewrite He. }
      rewrite app_nil_r. split; [done|]. split; [by intros|]. by intros.
Qed.

Abbreviation fill := (Tools.fill perform).
Abbreviation scroll := (Tools.scroll perform).
Abbreviation navigate := (Tools.navigate perform URL_new decodeURIComponent).

Lemma click_inr (uid : string) (c c' : Ctx) (w w' : World) (res : ToolResult)
    (t : list event) :
  click uid c w = (inr res, c', w', t) → lastSnapshot c' = None.
Proof.
  unfold Tools.click. intros H. split_bind H as found Hf.
  destruct (find_element c uid) as [item|]; [|done].
  split_bind H as p Hp. split_bind H as urlBefore Hu.
  split_bind H as tabsBefore Ht. split_bind H as x0 Hs.
  unfold click_after in H.
  split_bind H as x1 Hsleep. split_bind H as tabsAfter Hta.
  split_bind H as x2 Hsw. split_bind H as url Hr. split_bind H as x3 Hfb.
  split_bind H as x4 Hset. split_bind H as url' Hcu.
  unfold ret in H. by injection H as <- <- <- <-.
Qed.

Lemma scroll_inr (direction : string) (distance : Z) (c c' : Ctx) (w w' : World)
    (res : ToolResult) (t : list event) :
  scroll direction distance c w = (inr res, c', w', t) → lastSnapshot c' = None.
Proof.
  unfold Tools.scroll. intros H. split_bind H as session Hs.
  split_bind H as x0 Hm. split_bind H as x1 Hsleep. split_bind H as x2 Hset.
  unfold ret in H. by injection H as <- <- <- <-.
Qed.

Lemma fill_keeps_lastSnapshot (uid text : string) (c : Ctx) (w : World) :
  lastSnapshot (fill uid text c w).1.1.2 = lastSnapshot c.
Proof.
  unfold Tools.fill. run. destruct (find_element c uid) as [item|]; [|done].
  destruct (stealthSession c) as [[[] ?]|]; run;
    try (destruct (JS.truthy (selector item)); run; destruct (page c); run);
    try (cbn; done);
    next_call; destruct r; cbn; apply on_pages_lastSnapshot.
Qed.

(** A successful [navigate] ends with the three calls of
    [after_navigation]; what it leaves is read off the answers. *)
Lemma navigate_inr (url : string) (c c' : Ctx) (w w' : World) (res : ToolResult)
    (t : list event) :
  navigate url c w = (inr res, c', w', t) →
  ∃ t0 p u nodes w_u o_u w_s o_s,
    t = t0 ++ [Ev (Sleep 500) (inr tt); Ev (PageUrl p) (inr u);
               Ev (EvaluateSnapshot p) (inr nodes)] ∧
    perform _ (PageUrl p) w_u = (inr u, o_u, w_s) ∧
    perform _ (EvaluateSnapshot p) w_s = (inr nodes, o_s, w') ∧
    res = RNavigate u (text (snapshot_of false nodes))
                    (length (elements (snapshot_of false nodes))) ∧
    page c' = Some p ∧
    currentUrl c' = u ∧
    visitedUrls c' = visitedUrls (addVisitedUrl u c) ∧
    lastSnapshot c' = Some (snapshot_of false nodes) ∧
    (∀ pm raw, _proxyManager c' = Some pm → _proxyLaunchRaw c' = Some raw →
       raw ≠ "" → Proxy._failures pm !! raw = None).
Proof.
  unfold Tools.navigate. intros H. split_bind H as p0 Hp0.
  split_bind H as x0 Hinit. split_bind H as timeout Ht.
  split_bind H as x1 Hgoto.
  assert (Hv1 : visitedUrls c0 = visitedUrls c).
  { destruct (bool_decide (page c = None)).
    - pose proof (preserves_visitedUrls_init c w) as Hp. by rewrite Hinit in Hp.
    - unfold ret in Hinit. by injection Hinit as <- <- <-. }
  pose proof (preserves_visitedUrls_goto url (timeout_of c0) c0 w0) as Hv2.
  rewrite Hgoto in Hv2. cbn [fst snd] in Hv2.
  apply after_navigation_inr in H
    as (p & u & nodes & o1 & w_u & o_u & w_s & o_s & Hp & Hsl & Hu & Hn & -> & -> &
        Hp' & Hcur & Hvis & Hsnap & Hraw & Hfail).
  exists (t ++ t0), p, u, nodes, w_u, o_u, w_s, o_s.
  split; [by rewrite <- app_assoc|].
  split; [done|]. split; [done|]. split; [done|]. split; [done|].
  split; [done|]. split.
  { rewrite Hvis. apply addVisitedUrl_same. congruence. }
  split; [done|].
  intros pm raw Hpm Hr. apply Hfail; [done|]. by rewrite <- Hraw.
Qed.

(** C3 (as the code has it). A successful [click] and a successful
    [scroll] set the Element Index to null, and while it is null [click],
    [fill] and [openLink] fail with the not-found error for whatever
    identifier they are given, without a call to the browser. [fill]
    leaves the index as it is. A successful [navigate] ends by asking the
    page it reached for its nodes and replaces the index by the snapshot
    of the answer, in which identifiers are assigned anew from [el_0]:
    whatever the index held before, [el_i] resolves to the [i]-th node of
    the answer, for [i] below 120, and an identifier resolves to nothing
    else. *)
Theorem index_reset_by_click_and_scroll :
  (∀ uid c w res,
     (click uid c w).1.1.1 = inr res →
     lastSnapshot (click uid c w).1.1.2 = None) ∧
  (∀ direction distance c w res,
     (scroll direction distance c w).1.1.1 = inr res →
     lastSnapshot (scroll direction distance c w).1.1.2 = None) ∧
  (∀ uid text c w,
     lastSnapshot c = None →
     click uid c w = (inl ("Element not found in snapshot: " +:+ uid), c, w, []) ∧
     fill uid text c w = (inl ("Element not found in snapshot: " +:+ uid), c, w, []) ∧
     Tools.openLink perform URL_resolve uid c w
       = (inl ("Element not found in snapshot: " +:+ uid), c, w, [])) ∧
  (∀ uid text c w,
     lastSnapshot (fill uid text c w).1.1.2 = lastSnapshot c) ∧
  (∀ url c w res,
     (navigate url c w).1.1.1 = inr res →
     let c' := (navigate url c w).1.1.2 in
     ∃ p nodes w0 opened t0,
       perform _ (EvaluateSnapshot p) w0 = (inr nodes, opened, (navigate url c w).1.2) ∧
       (navigate url c w).2 = t0 ++ [Ev (EvaluateSnapshot p) (inr nodes)] ∧
       page c' = Some p ∧
       lastSnapshot c' = Some (snapshot_of false nodes) ∧
       (∀ i n, (i < 120)%nat → nodes !! i = Some n →
          find_element c' ("el_" +:+ pretty i) = Some (element_of i n)) ∧
       (∀ uid el, find_element c' uid = Some el →
          ∃ i n, (i < 120)%nat ∧ nodes !! i = Some n ∧
                 uid = "el_" +:+ pretty i ∧ el = element_of i n)).
Proof.
  split; [|split; [|split; [|split]]].
  - intros uid c w res H.
    destruct (click uid c w) as [[[r c'] w'] t] eqn:E. simpl in *. subst r.
    by eapply click_inr.
  - intros direction distance c w res H.
    destruct (scroll direction distance c w) as [[[r c'] w'] t] eqn:E.
    simpl in *. subst r. by eapply scroll_inr.
  - intros uid text c w Hnone.
    unfold Tools.click, Tools.fill, Tools.openLink, find_element. run.
    by rewrite Hnone.
  - intros. apply fill_keeps_lastSnapshot.
  - intros url c w res H c'. subst c'.
    destruct (navigate url c w) as [[[r c'] w'] t] eqn:E. cbn [fst snd] in *.
    subst r.
    apply navigate_inr in E
      as (t0 & p & u & nodes & w_u & o_u & w_s & o_s & -> & _ & Hn & _ & Hp & _ & _ & Hs & _).
    exists p, nodes, w_s, o_s, (t0 ++ [Ev (Sleep 500) (inr tt); Ev (PageUrl p) (inr u)]).
    split; [done|]. split; [by rewrite <- app_assoc|]. split; [done|].
    split; [done|]. unfold find_element. rewrite Hs.
    destruct (snapshot_resolves false nodes) as [Hin Hout]. split.
    + intros i n Hi Hnode. by apply Hin.
    + intros uid el Hel. by apply Hout.
Qed.

Abbreviation init := (Tools.init perform URL_new decodeURIComponent).
Abbreviation rotateBrowser := (Tools.rotateBrowser perform URL_new decodeURIComponent).

(** A successful [init] leaves a page. *)
Lemma init_inr (c c' : Ctx) (w w' : World) (x : unit) (t : list event) :
  init c w = (inr x, c', w', t) → ∃ p, page c' = Some p.
Proof.
  unfold Tools.init. intros H.
  split_bind H as cfg Hcfg. split_bind H as p Hp. split_bind H as x0 Hset.
  exists p.
  match type of H with
  | ?m _ _ = _ =>
      assert (Hpres : preserves page m)
        by (pose proof on_pages_page; unfold attempt; frame)
  end.
  specialize (Hpres (set_page (Some p) c0) w0). by rewrite H in Hpres.
Qed.

(** A successful [rotateBrowser] on a session with a proxy manager
    answers true and leaves a page. *)
Lemma rotateBrowser_inr (c c' : Ctx) (w w' : World) (b : bool) (t : list event) :
  is_Some (_proxyManager c) →
  rotateBrowser c w = (inr b, c', w', t) →
  b = true ∧ ∃ p, page c' = Some p.
Proof.
  intros [pm Hpm]. unfold Tools.rotateBrowser. intros H.
  split_bind H as pm' Hpm'. rewrite Hpm in H.
  split_bind H as launched Hl. split_bind H as x0 Hrep.
  split_bind H as x1 Hclose. split_bind H as x2 Hinit.
  unfold ret in H. injection H as <- <- <- <-.
  split; [done|]. by eapply init_inr.
Qed.

(** The page a successful [init] leaves is the one the browser it
    connected to or launched has opened. *)
Lemma init_opens (c c' : Ctx) (w w' : World) (x : unit) (t : list event) :
  init c w = (inr x, c', w', t) →
  ∃ p, page c' = Some p ∧
       (if useCDP (config c) then Ev CDPPage (inr p) ∈ t
        else Ev NewPage (inr p) ∈ t ∧ ∃ proxy, Ev (Launch proxy) (inr tt) ∈ t).
Proof.
  unfold Tools.init. intros H.
  split_bind H as cfg Hcfg. split_bind H as p Hp. split_bind H as x0 Hset.
  exists p. split.
  { match type of H with
    | ?m _ _ = _ =>
        assert (Hpres : preserves page m)
          by (pose proof on_pages_page; unfold attempt; frame)
    end.
    specialize (Hpres (set_page (Some p) c0) w0). by rewrite H in Hpres. }
  clear H. destruct (useCDP (config c)).
  - split_bind Hp as y0 Hconn. split_bind Hp as y1 Hb.
    apply do_call_inr in Hp as (o & _ & _ & ->).
    rewrite !elem_of_app, !list_elem_of_singleton. auto.
  - split_bind Hp as proxy Hproxy. split_bind Hp as y0 Hlaunch.
    apply do_call_inr in Hlaunch as (o & _ & _ & ->). destruct y0.
    split_bind Hp as y1 Hb.
    apply do_call_inr in Hp as (o' & _ & _ & ->).
    split; [|exists proxy]; rewrite !elem_of_app, !list_elem_of_singleton; auto 10.
Qed.

(** What a successful [close] leaves. *)
Lemma close_inr (c c' : Ctx) (w w' : World) (x : unit) (t : list event) :
  close perform c w = (inr x, c', w', t) →
  page c' = None ∧ pages c' = [] ∧
  (_ownership c = standalone → browser c = true → t = [Ev BrowserClose (inr tt)]).
Proof.
  unfold Tools.close. run. destruct (_ownership c).
  - destruct (browser c); run.
    + next_call. destruct r as [e|[]]; [done|]. by intros [= <- <- <- <-].
    + by intros [= <- <- <- <-].
  - by intros [= <- <- <- <-].
Qed.

(** A successful [rotateBrowser] on a session with a proxy manager: the
    failure of the proxy in use is reported to the manager, at the time
    the clock gives, and a ban it leads to is written to the ban file;
    then the session is closed, and then initialised anew. *)
Lemma rotateBrowser_steps (c c' : Ctx) (w w' : World) (b : bool) (t : list event)
    (pm : Proxy.ProxyManager) :
  _proxyManager c = Some pm →
  rotateBrowser c w = (inr b, c', w', t) →
  b = true ∧
  ∃ c_r w_r t_r c_c w_c t_c t_i,
    t = t_r ++ t_c ++ t_i ∧
    (JS.truthy_opt (_proxyLaunchRaw c) = false → c_r = c ∧ w_r = w ∧ t_r = []) ∧
    (∀ raw, _proxyLaunchRaw c = Some raw → raw ≠ "" →
       ∃ now o w_n t_w,
         perform _ DateNow w = (inr now, o, w_n) ∧
         t_r = Ev DateNow (inr now) :: t_w ∧
         _proxyManager c_r = Some (Proxy.reportFailure pm raw now).2 ∧
         if (Proxy.reportFailure pm raw now).1
         then ∃ r, t_w = [Ev (WriteBans (Proxy._state (Proxy.reportFailure pm raw now).2)) r]
         else t_w = []) ∧
    close perform c_r w_r = (inr tt, c_c, w_c, t_c) ∧
    page c_c = None ∧ pages c_c = [] ∧
    (_ownership c = standalone → browser c = true → t_c = [Ev BrowserClose (inr tt)]) ∧
    init c_c w_c = (inr tt, c', w', t_i) ∧
    ∃ p, page c' = Some p ∧
         (if useCDP (config c) then Ev CDPPage (inr p) ∈ t_i
          else Ev NewPage (inr p) ∈ t_i ∧ ∃ proxy, Ev (Launch proxy) (inr tt) ∈ t_i).
Proof.
  intros Hpm. unfold Tools.rotateBrowser. intros H.
  split_bind H as pm' Hpm'. rewrite Hpm in H.
  split_bind H as launched Hl. split_bind H as x0 Hrep.
  split_bind H as x1 Hclose. split_bind H as x2 Hinit.
  unfold ret in H. injection H as <- <- <- <-.
  split; [done|]. destruct x1, x2.
  assert (Hkept : _ownership c0 = _ownership c ∧ browser c0 = browser c ∧
                  config c0 = config c).
  { match type of Hrep with
    | ?m _ _ = _ =>
        assert (H1 : preserves _ownership m)
          by (pose proof on_pages_ownership; unfold attempt; frame);
        assert (H2 : preserves browser m)
          by (pose proof on_pages_browser; unfold attempt; frame);
        assert (H3 : preserves config m)
          by (pose proof on_pages_config; unfold attempt; frame)
    end.
    specialize (H1 c w). specialize (H2 c w). specialize (H3 c w).
    by rewrite Hrep in H1, H2, H3. }
  destruct Hkept as (Hown & Hbro & Hcfg).
  assert (Hcfg1 : config c1 = config c).
  { assert (H3 : preserves config (close perform))
      by (pose proof on_pages_config; unfold close; frame).
    specialize (H3 c0 w0). rewrite Hclose in H3. cbn [fst snd] in H3. congruence. }
  destruct (close_inr _ _ _ _ _ _ Hclose) as (Hpc & Hpsc & Htc).
  destruct (init_opens _ _ _ _ _ _ Hinit) as (p & Hp & Hev). rewrite Hcfg1 in Hev.
  exists c0, w0, t, c1, w1, t0, t1.
  split; [by rewrite app_nil_r|].
  split; [|split; [|split; [done|split; [done|split; [done|split; [|split; [done|]]]]]]].
  - intros Hf. rewrite Hf in Hrep. unfold ret in Hrep. by injection Hrep as <- <- <-.
  - intros raw Hraw Hne. rewrite Hraw in Hrep.
    change (JS.truthy_opt (Some raw)) with (JS.truthy raw) in Hrep.
    change (default "" (Some raw)) with raw in Hrep.
    rewrite (ProxyFacts.truthy_nonempty raw Hne) in Hrep.
    split_bind Hrep as now Hnow.
    apply do_call_inr in Hnow as (o & Hnow & -> & ->).
    destruct (Proxy.reportFailure pm raw now) as [was_banned pm'] eqn:Erf.
    split_bind Hrep as y Hmod.
    exists now, o, w3. cbn [fst snd].
    destruct was_banned.
    + unfold attempt, try_catch, do_call, ret in Hrep.
      destruct (perform _ (WriteBans (Proxy._state pm')) w3) as [[r o'] w''].
      exists [Ev (WriteBans (Proxy._state pm')) r].
      destruct r as [e|[]]; injection Hrep as ? ? ? ?; subst;
        rewrite Erf; cbn [fst snd]; repeat split; eauto;
        by rewrite on_pages_proxyManager.
    + unfold ret in Hrep. injection Hrep as ? ? ? ?; subst. exists [].
      rewrite Erf. cbn [fst snd]. by rewrite !app_nil_r.
  - intros Ho Hb. apply Htc; congruence.
  - by exists p.
Qed.

Lemma rotateBrowser_unavailable (c : Ctx) (w : World) :
  _proxyManager c = None → rotateBrowser c w = (inr false, c, w, []).
Proof. intros Hpm. unfold Tools.rotateBrowser. run. by rewrite Hpm. Qed.

Lemma filter_silent (P : event → bool) (t : list event) :
  Forall (λ e, P e = false) t → filter (λ e, P e = true) t = [].
Proof.
  induction 1 as [|e l He _ IH]; [done|].
  rewrite filter_cons_False; [done|]. by rewrite He.
Qed.

(** [navigate] on a session without a page initialises it first. *)
Lemma navigate_initialises (c : Ctx) (w : World) (url : string) :
  page c = None →
  navigate url c w
  = (let '(ri, c0, w0, t0) := init c w in
     match ri with
     | inl e => (inl e, c0, w0, t0)
     | inr _ =>
         let '(r, c', w', t) := navigate url c0 w0 in (r, c', w', t0 ++ t)
     end).
Proof.
  intros Hnone. unfold Tools.navigate at 1. run. rewrite Hnone.
  rewrite bool_decide_eq_true_2 by done.
  destruct (init c w) as [[[ri c0] w0] t0] eqn:Ei.
  destruct ri as [e|x]; [done|].
  destruct (init_inr _ _ _ _ _ _ Ei) as [p Hp].
  unfold Tools.navigate. run. rewrite Hp.
  rewrite bool_decide_eq_false_2 by done. run.
  destruct (goto_with_retry perform URL_new decodeURIComponent url
              (timeout_of c0) c0 w0) as [[[[e|[]] c2] w2] t2]; [done|].
  by destruct (after_navigation perform c2 w2) as [[[ra ca] wa] ta].
Qed.

(** C7. [navigate] on a session without a page initialises it first; an
    error of that propagates, and otherwise it goes on as on a session
    with a page. There it attempts the navigation once. When that succeeds
    nothing is retried. When it fails without the tunnel-failure condition,
    or no proxy manager is there to rotate, the failure propagates at once.
    When it fails with the tunnel failure and a proxy manager is there, the
    browser is rotated: the failure of the proxy in use is reported to the
    manager at the time the clock gives, a ban it leads to is written to
    the ban file, the session is closed (an owned browser is closed) and
    initialised anew, which leaves the page the new browser opened. An
    error of the rotation propagates, and otherwise the navigation is
    attempted exactly once more, on that page, and its failure propagates.
    When [navigate] succeeds its last calls are the pause, the question
    for the URL of the page and the question for its nodes: the current
    URL is the URL answered, the visited history is the one from before
    with that URL recorded, the Element Index is the snapshot of the nodes
    answered, and the failure history of the proxy in use is cleared. *)
Theorem navigate_retries_once_after_rotation
    (c : Ctx) (w : World) (url : string) :
  (page c = None →
     navigate url c w
     = (let '(ri, c0, w0, t0) := init c w in
        match ri with
        | inl e => (inl e, c0, w0, t0)
        | inr _ =>
            let '(r, c', w', t) := navigate url c0 w0 in (r, c', w', t0 ++ t)
        end) ∧
     no_goto (init c w).2 ∧
     (∀ x, (init c w).1.1.1 = inr x → is_Some (page (init c w).1.1.2))) ∧
  (∀ p g1 opened w1,
     page c = Some p →
     perform _ (Goto p url (timeout_of c)) w = (g1, opened, w1) →
     let c1 := on_pages opened c in
     let first := Ev (Goto p url (timeout_of c)) g1 in
     let gotos := filter (λ e, is_goto e = true) (navigate url c w).2 in
     (g1 = inr tt → gotos = [first]) ∧
     (∀ msg, g1 = inl msg →
        JS.includes msg TUNNEL_FAILED = false ∨ _proxyManager c = None →
        navigate url c w = (inl msg, c1, w1, [first])) ∧
     (∀ msg pm rr c2 w2 t2,
        g1 = inl msg → JS.includes msg TUNNEL_FAILED = true →
        _proxyManager c = Some pm →
        rotateBrowser c1 w1 = (rr, c2, w2, t2) →
        no_goto t2 ∧
        match rr with
        | inl e => navigate url c w = (inl e, c2, w2, first :: t2)
        | inr rotated =>
            rotated = true ∧
            (∃ c_r w_r t_r c_c w_c t_c t_i,
               t2 = t_r ++ t_c ++ t_i ∧
               (JS.truthy_opt (_proxyLaunchRaw c) = false →
                  c_r = c1 ∧ w_r = w1 ∧ t_r = []) ∧
               (∀ raw, _proxyLaunchRaw c = Some raw → raw ≠ "" →
                  ∃ now o w_n t_w,
                    perform _ DateNow w1 = (inr now, o, w_n) ∧
                    t_r = Ev DateNow (inr now) :: t_w ∧
                    _proxyManager c_r = Some (Proxy.reportFailure pm raw now).2 ∧
                    if (Proxy.reportFailure pm raw now).1
                    then ∃ r, t_w = [Ev (WriteBans (Proxy._state
                                           (Proxy.reportFailure pm raw now).2)) r]
                    else t_w = []) ∧
               close perform c_r w_r = (inr tt, c_c, w_c, t_c) ∧
               page c_c = None ∧ pages c_c = [] ∧
               (_ownership c = standalone → browser c = true →
                  t_c = [Ev BrowserClose (inr tt)]) ∧
               init c_c w_c = (inr tt, c2, w2, t_i)) ∧
            ∃ p2 rest,
              page c2 = Some p2 ∧
              (if useCDP (config c) then Ev CDPPage (inr p2) ∈ t2
               else Ev NewPage (inr p2) ∈ t2 ∧
                    ∃ proxy, Ev (Launch proxy) (inr tt) ∈ t2) ∧
              let g2 := (perform _ (Goto p2 url (timeout_of c)) w2).1.1 in
              let second := Ev (Goto p2 url (timeout_of c)) g2 in
              (navigate url c w).2 = first :: t2 ++ second :: rest ∧
              no_goto rest ∧
              gotos = [first; second] ∧
              (∀ msg2, g2 = inl msg2 →
                 (navigate url c w).1.1.1 = inl msg2 ∧ rest = [])
        end) ∧
     (∀ res, (navigate url c w).1.1.1 = inr res →
        let c' := (navigate url c w).1.1.2 in
        ∃ t0 p' u nodes w_u o_u w_s o_s,
          (navigate url c w).2
          = t0 ++ [Ev (Sleep 500) (inr tt); Ev (PageUrl p') (inr u);
                   Ev (EvaluateSnapshot p') (inr nodes)] ∧
          perform _ (PageUrl p') w_u = (inr u, o_u, w_s) ∧
          perform _ (EvaluateSnapshot p') w_s
          = (inr nodes, o_s, (navigate url c w).1.2) ∧
          res = RNavigate u (text (snapshot_of false nodes))
                          (length (elements (snapshot_of false nodes))) ∧
          page c' = Some p' ∧
          currentUrl c' = u ∧
          visitedUrls c' = visitedUrls (addVisitedUrl u c) ∧
          (u ≠ "" → u ∈ visitedUrls c') ∧
          lastSnapshot c' = Some (snapshot_of false nodes) ∧
          (∀ pm raw, _proxyManager c' = Some pm → _proxyLaunchRaw c' = Some raw →
             raw ≠ "" → Proxy._failures pm !! raw = None))).
Proof.
  split.
  - intros Hnone. split; [by apply navigate_initialises|].
    split; [apply silent_goto_init|].
    intros x Hx. destruct (init c w) as [[[ri c0] w0] t0] eqn:Ei.
    simpl in *. subst ri. by eapply init_inr.
  - intros p g1 opened w1 Hpage Hg c1 first gotos.
    split; [|split; [|split]].
    + intros ->. subst gotos. unfold Tools.navigate, Tools.goto_with_retry. run.
      rewrite Hpage. rewrite bool_decide_eq_false_2 by done. run.
      rewrite Hpage. run. rewrite Hg. run.
      pose proof (silent_goto_after_navigation (on_pages opened c) w1) as Hs.
      destruct (after_navigation perform (on_pages opened c) w1)
        as [[[ra ca] wa] ta]. cbn [fst snd] in *.
      rewrite filter_cons_True by done. by rewrite (filter_silent _ _ Hs).
    + intros msg -> Hor. unfold Tools.navigate, Tools.goto_with_retry. run.
      rewrite Hpage. rewrite bool_decide_eq_false_2 by done. run.
      rewrite Hpage. run. rewrite Hg. run.
      destruct (JS.includes msg TUNNEL_FAILED) eqn:Ei; run; [|done].
      destruct Hor as [?|Hpm]; [done|].
      rewrite rotateBrowser_unavailable by (by rewrite on_pages_proxyManager).
      run. done.
    + intros msg pm rr c2 w2 t2 -> Hi Hpm Hrot.
      pose proof (silent_goto_rotateBrowser c1 w1) as Hquiet.
      rewrite Hrot in Hquiet. cbn [snd] in Hquiet. split; [exact Hquiet|].
      assert (Hnav : navigate url c w
        = match rr with
          | inl e => (inl e, c2, w2, first :: t2)
          | inr rotated =>
              if rotated then
                match page c2 with
                | Some p2 =>
                    let '(g2, opened2, w3) := perform _ (Goto p2 url (timeout_of c)) w2 in
                    match g2 with
                    | inl e => (inl e, on_pages opened2 c2, w3,
                                first :: t2 ++ [Ev (Goto p2 url (timeout_of c)) g2])
                    | inr _ =>
                        let '(ra, ca, wa, ta) :=
                          after_navigation perform (on_pages opened2 c2) w3 in
                        (ra, ca, wa,
                         first :: (t2 ++ [Ev (Goto p2 url (timeout_of c)) g2]) ++ ta)
                    end
                | None =>
                    (inl "Cannot read properties of null (reading 'goto')",
                     c2, w2, first :: t2)
                end
              else (inl msg, c2, w2, first :: t2)
          end).
      { unfold Tools.navigate, Tools.goto_with_retry. run.
        rewrite Hpage. rewrite bool_decide_eq_false_2 by done. run.
        rewrite Hpage. run. rewrite Hg. run. rewrite Hi. fold c1. rewrite Hrot.
        destruct rr as [e|[]]; run; rewrite ?app_nil_r; try done.
        destruct (page c2) as [p2|]; run; rewrite ?app_nil_r; [|done].
        destruct (perform _ (Goto p2 url (timeout_of c)) w2) as [[g2 opened2] w3].
        destruct g2 as [e|[]]; run; rewrite ?app_nil_r; [done|].
        by destruct (after_navigation perform (on_pages opened2 c2) w3)
          as [[[ra ca] wa] ta]. }
      destruct rr as [e|rotated]; [done|].
      assert (Hc1 : _proxyManager c1 = Some pm)
        by (unfold c1; by rewrite on_pages_proxyManager).
      destruct (rotateBrowser_steps _ _ _ _ _ _ _ Hc1 Hrot)
        as (-> & c_r & w_r & t_r & c_c & w_c & t_c & t_i & Ht2 & Hquietrep & Hrep &
            Hclose & Hpc & Hpsc & Htc & Hinit & p2 & Hp2 & Hev).
      unfold c1 in Hquietrep, Hrep, Htc, Hev.
      rewrite on_pages_proxyLaunchRaw in Hquietrep, Hrep.
      rewrite on_pages_ownership, on_pages_browser in Htc.
      rewrite on_pages_config in Hev.
      split; [done|]. split.
      { exists c_r, w_r, t_r, c_c, w_c, t_c, t_i.
        split; [done|]. split; [exact Hquietrep|]. split; [exact Hrep|].
        split; [done|]. split; [done|]. split; [done|]. by split. }
      rewrite Hp2 in Hnav. subst gotos. rewrite Hnav.
      assert (Hev2 : if useCDP (config c) then Ev CDPPage (inr p2) ∈ t2
                     else Ev NewPage (inr p2) ∈ t2 ∧
                          ∃ proxy, Ev (Launch proxy) (inr tt) ∈ t2).
      { rewrite Ht2. destruct (useCDP (config c)).
        - rewrite !elem_of_app. auto.
        - destruct Hev as [Hn [proxy Hl]]. split; [|exists proxy];
            rewrite !elem_of_app; auto. }
      destruct (perform _ (Goto p2 url (timeout_of c)) w2) as [[g2 opened2] w3] eqn:Eg2.
      cbn [fst snd].
      destruct g2 as [e|[]].
      * exists p2, []. rewrite Eg2. cbn [fst snd]. split; [done|]. split; [done|].
        split; [done|]. split; [constructor|]. split.
        -- rewrite filter_cons_True by done. rewrite filter_app.
          rewrite (filter_silent _ _ Hquiet). by rewrite filter_cons_True.
        -- intros msg2 [= ->]. done.
      * pose proof (silent_goto_after_navigation (on_pages opened2 c2) w3) as Hs.
        destruct (after_navigation perform (on_pages opened2 c2) w3)
          as [[[ra ca] wa] ta]. cbn [fst snd] in *.
        exists p2, ta. rewrite Eg2. cbn [fst snd].
        split; [done|]. split; [done|]. split; [by rewrite <- app_assoc|].
        split; [done|]. split; [|done].
        rewrite filter_cons_True by done. rewrite !filter_app.
        rewrite (filter_silent _ _ Hquiet), (filter_silent _ _ Hs).
        by rewrite filter_cons_True.
    + intros res H c'. subst c'.
      destruct (navigate url c w) as [[[r c'] w'] t] eqn:E.
      cbn [fst snd] in *. subst r.
      apply navigate_inr in E
        as (t0 & p' & u & nodes & w_u & o_u & w_s & o_s & -> & Hu & Hn & -> &
            Hp' & Hcur & Hvis & Hsnap & Hfail).
      exists t0, p', u, nodes, w_u, o_u, w_s, o_s.
      split; [done|]. split; [done|]. split; [done|]. split; [done|].
      split; [done|]. split; [done|]. split; [done|]. split; [|done].
      intros Hne. rewrite Hvis. by apply addVisitedUrl_elem.
Qed.

(** *** What an operation keeps *)

Lemma triple_ret {A} (P : Ctx → Prop) (a : A) Q E :
  (∀ c, P c → Q a c) → triple P (@ret World A a) Q E.
Proof. intros H c w Hc. by apply H. Qed.

Lemma triple_throw {A} (P : Ctx → Prop) (msg : string) (Q : A → Ctx → Prop) E :
  (∀ c, P c → E c) → triple P (@throw World A msg) Q E.
Proof. intros H c w Hc. by apply H. Qed.

Lemma triple_gets {A} (P : Ctx → Prop) (f : Ctx → A) Q E :
  (∀ c, P c → Q (f c) c) → triple P (@gets World A f) Q E.
Proof. intros H c w Hc. by apply H. Qed.

Lemma triple_modify (P : Ctx → Prop) (f : Ctx → Ctx) Q E :
  (∀ c, P c → Q tt (f c)) → triple P (@modify World f) Q E.
Proof. intros H c w Hc. by apply H. Qed.

Lemma triple_call {R} (P : Ctx → Prop) (k : call R) (Q : R → Ctx → Prop) E :
  (∀ c opened r, P c → Q r (on_pages opened c)) →
  (∀ c opened, P c → E (on_pages opened c)) →
  triple P (do_call perform k) Q E.
Proof.
  intros HQ HE c w Hc. unfold do_call.
  destruct (perform R k w) as [[[e|r] opened] w']; cbn; auto.
Qed.

Lemma triple_bind {A B} (P : Ctx → Prop) (m : @M World A) (f : A → @M World B)
    (R : A → Ctx → Prop) Q E :
  triple P m R E → (∀ a, triple (R a) (f a) Q E) → triple P (bind m f) Q E.
Proof.
  intros Hm Hf c w Hc. specialize (Hm c w Hc). unfold bind.
  destruct (m c w) as [[[[e|a] c1] w1] t1]; cbn in *; [done|].
  specialize (Hf a c1 w1 Hm).
  by destruct (f a c1 w1) as [[[[e|b] c2] w2] t2].
Qed.

Lemma triple_try_catch {A} (P : Ctx → Prop) (m : @M World A) (h : string → @M World A)
    (R : Ctx → Prop) Q E :
  triple P m Q R → (∀ e, triple R (h e) Q E) → triple P (try_catch m h) Q E.
Proof.
  intros Hm Hh c w Hc. specialize (Hm c w Hc). unfold try_catch.
  destruct (m c w) as [[[[e|a] c1] w1] t1]; cbn in *; [|done].
  specialize (Hh e c1 w1 Hm).
  by destruct (h e c1 w1) as [[[[e'|b] c2] w2] t2].
Qed.

Lemma triple_weaken {A} (P P' : Ctx → Prop) (m : @M World A)
    (Q Q' : A → Ctx → Prop) (E E' : Ctx → Prop) :
  triple P' m Q' E' →
  (∀ c, P c → P' c) → (∀ a c, Q' a c → Q a c) → (∀ c, E' c → E c) →
  triple P m Q E.
Proof.
  intros Hm HP HQ HE c w Hc. specialize (Hm c w (HP c Hc)).
  destruct ((m c w).1.1.1); auto.
Qed.

(** A block of assignments at the head of a computation. *)
Lemma triple_modify_bind {B} (P : Ctx → Prop) (f : Ctx → Ctx) (k : unit → @M World B) Q E :
  triple (λ c', ∃ c, P c ∧ c' = f c) (k tt) Q E →
  triple P (bind (modify f) k) Q E.
Proof.
  intros Hk. eapply triple_bind; [apply (triple_modify _ _ (λ _ c', ∃ c, P c ∧ c' = f c))|].
  - intros c Hc. by exists c.
  - by intros [].
Qed.

Section Keeps.
Variable I : Ctx → Prop.
Hypothesis I_pages : ∀ opened c, I c → I (on_pages opened c).

Lemma keeps_ret {A} (a : A) : keeps I (@ret World A a).
Proof. by apply triple_ret. Qed.
Lemma keeps_throw {A} (msg : string) : keeps I (@throw World A msg).
Proof. by apply triple_throw. Qed.
Lemma keeps_gets {A} (f : Ctx → A) : keeps I (@gets World A f).
Proof. by apply triple_gets. Qed.
Lemma keeps_modify (f : Ctx → Ctx) : (∀ c, I c → I (f c)) → keeps I (@modify World f).
Proof. intros H. by apply triple_modify. Qed.
Lemma keeps_call {R} (k : call R) : keeps I (do_call perform k).
Proof. apply triple_call; auto. Qed.
Lemma keeps_bind {A B} (m : @M World A) (f : A → @M World B) :
  keeps I m → (∀ a, keeps I (f a)) → keeps I (bind m f).
Proof. intros Hm Hf. eapply triple_bind; [exact Hm|exact Hf]. Qed.
Lemma keeps_try_catch {A} (m : @M World A) (h : string → @M World A) :
  keeps I m → (∀ e, keeps I (h e)) → keeps I (try_catch m h).
Proof. intros Hm Hh. eapply triple_try_catch; [exact Hm|exact Hh]. Qed.
End Keeps.


(** Proves [keeps I m] for a computation whose calls and assignments keep
    [I]; the hypothesis on [on_pages] is in the context. *)
Ltac steady :=
  repeat first
    [ apply keeps_ret | apply keeps_throw | apply keeps_gets
    | apply keeps_call; assumption
    | apply keeps_modify; solve [intros ? ?; assumption | eauto]
    | match goal with H : _ |- _ => apply H end
    | apply keeps_bind; [|intros]
    | apply keeps_try_catch; [|intros]
    | match goal with
      | |- keeps _ (if ?b then _ else _) => destruct b
      | |- keeps _ (match ?x with _ => _ end) => destruct x
      end ].

(** *** The tab pointer *)

Lemma valid_on_pages (opened : list Page) (c : Ctx) :
  tab_pointer_valid c → tab_pointer_valid (on_pages opened c).
Proof.
  unfold on_pages. revert c. induction opened as [|q l IH]; intros c Hc; [done|].
  simpl. apply IH. unfold on_page. case_bool_decide; [done|].
  intros p Hp. cbn [page pages currentPageIndex set_pages] in *.
  apply lookup_app_l_Some. by apply Hc.
Qed.

Lemma valid_addVisitedUrl (u : string) (c : Ctx) :
  tab_pointer_valid c → tab_pointer_valid (addVisitedUrl u c).
Proof. unfold addVisitedUrl. by destruct (JS.truthy u). Qed.

Lemma valid_close : keeps tab_pointer_valid (close perform).
Proof.
  pose proof valid_on_pages as Hpages.
  assert (Hclear : @keeps World _ tab_pointer_valid
                     (bind (modify (set_page None)) (λ _, modify (set_pages [])))).
  { unfold keeps. apply triple_modify_bind. apply triple_modify.
    intros c' (c & _ & ->) p Hp. done. }
  unfold close. apply keeps_bind; [steady|]. intros [].
  - apply keeps_bind; [steady|]. intros b.
    apply keeps_bind; [steady|]. intros _.
    apply keeps_bind; [steady|]. intros _. exact Hclear.
  - exact Hclear.
Qed.

Lemma valid_init :
  keeps tab_pointer_valid (Tools.init perform URL_new decodeURIComponent).
Proof.
  pose proof valid_on_pages as Hpages.
  unfold Tools.init, setup_proxy. apply keeps_bind; [steady|]. intros cfg.
  apply keeps_bind; [steady|]. intros p.
  unfold keeps. do 3 apply triple_modify_bind.
  eapply triple_weaken with (P' := tab_pointer_valid) (Q' := λ _, tab_pointer_valid)
                            (E' := tab_pointer_valid); [|  |done|done].
  - fold (@keeps World unit tab_pointer_valid). steady.
  - intros c' (c2 & (c1 & (c0 & _ & ->) & ->) & ->) q Hq.
    cbn in Hq |- *. done.
Qed.

Lemma valid_switchToTab (index : nat) :
  keeps tab_pointer_valid (switchToTab perform index).
Proof.
  pose proof valid_on_pages as Hpages.
  unfold switchToTab. unfold keeps.
  eapply triple_bind;
    [apply (triple_gets _ _ (λ ps c, tab_pointer_valid c ∧ ps = pages c)); by intros|].
  intros ps. destruct (ps !! index) as [p|] eqn:Ep.
  - do 2 apply triple_modify_bind.
    eapply triple_weaken with (P' := tab_pointer_valid) (Q' := λ _, tab_pointer_valid)
                              (E' := tab_pointer_valid); [| |done|done].
    + fold (@keeps World bool tab_pointer_valid). steady.
    + intros c' (c1 & (c0 & [_ ->] & ->) & ->) q Hq. cbn in Hq |- *. congruence.
  - apply triple_ret. by intros c [Hc _].
Qed.

Lemma valid_rotateBrowser :
  keeps tab_pointer_valid (Tools.rotateBrowser perform URL_new decodeURIComponent).
Proof.
  pose proof valid_on_pages as Hpages. pose proof valid_close. pose proof valid_init.
  unfold Tools.rotateBrowser, attempt. steady.
Qed.

Lemma valid_record_url : keeps tab_pointer_valid (record_url perform).
Proof.
  pose proof valid_on_pages as Hpages. pose proof valid_addVisitedUrl.
  unfold record_url, the_page. steady.
Qed.

Lemma valid_navigate (url : string) :
  keeps tab_pointer_valid (Tools.navigate perform URL_new decodeURIComponent url).
Proof.
  pose proof valid_on_pages as Hpages. pose proof valid_init.
  pose proof valid_rotateBrowser. pose proof valid_record_url.
  unfold Tools.navigate, goto_with_retry, after_navigation, createSnapshot, the_page.
  steady.
Qed.

Lemma valid_snapshot (verbose : bool) :
  keeps tab_pointer_valid (snapshot perform verbose).
Proof.
  pose proof valid_on_pages as Hpages.
  unfold snapshot, createSnapshot, the_page. steady.
Qed.

Lemma valid_click (uid : string) :
  keeps tab_pointer_valid (Tools.click perform URL_resolve uid).
Proof.
  pose proof valid_on_pages as Hpages. pose proof valid_record_url.
  pose proof valid_switchToTab.
  unfold Tools.click, Tools.click_strategies, click_after, click_href_fallback, not_found,
    attempt, the_page.
  steady.
Qed.

Lemma valid_fill (uid text : string) :
  keeps tab_pointer_valid (Tools.fill perform uid text).
Proof.
  pose proof valid_on_pages as Hpages.
  unfold Tools.fill, not_found, the_page. steady.
Qed.

Lemma valid_openLink (uid : string) :
  keeps tab_pointer_valid (Tools.openLink perform URL_resolve uid).
Proof.
  pose proof valid_on_pages as Hpages. pose proof valid_record_url.
  unfold Tools.openLink, Tools.lookup_href, not_found, the_page. steady.
Qed.

Lemma valid_scroll (direction : string) (distance : Z) :
  keeps tab_pointer_valid (Tools.scroll perform direction distance).
Proof.
  pose proof valid_on_pages as Hpages.
  unfold Tools.scroll, the_page. steady.
Qed.

Lemma keeps_final {A} (I : Ctx → Prop) (m : @M World A) (c : Ctx) (w : World) :
  keeps I m → I c → I (m c w).1.1.2.
Proof. intros Hm Hc. specialize (Hm c w Hc). by destruct ((m c w).1.1.1). Qed.

(** X13. Whenever the session has a current page, that page is the tab
    at the current index; every operation of the session and every tool
    keeps it so, whether it returns or throws. *)
Theorem tab_pointer_kept (c : Ctx) (w : World) :
  tab_pointer_valid c →
  tab_pointer_valid (Tools.init perform URL_new decodeURIComponent c w).1.1.2 ∧
  tab_pointer_valid (close perform c w).1.1.2 ∧
  tab_pointer_valid (Tools.rotateBrowser perform URL_new decodeURIComponent c w).1.1.2 ∧
  (∀ index, tab_pointer_valid (switchToTab perform index c w).1.1.2) ∧
  (∀ url, tab_pointer_valid (Tools.navigate perform URL_new decodeURIComponent url c w).1.1.2) ∧
  (∀ verbose, tab_pointer_valid (snapshot perform verbose c w).1.1.2) ∧
  (∀ uid, tab_pointer_valid (Tools.click perform URL_resolve uid c w).1.1.2) ∧
  (∀ uid text, tab_pointer_valid (Tools.fill perform uid text c w).1.1.2) ∧
  (∀ uid, tab_pointer_valid (Tools.openLink perform URL_resolve uid c w).1.1.2) ∧
  (∀ direction distance,
     tab_pointer_valid (Tools.scroll perform direction distance c w).1.1.2).
Proof.
  intros Hc.
  split; [eapply keeps_final; [apply valid_init|done]|].
  split; [eapply keeps_final; [apply valid_close|done]|].
  split; [eapply keeps_final; [apply valid_rotateBrowser|done]|].
  split; [intros; eapply keeps_final; [apply valid_switchToTab|done]|].
  split; [intros; eapply keeps_final; [apply valid_navigate|done]|].
  split; [intros; eapply keeps_final; [apply valid_snapshot|done]|].
  split; [intros; eapply keeps_final; [apply valid_click|done]|].
  split; [intros; eapply keeps_final; [apply valid_fill|done]|].
  split; [intros; eapply keeps_final; [apply valid_openLink|done]|].
  intros; eapply keeps_final; [apply valid_scroll|done].
Qed.

(** *** The visited history *)

Section History.

Variable c0 : Ctx.

Lemma grows_on_pages (opened : list Page) (c : Ctx) :
  history_grows c0 c → history_grows c0 (on_pages opened c).
Proof. unfold history_grows. by rewrite on_pages_visitedUrls. Qed.

Lemma grows_addVisitedUrl (u : string) (c : Ctx) :
  history_grows c0 c → history_grows c0 (addVisitedUrl u c).
Proof.
  intros (Hpre & Hnd & Hne). unfold history_grows, addVisitedUrl.
  destruct (JS.truthy u) eqn:Hu; [|done]. cbn [visitedUrls set_visitedUrls].
  case_bool_decide as Hin; [done|].
  split; [by apply prefix_app_r|]. split.
  - intros H0. apply NoDup_app. split; [by apply Hnd|].
    split; [|apply NoDup_singleton].
    intros x Hx Hx'. apply list_elem_of_singleton in Hx' as ->. done.
  - intros H0 H. apply elem_of_app in H as [H|H]; [by apply Hne|].
    apply list_elem_of_singleton in H as <-. done.
Qed.

Ltac history :=
  pose proof grows_on_pages; pose proof grows_addVisitedUrl.

Lemma grows_close : keeps (history_grows c0) (close perform).
Proof. history. unfold close. steady. Qed.

Lemma grows_init :
  keeps (history_grows c0) (Tools.init perform URL_new decodeURIComponent).
Proof. history. unfold Tools.init, setup_proxy. steady. Qed.

Lemma grows_switchToTab (index : nat) :
  keeps (history_grows c0) (switchToTab perform index).
Proof. history. unfold switchToTab. steady. Qed.

Lemma grows_rotateBrowser :
  keeps (history_grows c0) (Tools.rotateBrowser perform URL_new decodeURIComponent).
Proof.
  history. pose proof grows_close. pose proof grows_init.
  unfold Tools.rotateBrowser, attempt. steady.
Qed.

Lemma grows_record_url : keeps (history_grows c0) (record_url perform).
Proof. history. unfold record_url, the_page. steady. Qed.

Lemma grows_navigate (url : string) :
  keeps (history_grows c0) (Tools.navigate perform URL_new decodeURIComponent url).
Proof.
  history. pose proof grows_init. pose proof grows_rotateBrowser.
  pose proof grows_record_url.
  unfold Tools.navigate, goto_with_retry, after_navigation, createSnapshot, the_page.
  steady.
Qed.

Lemma grows_snapshot (verbose : bool) :
  keeps (history_grows c0) (snapshot perform verbose).
Proof. history. unfold snapshot, createSnapshot, the_page. steady. Qed.

Lemma grows_click (uid : string) :
  keeps (history_grows c0) (Tools.click perform URL_resolve uid).
Proof.
  history. pose proof grows_record_url. pose proof grows_switchToTab.
  unfold Tools.click, Tools.click_strategies, click_after, click_href_fallback, not_found,
    attempt, the_page.
  steady.
Qed.

Lemma grows_fill (uid text : string) :
  keeps (history_grows c0) (Tools.fill perform uid text).
Proof. history. unfold Tools.fill, not_found, the_page. steady. Qed.

Lemma grows_openLink (uid : string) :
  keeps (history_grows c0) (Tools.openLink perform URL_resolve uid).
Proof.
  history. pose proof grows_record_url.
  unfold Tools.openLink, Tools.lookup_href, not_found, the_page. steady.
Qed.

Lemma grows_scroll (direction : string) (distance : Z) :
  keeps (history_grows c0) (Tools.scroll perform direction distance).
Proof. history. unfold Tools.scroll, the_page. steady. Qed.

End History.

Lemma history_grows_refl (c : Ctx) : history_grows c c.
Proof. by split. Qed.

(** X14. The visited history only grows: whatever an operation or a
    tool does, and whether it returns or throws, the history afterwards
    starts with the history from before, and if that had no duplicate
    and no empty URL, neither has the new one. *)
Theorem visited_history_grows (c : Ctx) (w : World) :
  history_grows c (Tools.init perform URL_new decodeURIComponent c w).1.1.2 ∧
  history_grows c (close perform c w).1.1.2 ∧
  history_grows c (Tools.rotateBrowser perform URL_new decodeURIComponent c w).1.1.2 ∧
  (∀ index, history_grows c (switchToTab perform index c w).1.1.2) ∧
  (∀ url, history_grows c (Tools.navigate perform URL_new decodeURIComponent url c w).1.1.2) ∧
  (∀ verbose, history_grows c (snapshot perform verbose c w).1.1.2) ∧
  (∀ uid, history_grows c (Tools.click perform URL_resolve uid c w).1.1.2) ∧
  (∀ uid text, history_grows c (Tools.fill perform uid text c w).1.1.2) ∧
  (∀ uid, history_grows c (Tools.openLink perform URL_resolve uid c w).1.1.2) ∧
  (∀ direction distance,
     history_grows c (Tools.scroll perform direction distance c w).1.1.2).
Proof.
  pose proof (history_grows_refl c) as Hc.
  split; [eapply keeps_final; [apply grows_init|done]|].
  split; [eapply keeps_final; [apply grows_close|done]|].
  split; [eapply keeps_final; [apply grows_rotateBrowser|done]|].
  split; [intros; eapply keeps_final; [apply grows_switchToTab|done]|].
  split; [intros; eapply keeps_final; [apply grows_navigate|done]|].
  split; [intros; eapply keeps_final; [apply grows_snapshot|done]|].
  split; [intros; eapply keeps_final; [apply grows_click|done]|].
  split; [intros; eapply keeps_final; [apply grows_fill|done]|].
  split; [intros; eapply keeps_final; [apply grows_openLink|done]|].
  intros; eapply keeps_final; [apply grows_scroll|done].
Qed.

(** *** The snapshot tool *)

(** X9. [snapshot] on a session without a page throws without a call
    and leaves the session as it is. On a page it asks the page once: an
    error of that propagates and the Element Index stays as it was;
    otherwise the index becomes the snapshot of the nodes answered, cut
    to 120 (to 300 when verbose), whose number is the element count
    returned. The identifiers of the index are distinct: [el_i] resolves
    to the [i]-th node and an identifier resolves to nothing else. *)
Theorem snapshot_indexes_the_page (verbose : bool) (c : Ctx) (w : World) :
  let limit := (if verbose then 300 else 120)%nat in
  (page c = None →
     (snapshot perform verbose c w).2 = [] ∧
     (∃ msg, (snapshot perform verbose c w).1.1.1 = inl msg) ∧
     (snapshot perform verbose c w).1.1.2 = c) ∧
  (∀ p r opened w', page c = Some p →
     perform _ (EvaluateSnapshot p) w = (r, opened, w') →
     (snapshot perform verbose c w).2 = [Ev (EvaluateSnapshot p) r] ∧
     match r with
     | inl e =>
         (snapshot perform verbose c w).1.1.1 = inl e ∧
         lastSnapshot (snapshot perform verbose c w).1.1.2 = lastSnapshot c
     | inr nodes =>
         let snap := snapshot_of verbose nodes in
         (snapshot perform verbose c w).1.1.1
         = inr (RSnapshot (length (elements snap)) (text snap)) ∧
         lastSnapshot (snapshot perform verbose c w).1.1.2 = Some snap ∧
         length (elements snap) = (limit `min` length nodes)%nat ∧
         NoDup (id <$> elements snap) ∧
         (∀ i n, (i < limit)%nat → nodes !! i = Some n →
            find_element (snapshot perform verbose c w).1.1.2 ("el_" +:+ pretty i)
            = Some (element_of i n)) ∧
         (∀ uid el,
            find_element (snapshot perform verbose c w).1.1.2 uid = Some el →
            ∃ i n, (i < limit)%nat ∧ nodes !! i = Some n ∧
                   uid = "el_" +:+ pretty i ∧ el = element_of i n)
     end).
Proof.
  intros limit. split.
  - intros Hp. unfold snapshot. run. rewrite Hp. cbn. eauto.
  - intros p r opened w' Hp Hr. unfold snapshot, createSnapshot. run.
    rewrite Hp. run. rewrite Hr. destruct r as [e|nodes]; cbn [fst snd app].
    + split; [done|]. split; [done|]. apply on_pages_lastSnapshot.
    + split; [done|]. split; [done|]. split; [done|].
      split; [unfold snapshot_of; cbn [elements]; by rewrite length_imap, length_take|].
      split; [apply snapshot_ids_NoDup|].
      unfold find_element. cbn [lastSnapshot set_lastSnapshot].
      destruct (snapshot_resolves verbose nodes) as [Hin Hout]. split.
      * intros i n Hi Hn. by apply Hin.
      * intros uid el Hel. by apply Hout.
Qed.

(** *** Opening a link *)




(** *** Rotation and the failure history *)

Lemma silent_write_close : silent is_write_bans (close perform).
Proof. unfold close. silence. Qed.

Lemma silent_write_init : silent is_write_bans init.
Proof. unfold Tools.init, setup_proxy. silence. Qed.

Lemma setup_proxy_inr (c c' : Ctx) (w w' : World) (r : option Proxy.Parsed)
    (t : list event) :
  setup_proxy perform URL_new decodeURIComponent c w = (inr r, c', w', t) →
  config c' = config c ∧
  ∃ pm, _proxyManager c' = Some pm ∧ Proxy._failures pm = ∅.
Proof.
  unfold setup_proxy. intros H.
  split_bind H as urls Hurls. split_bind H as disk Hdisk.
  assert (Hcfg : config c0 = config c).
  { assert (Hp : preserves config
                   (try_catch (do_call perform ReadBans) (λ _, @ret World _ None)))
      by (pose proof on_pages_config; frame).
    specialize (Hp c w). by rewrite Hdisk in Hp. }
  split_bind H as now Hnow. apply do_call_inr in Hnow as (o1 & _ & -> & _).
  split_bind H as rnd Hrnd. apply do_call_inr in Hrnd as (o2 & _ & -> & _).
  split_bind H as now' Hnow'. apply do_call_inr in Hnow' as (o3 & _ & -> & _).
  match type of H with
  | context [Proxy.getNextProxy _ _ ?m ?n] =>
      pose proof (ProxyFacts.getNextProxy_frame URL_new decodeURIComponent m n)
        as [_ Hfail];
      destruct (Proxy.getNextProxy URL_new decodeURIComponent m n) as [proxy pm]
  end.
  cbn [snd] in Hfail.
  split_bind H as x0 Hset. destruct proxy as [pr|].
  - split_bind H as x1 Hraw. unfold ret in H. injection H as <- <- <- <-.
    split; [by cbn; rewrite !on_pages_config|]. by exists pm.
  - unfold ret in H. injection H as <- <- <- <-.
    split; [by cbn; rewrite !on_pages_config|]. by exists pm.
Qed.

(** A launch with proxies enabled starts with a manager of its own, with
    no failure on record. *)
Lemma init_new_manager (c c' : Ctx) (w w' : World) (x : unit) (t : list event) :
  useCDP (config c) = false → proxy_enabled (config c) = true →
  init c w = (inr x, c', w', t) →
  config c' = config c ∧
  ∃ pm, _proxyManager c' = Some pm ∧ Proxy._failures pm = ∅.
Proof.
  intros Hcdp Hen. unfold Tools.init. intros H.
  split_bind H as cfg Hcfg. rewrite Hcdp, Hen in H.
  split_bind H as p Hp. split_bind Hp as proxy Hproxy.
  apply setup_proxy_inr in Hproxy as (Hc & pm & Hpm & Hfail).
  match type of Hp with
  | ?m _ _ = _ =>
      assert (H1 : preserves _proxyManager m)
        by (pose proof on_pages_proxyManager; frame);
      assert (H2 : preserves config m) by (pose proof on_pages_config; frame);
      specialize (H1 c1 w1); specialize (H2 c1 w1);
      rewrite Hp in H1, H2; cbn [fst snd] in H1, H2
  end.
  match type of H with
  | ?m _ _ = _ =>
      assert (H3 : preserves _proxyManager m)
        by (pose proof on_pages_proxyManager; frame);
      assert (H4 : preserves config m) by (pose proof on_pages_config; frame);
      specialize (H3 c0 w0); specialize (H4 c0 w0);
      rewrite H in H3, H4; cbn [fst snd] in H3, H4
  end.
  split; [congruence|]. exists pm. split; [congruence|done].
Qed.

Lemma first_failure_no_ban (pm : Proxy.ProxyManager) (raw : string) (now : Z) :
  Proxy._failures pm = ∅ → (Proxy.reportFailure pm raw now).1 = false.
Proof.
  intros Hnone. unfold Proxy.reportFailure.
  destruct (negb (JS.truthy raw)); [done|]. rewrite Hnone, lookup_empty.
  cbn [default app]. rewrite filter_cons_True by (unfold Proxy.FAIL_WINDOW_MS; lia).
  by rewrite filter_nil.
Qed.

(** X12. A rotation that goes through, in a session that launches its
    browser with proxies enabled, leaves a proxy manager with no failure
    on record: the failure it reported is kept by the manager it
    replaces. So when the manager had no failure on record before, the
    rotation bans nothing and writes no ban file, and the next one
    starts from the same state. *)
Theorem rotation_starts_afresh (c c' : Ctx) (w w' : World) (t : list event)
    (pm : Proxy.ProxyManager) :
  _proxyManager c = Some pm →
  useCDP (config c) = false → proxy_enabled (config c) = true →
  rotateBrowser c w = (inr true, c', w', t) →
  config c' = config c ∧
  (∃ pm', _proxyManager c' = Some pm' ∧ Proxy._failures pm' = ∅) ∧
  (Proxy._failures pm = ∅ →
     Forall (λ e, is_write_bans e = false) t ∧
     ∀ raw now, (Proxy.reportFailure pm raw now).1 = false).
Proof.
  intros Hpm Hcdp Hen Hrot. unfold Tools.rotateBrowser in Hrot.
  split_bind Hrot as pm0 Hpm0. rewrite Hpm in Hrot.
  split_bind Hrot as launched Hl. split_bind Hrot as x0 Hr.
  split_bind Hrot as x1 Hcl. split_bind Hrot as x2 Hinit.
  unfold ret in Hrot. injection Hrot as <- <- <-.
  match type of Hr with
  | ?m _ _ = _ =>
      assert (H1 : preserves config m)
        by (pose proof on_pages_config; unfold attempt; frame);
      specialize (H1 c w); rewrite Hr in H1; cbn [fst snd] in H1
  end.
  assert (H2 : preserves config (close perform))
    by (pose proof on_pages_config; unfold close; frame).
  specialize (H2 c0 w0). rewrite Hcl in H2. cbn [fst snd] in H2.
  assert (Hcdp1 : useCDP (config c1) = false) by congruence.
  assert (Hen1 : proxy_enabled (config c1) = true) by congruence.
  destruct (init_new_manager _ _ _ _ _ _ Hcdp1 Hen1 Hinit)
    as (Hcfg & pm' & Hpm' & Hfail).
  split; [congruence|]. split; [by exists pm'|].
  intros Hnone. split; [|intros; by apply first_failure_no_ban].
  cbn [app]. rewrite app_nil_r. apply Forall_app. split; [|apply Forall_app; split].
  all: destruct x0.
  - destruct (JS.truthy_opt (_proxyLaunchRaw c)).
    + split_bind Hr as now Hnow. apply do_call_inr in Hnow as (o & _ & -> & ->).
      pose proof (first_failure_no_ban pm (default "" (_proxyLaunchRaw c)) now Hnone)
        as Hno.
      destruct (Proxy.reportFailure pm (default "" (_proxyLaunchRaw c)) now)
        as [was pm1]. cbn [fst] in Hno. subst was.
      split_bind Hr as y Hy. unfold ret in Hr. injection Hr as <- <- <-.
      cbn [app]. by repeat constructor.
    + unfold ret in Hr. injection Hr as <- <- <-. constructor.
  - pose proof (silent_write_close c0 w0) as Hs. by rewrite Hcl in Hs.
  - pose proof (silent_write_init c1 w1) as Hs. by rewrite Hinit in Hs.
Qed.

(** *** Closing the session *)

(** X11. [close] asks the browser to close once, and only in a
    standalone session that has a browser; when that goes through, the
    session has neither a page nor tabs left, a second [close] makes no
    call and changes nothing, and [snapshot] then throws for want of a
    page. When the browser refuses to close, [close] throws its error
    and the session keeps its browser and its page. *)
Theorem close_releases_once (c : Ctx) (w : World) :
  (close perform c w).2
  = match _ownership c with
    | standalone =>
        if browser c then [Ev BrowserClose (perform _ BrowserClose w).1.1] else []
    | pooled => []
    end ∧
  (∀ c' w' t, close perform c w = (inr tt, c', w', t) →
     page c' = None ∧ pages c' = [] ∧
     (_ownership c = standalone → browser c' = false) ∧
     (∀ w1, close perform c' w1 = (inr tt, c', w1, [])) ∧
     (∀ w1 verbose,
        snapshot perform verbose c' w1
        = (inl "Cannot read properties of null (reading 'evaluate')", c', w1, []))) ∧
  (∀ e c' w' t, close perform c w = (inl e, c', w', t) →
     _ownership c = standalone ∧ browser c = true ∧
     (perform _ BrowserClose w).1.1 = inl e ∧
     browser c' = true ∧ page c' = page c).
Proof.
  split; [|split].
  - unfold Tools.close. run. destruct (_ownership c); [|done].
    destruct (browser c); run; [|done].
    destruct (perform () BrowserClose w) as [[[e|[]] o] w1]; cbn; done.
  - intros c' w' t. unfold Tools.close. run.
    assert (Hafter : ∀ c1 : Ctx,
              page c1 = None → pages c1 = [] → _ownership c1 = _ownership c →
              (_ownership c = standalone → browser c1 = false) →
              c1 = set_pages [] (set_page None c1) →
              (_ownership c = standalone →
               c1 = set_pages [] (set_page None (set_browser false c1))) →
              page c1 = None ∧ pages c1 = [] ∧
              (_ownership c = standalone → browser c1 = false) ∧
              (∀ w1, close perform c1 w1 = (inr tt, c1, w1, [])) ∧
              (∀ w1 verbose,
                 snapshot perform verbose c1 w1
                 = (inl "Cannot read properties of null (reading 'evaluate')",
                    c1, w1, []))).
    { intros c1 Hp Hps Hown Hb Hfix Hfix'.
      split; [done|]. split; [done|]. split; [done|]. split.
      - intros w1. unfold Tools.close. run. rewrite Hown.
        destruct (_ownership c).
        + rewrite (Hb eq_refl). run. by rewrite <- (Hfix' eq_refl).
        + by rewrite <- Hfix.
      - intros w1 verbose. unfold snapshot. run. by rewrite Hp. }
    destruct (_ownership c) eqn:Eown.
    + destruct (browser c) eqn:Eb; run.
      * next_call. destruct r as [e|[]]; [done|]. intros [= <- <- <-].
        apply Hafter; try done. cbn. by rewrite on_pages_ownership.
      * intros [= <- <- <-]. apply Hafter; done.
    + intros [= <- <- <-]. apply Hafter; done.
  - intros e c' w' t. unfold Tools.close. run.
    destruct (_ownership c) eqn:Eown; [|done].
    destruct (browser c) eqn:Eb; run; [|done].
    next_call. destruct r as [e'|[]]; [|done]. intros [= <- <- <- <-].
    cbn. by rewrite on_pages_browser, on_pages_page.
Qed.

End Facts.

End ToolsFacts.

(** ** Runs on concrete inputs *)

Module Runs.
Import Tools Script ToolsFacts.

(** C3 (as the specification has it) fails. Typing into the search box
    opens suggestions, so the page no longer matches the index; [fill]
    succeeds and leaves the index, and a [click] on an identifier of that
    index is not refused: it resolves against the old index. And after
    [navigate] has reached another page, the identifier [el_1] of the old
    index is not refused either: it resolves against the new index, and
    the button clicked is the one of the new page. Neither run depends on
    what the URL functions of the platform do. *)
Lemma stale_identifier_is_not_refused :
  ((fill answer "el_0" "rocq" session suggesting_browser).1.1.1
   = inr (RFill "el_0" 4) ∧
   nodes (fill answer "el_0" "rocq" session suggesting_browser).1.2
   = form_with_suggestions ∧
   ∀ resolve,
     (bind (fill answer "el_0" "rocq") (λ _, click answer resolve "el_1")
           session suggesting_browser).1.1.1
     = inr (RClick "el_1" false "https://example.com/")) ∧
  (∀ new_URL decode resolve,
     let run := bind (navigate answer new_URL decode "https://example.org/")
                     (λ _, click answer resolve "el_1") session shop_browser in
     run.1.1.1 = inr (RClick "el_1" false "https://example.org/") ∧
     filter (λ e, is_click e = true) run.2
     = [Ev (LocatorClick 0 "#buy") (inr tt)]).
Proof.
  split.
  - split; [reflexivity|]. split; [reflexivity|]. intros resolve. reflexivity.
  - intros new_URL decode resolve. split; reflexivity.
Qed.

(** A target only the script-level click reaches: the three strategies
    before it are attempted and fail, then it succeeds. *)
Example only_script_click_reaches :
  (click answer resolve_plain "el_1" session stubborn_browser).1.1.1
  = inr (RClick "el_1" false "https://example.com/") ∧
  filter (λ e, is_click e = true)
         (click answer resolve_plain "el_1" session stubborn_browser).2
  = [Ev (LocatorClick 0 "#go") (inl "Timeout 5000ms exceeded");
     Ev (RoleClick 0 "button" "Go") (inl "Timeout 5000ms exceeded");
     Ev (TextClick 0 "Go") (inl "Timeout 5000ms exceeded");
     Ev (LocatorEvaluateClick 0 "#go") (inr tt)].
Proof. split; reflexivity. Qed.

(** C2 fails on the code. The pool holds a valid endpoint, nothing is
    banned, and [getNextProxy] answers null all the same: the cursor
    selected the entry that is not a URL and [_parseProxy] answered null
    for it, whatever [decodeURIComponent] does. [init], the caller, then
    launches the browser without a proxy. *)
Lemma getNextProxy_null_beside_valid_endpoint :
  Proxy._allUrls mixed_pool = ["http://h1:8080"; "not a proxy"] ∧
  Proxy.banned (Proxy._state mixed_pool) = ∅ ∧
  (∀ u, Proxy.currently_banned 1000 (Proxy.banned (Proxy._state mixed_pool)) u = false) ∧
  Proxy._parseProxy JS.URL_new decode_plain "http://h1:8080"
  = Some (Proxy.mkParsed "http://h1:8080" "http://h1:8080" "" "") ∧
  (∀ dec, (Proxy.getNextProxy JS.URL_new dec mixed_pool 1000).1 = None) ∧
  (∀ dec, (init answer JS.URL_new dec mixed_session browser).1.1.1 = inr tt ∧
          Ev (Launch None) (inr tt)
          ∈ (init answer JS.URL_new dec mixed_session browser).2).
Proof.
  split; [reflexivity|]. split; [reflexivity|]. split; [done|].
  split; [reflexivity|]. split; [intros dec; reflexivity|].
  intros dec. split; [reflexivity|].
  apply list_elem_of_In. vm_compute.
  repeat first [left; reflexivity | right].
Qed.

(** Witness of C10: the link of the form has a [javascript:] target. *)
Lemma openLink_javascript_link_refused :
  openLink answer resolve_plain "el_2" session browser
  = (inl "Cannot navigate to javascript: href", session, browser, []).
Proof.
  destruct (openLink_rejects_javascript_href answer resolve_plain
              session session browser browser "el_2"
              (mkElement "el_2" "a.more" "link" "More" (Some "javascript:void(0)"))
              (Some "javascript:void(0)") [] eq_refl eq_refl)
    as (_ & Hjs & _).
  apply Hjs. reflexivity.
Defined.

(** Witness of C7: the first navigation fails in the tunnel, the browser
    is rotated to the next proxy, and the navigation is attempted once
    more. *)
Lemma navigate_rotates_and_retries :
  filter (λ e, is_goto e = true)
         (navigate answer JS.URL_new decode_plain "https://example.org/"
                   proxied_session tunnel_browser).2
  = [Ev (Goto 0 "https://example.org/" 30000) (inl TUNNEL_ERROR);
     Ev (Goto 0 "https://example.org/" 30000) (inr tt)].
Proof.
  destruct (navigate_retries_once_after_rotation answer JS.URL_new decode_plain
              proxied_session tunnel_browser "https://example.org/")
    as [_ Hopen].
  destruct (Hopen 0%nat (inl TUNNEL_ERROR) [] browser eq_refl eq_refl)
    as (_ & _ & Hrot & _).
  pose (rot := rotateBrowser answer JS.URL_new decode_plain
                 (on_pages [] proxied_session) browser).
  assert (Hsplit : rot = (rot.1.1.1, rot.1.1.2, rot.1.2, rot.2))
    by (by destruct rot as [[[? ?] ?] ?]).
  destruct (Hrot TUNNEL_ERROR _ _ _ _ _ eq_refl eq_refl eq_refl Hsplit)
    as [_ Hretry].
  assert (Hrr : rot.1.1.1 = inr true) by (vm_compute; reflexivity).
  rewrite Hrr in Hretry.
  destruct Hretry as (_ & _ & p2 & rest & Hp2 & _ & _ & _ & Hgotos & _).
  vm_compute in Hp2. injection Hp2 as <-.
  vm_compute in Hgotos. vm_compute. exact Hgotos.
Defined.

(** Witness of C1: two failures on record, the third inside the window
    bans the endpoint for twelve hours. *)
Lemma third_failure_bans :
  (Proxy.reportFailure flaky_pool "http://h1:8080" 3000).1 = true ∧
  Proxy.banned (Proxy._state (Proxy.reportFailure flaky_pool "http://h1:8080" 3000).2)
    !! "http://h1:8080"
  = Some (Proxy.mkBan 3000 43203000 3).
Proof.
  assert (Hne : "http://h1:8080" ≠ "") by discriminate.
  destruct (ProxyFacts.reportFailure_bans_at_threshold
              flaky_pool "http://h1:8080" 3000 Hne)
    as (Hiff & _ & _ & Hban & _).
  assert (Htrue : (Proxy.reportFailure flaky_pool "http://h1:8080" 3000).1 = true)
    by (apply Hiff; vm_compute; lia).
  split; [exact Htrue|]. destruct (Hban Htrue) as [Hrec _]. exact Hrec.
Defined.

(** Witness of C5: an image from a subdomain of an allowlisted domain
    passes the aggressive mode. *)
Lemma allowlisted_image_passes :
  Adblock.block
    (Adblock.evaluate JS.URL_new allowlisting
       (Adblock.mkRequest "https://CDN.example.com/ads/banner.png" "image"))
  = false.
Proof.
  destruct (AdblockFacts.allowlist_overrides_block_rules JS.URL_new allowlisting
              (Adblock.mkRequest "https://CDN.example.com/ads/banner.png" "image")
              (JS.mkURL "https:" "cdn.example.com" "cdn.example.com" "" "")
              "example.com") as [Hallow _].
  - vm_compute. reflexivity.
  - vm_compute. apply list_elem_of_here.
  - vm_compute. reflexivity.
  - exact Hallow.
Defined.

(** Witness of C6: the document of an ad domain is not blocked by the
    default rules. *)
Lemma ad_domain_document_passes :
  Adblock.evaluate JS.URL_new (Adblock.buildCache Adblock.defaultConfig)
    (Adblock.mkRequest "https://ad.doubleclick.net/landing" "document")
  = Adblock.allow.
Proof.
  destruct (AdblockFacts.document_blocked_only_by_type JS.URL_new
              (Adblock.buildCache Adblock.defaultConfig)
              (Adblock.mkRequest "https://ad.doubleclick.net/landing" "document")
              eq_refl) as (_ & _ & Hdefault).
  destruct (Hdefault Adblock.defaultConfig eq_refl) as [_ Hallow]. exact Hallow.
Defined.

(** The same request as a script is blocked by its domain. *)
Example ad_domain_script_blocked :
  Adblock.blockRule
    (Adblock.evaluate JS.URL_new (Adblock.buildCache Adblock.defaultConfig)
       (Adblock.mkRequest "https://ad.doubleclick.net/landing" "script"))
  = Some "domain:doubleclick.net".
Proof. reflexivity. Qed.

(** Witness of X3: two calls on a fresh pool of two proxies select the
    second and then the first. *)
Lemma two_rounds_visit_both :
  (Proxy.rounds JS.URL_new decode_plain [10; 20]%Z
     (Proxy.constructor proxies None 0 (λ _, 0%nat))).1
  = [Some "http://h1:8080"; Some "http://h2:8080"].
Proof.
  destruct (ProxyFacts.getNextProxy_round_robin JS.URL_new decode_plain
              (Proxy.constructor proxies None 0 (λ _, 0%nat)) [10; 20]%Z)
    as [Hsel _].
  - vm_compute. lia.
  - intros t u _ _. reflexivity.
  - rewrite Hsel. reflexivity.
Defined.

(** Witness of X4: after the third failure has banned the first proxy,
    one of the two is banned and one available. *)
Lemma one_banned_one_available :
  Proxy.getStats (Proxy.reportFailure flaky_pool "http://h1:8080" 3000).2 4000
  = Proxy.mkStats 2 1 1.
Proof.
  destruct (ProxyFacts.getStats_counts_pool
              (Proxy.reportFailure flaky_pool "http://h1:8080" 3000).2 4000)
    as (Htotal & Hbanned & Havailable).
  - apply (bool_decide_unpack _). vm_compute. exact I.
  - intros u. unfold Proxy.currently_banned.
    destruct (decide (u = "http://h1:8080")) as [->|Hne].
    + intros _. apply (bool_decide_unpack _). vm_compute. exact I.
    + change (Proxy.banned (Proxy._state
               (Proxy.reportFailure flaky_pool "http://h1:8080" 3000).2))
        with (<["http://h1:8080" := Proxy.mkBan 3000 43203000 3]>
                (∅ : gmap string Proxy.Ban)).
      rewrite lookup_insert_ne by done. by rewrite lookup_empty.
  - destruct (Proxy.getStats _ 4000) as [t a b]. cbn [Proxy.total Proxy.available
      Proxy.banned_count] in *. rewrite Htotal, Hbanned, Havailable. reflexivity.
Defined.

(** Witness of X5: three failures of one proxy within two seconds. *)
Lemma three_quick_failures_ban :
  (Proxy.reportFailure
     (Proxy.reportFailure
        (Proxy.reportFailure (Proxy.constructor proxies None 0 (λ _, 0%nat))
           "http://h1:8080" 0).2
        "http://h1:8080" 1000).2
     "http://h1:8080" 2000).1 = true.
Proof.
  assert (Hne : "http://h1:8080" ≠ "") by discriminate.
  destruct (ProxyFacts.three_failures_within_window
              (Proxy.constructor proxies None 0 (λ _, 0%nat))
              "http://h1:8080" 0 1000 2000 Hne)
    as (_ & _ & Hban & _).
  - reflexivity.
  - lia.
  - apply Hban. lia.
Defined.

(** The session on the form has its page as the tab at its index, and
    still has after a navigation to the shop. *)
Lemma navigation_keeps_tab_pointer :
  tab_pointer_valid session ∧
  tab_pointer_valid
    (navigate answer JS.URL_new decode_plain "https://example.org/"
              session shop_browser).1.1.2.
Proof.
  assert (Hvalid : tab_pointer_valid session) by (intros p Hp; exact Hp).
  split; [exact Hvalid|].
  destruct (tab_pointer_kept answer JS.URL_new decode_plain resolve_plain
              session shop_browser Hvalid)
    as (_ & _ & _ & _ & Hnav & _).
  apply Hnav.
Defined.

(** A rotation of the session launched through the second of two proxies:
    its manager has no failure on record, so no ban file is written, and
    the manager after it has none either. *)
Lemma rotation_writes_no_ban :
  Forall (λ e, is_write_bans e = false)
    (rotateBrowser answer JS.URL_new decode_plain proxied_session browser).2 ∧
  ∃ pm', _proxyManager
           (rotateBrowser answer JS.URL_new decode_plain proxied_session browser).1.1.2
         = Some pm' ∧ Proxy._failures pm' = ∅.
Proof.
  pose (rot := rotateBrowser answer JS.URL_new decode_plain proxied_session browser).
  assert (Hrun : rot = (inr true, rot.1.1.2, rot.1.2, rot.2))
    by (vm_compute; reflexivity).
  destruct (rotation_starts_afresh answer JS.URL_new decode_plain
              proxied_session rot.1.1.2 browser rot.1.2 rot.2
              (Proxy.constructor proxies None 0 (λ _, 0%nat))
              eq_refl eq_refl eq_refl Hrun)
    as (_ & Hfresh & Hquiet).
  split; [|exact Hfresh].
  apply Hquiet. reflexivity.
Defined.

End Runs.

